(** * Untagged-resource scanner: a shallow embedding of [index.js] and of the
    full scanner script it was copied from, with the properties of the
    scan orchestrator stated over that embedding.

    Layout: JavaScript values and the tag classifier; promises with
    settle times and [withTimeout]; the paginated fetch (the declaration
    in effect and the shadowed, timeout-aware one); the region resolver;
    the two claim-cursor worker pools; the aggregator's sort; the entry
    point [main_handler] of both files; then the theorems. *)

From Stdlib Require Import List String Ascii Bool ZArith Lia Arith.
From Stdlib Require Import Permutation Sorted.
From Stdlib Require Import DecimalString.
Import ListNotations.
Local Open Scope string_scope.
Local Open Scope list_scope.
Set Warnings "-register-all".

(* ================================================================== *)
(** ** JavaScript values *)

(** The payloads the scanner inspects are parsed JSON documents.  Numbers
    are restricted to integers; an object lists its own properties in the
    order [Object.keys] enumerates them. *)
Inductive JsVal : Type :=
| JUndefined
| JNull
| JBool (b : bool)
| JNum (n : Z)
| JStr (s : string)
| JArr (xs : list JsVal)
| JObj (props : list (string * JsVal)).

(** [Boolean(v)]: the falsy values are [undefined], [null], [false], [0]
    and the empty string; every array and object is truthy. *)
Definition truthy (v : JsVal) : bool :=
  match v with
  | JUndefined | JNull => false
  | JBool b => b
  | JNum n => negb (n =? 0)%Z
  | JStr s => negb (s =? "")
  | JArr _ | JObj _ => true
  end.

Definition nullish (v : JsVal) : bool :=
  match v with
  | JUndefined | JNull => true
  | _ => false
  end.

Fixpoint lookup (k : string) (props : list (string * JsVal)) : JsVal :=
  match props with
  | [] => JUndefined
  | (k', v) :: rest => if k' =? k then v else lookup k rest
  end.

(** [v.k] for a non-nullish receiver and a property name that no
    prototype defines (every name read by the scanner is of that kind):
    only an object can hold it. *)
Definition get (v : JsVal) (k : string) : JsVal :=
  match v with
  | JObj props => lookup k props
  | _ => JUndefined
  end.

(** [v?.k] *)
Definition get_opt (v : JsVal) (k : string) : JsVal :=
  if nullish v then JUndefined else get v k.

(** [a || b] *)
Definition or_else (a b : JsVal) : JsVal := if truthy a then a else b.

(** [a ?? b] *)
Definition coalesce (a b : JsVal) : JsVal := if nullish a then b else a.

Definition isArray (v : JsVal) : bool :=
  match v with JArr _ => true | _ => false end.

(** [typeof v === "object"] *)
Definition typeof_object (v : JsVal) : bool :=
  match v with JNull | JArr _ | JObj _ => true | _ => false end.

Definition Object_keys (props : list (string * JsVal)) : list JsVal :=
  map (fun kv => JStr (fst kv)) props.

Definition dec (n : Z) : string := NilZero.string_of_int (Z.to_int n).

Fixpoint join (sep : string) (parts : list string) : string :=
  match parts with
  | [] => ""
  | [p] => p
  | p :: rest => (p ++ sep ++ join sep rest)%string
  end.

(** [String(v)] *)
Fixpoint String_ (v : JsVal) : string :=
  match v with
  | JUndefined => "undefined"
  | JNull => "null"
  | JBool true => "true"
  | JBool false => "false"
  | JNum n => dec n
  | JStr s => s
  | JArr xs =>
      join "," (map (fun x => if nullish x then "" else String_ x) xs)
  | JObj _ => "[object Object]"
  end.

(* ================================================================== *)
(** ** TagClassifier *)

(** The body of the [for (const c of candidates)] loop. *)
Fixpoint first_tags (candidates : list JsVal) : list JsVal :=
  match candidates with
  | [] => []
  | c :: rest =>
      if isArray c then match c with JArr xs => xs | _ => [] end
      else if typeof_object c
           then match c with JObj props => Object_keys props | _ => [] end
           else first_tags rest
  end.

Definition probes (obj : JsVal) : list JsVal :=
  [ get obj "Tags"; get obj "TagSet"; get obj "TagList";
    get obj "ResourceTags"; get_opt (get obj "Tags") "TagSet" ].

Definition extractTags (obj : JsVal) : list JsVal :=
  if negb (truthy obj) then []
  else first_tags (filter truthy (probes obj)).

Definition hasNoTags (obj : JsVal) : bool :=
  (List.length (extractTags obj) =? 0)%nat.

(** The extraction rule in the words of the specification: take the first
    probe that is non-empty/non-null and look at that one candidate only. *)
Definition extractTags_as_specified (obj : JsVal) : list JsVal :=
  if negb (truthy obj) then []
  else match find truthy (probes obj) with
       | Some (JArr xs) => xs
       | Some (JObj props) => Object_keys props
       | _ => []
       end.

(* ================================================================== *)
(** ** Promises *)

Inductive JsError : Type :=
| TimeoutError (tag : string)      (* [new Error(`timeout:${tag}`)] *)
| TypeError                        (* raised by the language itself *)
| MissingCredentials               (* thrown by [exportCsvToCos] *)
| SdkError (err : JsVal).          (* whatever an SDK call rejects with *)

Inductive Outcome (A : Type) : Type :=
| Fulfilled (a : A)
| Rejected (e : JsError).
Arguments Fulfilled {A} a.
Arguments Rejected {A} e.

(** A promise is described by what becomes of it: it settles [t]
    milliseconds after its creation, or it stays pending for ever. *)
Inductive Promise (A : Type) : Type :=
| Settles (t : N) (o : Outcome A)
| Pending.
Arguments Settles {A} t o.
Arguments Pending {A}.

Definition resolve {A} (a : A) : Promise A := Settles 0%N (Fulfilled a).
Definition reject {A} (e : JsError) : Promise A :=
  Settles 0%N (Rejected e).

Definition delay {A} (t : N) (p : Promise A) : Promise A :=
  match p with
  | Settles t' o => Settles (t + t')%N o
  | Pending => Pending
  end.

(** [const a = await p; ... k a]: sequencing inside an [async] function. *)
Definition await {A B} (p : Promise A) (k : A -> Promise B) : Promise B :=
  match p with
  | Settles t (Fulfilled a) => delay t (k a)
  | Settles t (Rejected e) => Settles t (Rejected e)
  | Pending => Pending
  end.

Notation "'let*' x ':=' p 'in' k" := (await p (fun x => k))
  (at level 10, x name, p at level 100, k at level 200, only parsing).

Definition settles {A} (p : Promise A) : bool :=
  match p with Settles _ _ => true | Pending => false end.

(** [Promise.race([promise, timer])]: the promise wins when it settles
    strictly before the deadline, the timer otherwise. *)
Definition withTimeout {A} (promise : Promise A) (ms : N) (tag : string)
  : Promise A :=
  match promise with
  | Settles t o =>
      if (t <? ms)%N then Settles t o
      else Settles ms (Rejected (TimeoutError tag))
  | Pending => Settles ms (Rejected (TimeoutError tag))
  end.

(* ================================================================== *)
(** ** Execution controls *)

(** The process environment as the script reads it.  The four numeric
    controls hold what [parseInt(_, 10)] yields for the variable ([None]
    for [NaN]); an unset variable falls back to the default written in
    the destructuring. *)
Record Env : Type := {
  SCAN_REGIONS : option string;
  SCAN_SERVICES : option string;
  MAX_REGION_CONCURRENCY : option Z;
  SERVICE_TIMEOUT_MS : option Z;
  REQUEST_TIMEOUT_MS : option Z;
  MAX_PAGES_PER_LIST : option Z;
  (** [ENV_SECRET_ID && ENV_SECRET_KEY] *)
  has_credentials : bool
}.

(** [parseInt(v, 10) || d] *)
Definition or_default (v : option Z) (d : Z) : Z :=
  match v with
  | Some n => if (n =? 0)%Z then d else n
  | None => d
  end.

Definition parsedMaxRegionConc (env : Env) : nat :=
  Z.to_nat (Z.max 1 (or_default (MAX_REGION_CONCURRENCY env) 3)).
Definition parsedServiceTimeout (env : Env) : N :=
  Z.to_N (Z.max 2000 (or_default (SERVICE_TIMEOUT_MS env) 20000)).
Definition parsedRequestTimeout (env : Env) : N :=
  Z.to_N (Z.max 2000 (or_default (REQUEST_TIMEOUT_MS env) 15000)).
Definition parsedMaxPagesPerList (env : Env) : nat :=
  Z.to_nat (Z.max 1 (or_default (MAX_PAGES_PER_LIST env) 50)).

(* ================================================================== *)
(** ** PaginatedFetcher *)

(** What a page-fetch operation resolves with: [items] is [None] when the
    property is missing or falsy, so that [page.items || []] is [[]]. *)
Record Page : Type := { items : option (list JsVal) }.

Definition page_items (page : Page) : list JsVal :=
  match items page with Some xs => xs | None => [] end.

(** [{ [offsetKey]: offset, [limitKey]: pageSize }]; when both keys are
    the same name the later entry is the one the object keeps. *)
Definition page_request (offsetKey limitKey : string) (offset pageSize : Z)
  : JsVal :=
  if offsetKey =? limitKey then JObj [(limitKey, JNum pageSize)]
  else JObj [(offsetKey, JNum offset); (limitKey, JNum pageSize)].

(** A run of the pagination loop: the page requests issued, in order, and
    what the call came to; [None] when the loop is still going round after
    [fuel] iterations. *)
Record Fetch : Type := {
  requests : list JsVal;
  fetched : option (Promise (list JsVal))
}.

Definition after_page (req : JsVal) (t : N) (rest : Fetch) : Fetch :=
  {| requests := req :: requests rest;
     fetched := option_map (delay t) (fetched rest) |}.

(** The declaration of [pagedFetch] that is in effect: the only one of
    [index.js], and the later of the two in the full script, where it
    replaces the timeout-aware one above it. *)
Fixpoint pagedFetch_loop (fuel : nat) (fetchPage : JsVal -> Promise Page)
    (pageSize : Z) (offsetKey limitKey : string)
    (offset : Z) (all : list JsVal) : Fetch :=
  match fuel with
  | O => {| requests := []; fetched := None |}
  | S fuel' =>
      let req := page_request offsetKey limitKey offset pageSize in
      match fetchPage req with
      | Pending => {| requests := [req]; fetched := Some Pending |}
      | Settles t (Rejected e) =>
          {| requests := [req]; fetched := Some (Settles t (Rejected e)) |}
      | Settles t (Fulfilled page) =>
          let items := page_items page in
          let all := all ++ items in
          if (Z.of_nat (List.length items) <? pageSize)%Z
          then {| requests := [req];
                  fetched := Some (Settles t (Fulfilled all)) |}
          else after_page req t
                 (pagedFetch_loop fuel' fetchPage pageSize offsetKey limitKey
                    (offset + pageSize)%Z all)
      end
  end.

Definition pagedFetch_with (fuel : nat) (fetchPage : JsVal -> Promise Page)
    (pageSize startOffset : Z) (offsetKey limitKey : string) : Fetch :=
  pagedFetch_loop fuel fetchPage pageSize offsetKey limitKey startOffset [].

(** The call with every default parameter, as all scanner units make it. *)
Definition pagedFetch (fuel : nat) (fetchPage : JsVal -> Promise Page)
  : Fetch :=
  pagedFetch_with fuel fetchPage 100 0 "Offset" "Limit".

(** The earlier declaration of the full script, which the later one
    replaces: each page under [withTimeout], and a cap on the pages. *)
Module Shadowed.

Fixpoint pagedFetch_loop (env : Env) (fuel : nat)
    (fetchPage : JsVal -> Promise Page)
    (pageSize : Z) (offsetKey limitKey : string)
    (offset : Z) (all : list JsVal) (pages : nat) : Fetch :=
  match fuel with
  | O => {| requests := []; fetched := None |}
  | S fuel' =>
      let req := page_request offsetKey limitKey offset pageSize in
      match withTimeout (fetchPage req) (parsedRequestTimeout env) "page" with
      | Pending => {| requests := [req]; fetched := Some Pending |}
      | Settles t (Rejected e) =>
          {| requests := [req]; fetched := Some (Settles t (Rejected e)) |}
      | Settles t (Fulfilled page) =>
          let items := page_items page in
          let all := all ++ items in
          let pages := S pages in
          if (Z.of_nat (List.length items) <? pageSize)%Z
          then {| requests := [req];
                  fetched := Some (Settles t (Fulfilled all)) |}
          else if (parsedMaxPagesPerList env <=? pages)%nat
          then {| requests := [req];
                  fetched := Some (Settles t (Fulfilled all)) |}
          else after_page req t
                 (pagedFetch_loop env fuel' fetchPage pageSize
                    offsetKey limitKey (offset + pageSize)%Z all pages)
      end
  end.

Definition pagedFetch_with (env : Env) (fuel : nat)
    (fetchPage : JsVal -> Promise Page)
    (pageSize startOffset : Z) (offsetKey limitKey : string) : Fetch :=
  pagedFetch_loop env fuel fetchPage pageSize offsetKey limitKey
    startOffset [] 0.

End Shadowed.

(** A backend that serves a fixed sequence: the slice of [backing] that
    starts at the requested offset and has at most [Limit] items. *)
Definition num_of (v : JsVal) : Z :=
  match v with JNum n => n | _ => 0%Z end.

Definition backed_by (backing : list JsVal) (req : JsVal) : Promise Page :=
  let offset := Z.to_nat (num_of (get req "Offset")) in
  let limit := Z.to_nat (num_of (get req "Limit")) in
  resolve {| items := Some (firstn limit (skipn offset backing)) |}.

(** A backend whose every page is full, whatever the offset. *)
Definition always_full (req : JsVal) : Promise Page :=
  let limit := Z.to_nat (num_of (get req "Limit")) in
  resolve {| items := Some (repeat JNull limit) |}.

(* ================================================================== *)
(** ** Strings of the configuration *)

(** A string is a sequence of UTF-16 code units, of which the model holds
    those below 256: ASCII and the Latin-1 supplement.  Of the white space
    and the line terminators that [trim] removes these are tab, line feed,
    vertical tab, form feed, carriage return, space and the no-break space
    U+00A0. *)
Definition is_space (c : ascii) : bool :=
  let n := nat_of_ascii c in
  ((9 <=? n) && (n <=? 13) || (n =? 32) || (n =? 160))%nat.

Fixpoint trimStart (s : string) : string :=
  match s with
  | String c rest => if is_space c then trimStart rest else s
  | EmptyString => EmptyString
  end.

(** Drops trailing whitespace: a character stays when it is not a space
    or when something is left after it. *)
Fixpoint trimEnd (s : string) : string :=
  match s with
  | EmptyString => EmptyString
  | String c rest =>
      match trimEnd rest with
      | EmptyString => if is_space c then EmptyString else String c EmptyString
      | kept => String c kept
      end
  end.

Definition trim (s : string) : string := trimEnd (trimStart s).

(** [s.split(sep)] for a one-character separator: never an empty list. *)
Fixpoint split (sep : ascii) (s : string) : list string :=
  match s with
  | EmptyString => [EmptyString]
  | String c rest =>
      if Ascii.eqb c sep then EmptyString :: split sep rest
      else match split sep rest with
           | piece :: pieces => String c piece :: pieces
           | [] => [String c EmptyString]
           end
  end.

Definition nonempty (s : string) : bool := negb (s =? "").

(** [s.split(",").map(s => s.trim()).filter(Boolean)] *)
Definition comma_list (s : string) : list string :=
  filter nonempty (map trim (split "," s)).

(** The lower-case form of a code unit below 256: the capitals of ASCII
    and those of the Latin-1 supplement (U+00C0 to U+00DE, but for the
    multiplication sign U+00D7) stand 32 below their lower-case forms. *)
Definition lower_char (c : ascii) : ascii :=
  let n := nat_of_ascii c in
  if ((65 <=? n) && (n <=? 90)
      || (192 <=? n) && (n <=? 222) && negb (n =? 215))%nat
  then ascii_of_nat (n + 32) else c.

(** [s.toLowerCase()] *)
Fixpoint toLowerCase (s : string) : string :=
  match s with
  | EmptyString => EmptyString
  | String c rest => String (lower_char c) (toLowerCase rest)
  end.

(** [a === b] and the [SameValueZero] of [Set], which agree on the values
    modelled: primitives compare by value, and two arrays or objects of a
    parsed document are never the same object. *)
Definition strict_eq (a b : JsVal) : bool :=
  match a, b with
  | JUndefined, JUndefined => true
  | JNull, JNull => true
  | JBool x, JBool y => Bool.eqb x y
  | JNum x, JNum y => (x =? y)%Z
  | JStr x, JStr y => (x =? y)
  | _, _ => false
  end.

(** [Array.from(new Set(xs))]: first occurrences, in order. *)
Fixpoint dedupe_from (seen : list JsVal) (xs : list JsVal) : list JsVal :=
  match xs with
  | [] => []
  | x :: rest =>
      if existsb (strict_eq x) seen then dedupe_from seen rest
      else x :: dedupe_from (x :: seen) rest
  end.

Definition dedupe (xs : list JsVal) : list JsVal := dedupe_from [] xs.

(* ================================================================== *)
(** ** The world outside the script *)

(** A Node-style callback [(err, data) => ...]: invoked after [t]
    milliseconds, or never. *)
Inductive Reply (A : Type) : Type :=
| Calls (t : N) (err : JsVal) (data : A)
| Silent.
Arguments Calls {A} t err data.
Arguments Silent {A}.

(** [new Promise((resolve, reject) =>
       call((err, data) => (err ? reject(err) : resolve(data))))] *)
Definition promisify {A} (r : Reply A) : Promise A :=
  match r with
  | Calls t err data =>
      if truthy err then Settles t (Rejected (SdkError err))
      else Settles t (Fulfilled data)
  | Silent => Pending
  end.

(** A listing response with its two alternative result fields; a field is
    [None] when it is missing or falsy. *)
Record Listing : Type := {
  primary : option (list JsVal);
  secondary : option (list JsVal)
}.

(** [res.A || res.B || []] *)
Definition listed (res : Listing) : list JsVal :=
  match primary res, secondary res with
  | Some xs, _ => xs
  | None, Some ys => ys
  | None, None => []
  end.

(** What [cos.getService] hands over as [data], when that is not nullish:
    [Buckets] is [None] when the property is missing or falsy, so that
    [d.Buckets || []] is [[]], and the array of bucket descriptors the SDK
    builds otherwise.  An entry of the array is whatever the document
    holds at that place. *)
Record Service : Type := { Buckets : option (list JsVal) }.

(** Everything the script obtains from its environment: the variables,
    the host's string collation, and what each SDK call comes to.  A
    client that cannot be constructed is a call that rejects.  The scanner
    units other than the two account-global ones are bindings of one
    listing call each; the orchestrator sees of them only the promise
    their invocation returns, which is taken from the world, so that what
    is proved holds whatever those units do. *)
Record World : Type := {
  env : Env;
  localeCompare : string -> string -> comparison;
  (** [client.DescribeRegions({})] on the control-plane client *)
  DescribeRegions : Promise JsVal;
  (** [client.DescribeCcns({ Offset, Limit })] in a region *)
  DescribeCcns : JsVal -> JsVal -> Promise Listing;
  (** [client.DescribePrivateZoneList({ Offset, Limit })] in a region *)
  DescribePrivateZoneList : JsVal -> JsVal -> Promise Listing;
  (** the promise returned by any other scanner unit, by key and region *)
  other_unit : string -> JsVal -> Promise (list JsVal);
  (** iterations granted to one pagination loop; a listing that is still
      going round after that many pages never settles *)
  page_budget : nat;
  (** [cos.getService({}, cb)]; [data] is [None] when it is nullish *)
  getService : Reply (option Service);
  (** [cos.getBucketTagging({ Bucket, Region }, cb)] *)
  getBucketTagging : JsVal -> JsVal -> Reply JsVal;
  (** [cos.putObject({ ..., Body }, cb)], by the CSV text *)
  putObject : string -> Reply JsVal
}.

Definition of_outcome {A} (o : Outcome A) : Promise A := Settles 0%N o.

(** [await pagedFetch(fetchPage)] inside a scanner unit. *)
Definition listing (w : World) (fetchPage : JsVal -> Promise Page)
  : Promise (list JsVal) :=
  match fetched (pagedFetch (page_budget w) fetchPage) with
  | Some p => p
  | None => Pending
  end.

(** [xs.map(mk)] where [mk] reads a property of its argument. *)
Definition map_reading (mk : JsVal -> JsVal) (xs : list JsVal)
  : Promise (list JsVal) :=
  if existsb nullish xs then reject TypeError else resolve (map mk xs).

(* ================================================================== *)
(** ** RegionResolver *)

(** What a call of [listAllRegions] amounts to: how many describe-regions
    requests it issued and the promise it returned. *)
Record Resolution : Type := {
  describe_calls : nat;
  resolved : Promise (list JsVal)
}.

(** [(res.RegionSet || []).map((r) => r.Region).filter(Boolean)], then
    [Array.from(new Set(regs))]. *)
Definition region_codes (res : JsVal) : Outcome (list JsVal) :=
  if nullish res then Rejected TypeError
  else match or_else (get res "RegionSet") (JArr []) with
       | JArr rs =>
           if existsb nullish rs then Rejected TypeError
           else Fulfilled
                  (dedupe (filter truthy (map (fun r => get r "Region") rs)))
       | _ => Rejected TypeError
       end.

(** [SCAN_REGIONS && SCAN_REGIONS.trim()] *)
Definition override (e : Env) : option string :=
  match SCAN_REGIONS e with
  | Some s => if nonempty s && nonempty (trim s) then Some s else None
  | None => None
  end.

(* ================================================================== *)
(** ** Scanner registry: what the two files share *)

Definition home_region : JsVal := JStr "eu-frankfurt".

(** The characters of a string, as [for (const it of s)] yields them. *)
Fixpoint chars (s : string) : list JsVal :=
  match s with
  | EmptyString => []
  | String c rest => JStr (String c EmptyString) :: chars rest
  end.

(** [scan[key]()] when [key] is not a unit but a member the object
    literal inherits: [toString] answers with a string, whose characters
    the caller then iterates; calling any other member, or iterating what
    it returns, raises. *)
Definition inherited (key : string) : option (Promise (list JsVal)) :=
  if key =? "toString" then Some (resolve (chars "[object Undefined]"))
  else if existsb (String.eqb key)
            [ "constructor"; "__defineGetter__"; "__defineSetter__";
              "hasOwnProperty"; "__lookupGetter__"; "__lookupSetter__";
              "isPrototypeOf"; "propertyIsEnumerable"; "valueOf";
              "__proto__"; "toLocaleString" ]
       then Some (reject TypeError)
       else None.

Definition is_unit (names : list string) (key : string) : bool :=
  existsb (String.eqb key) names.

(* ================================================================== *)
(** ** Claim-cursor worker pools *)

(** Both pools of the script have one shape: a shared cursor over a work
    list, and workers that loop [while (i < xs.length) { x = xs[i++]; ... }]
    around an [await].  Between two awaits a worker runs alone, so a run
    of the pool is an interleaving of the steps below: a worker at its
    loop head tests the cursor and either claims the next item, starting
    its jobs, or leaves; a pending job settles and applies its effect to
    the shared accumulator; a worker whose jobs have all settled goes
    back to its loop head. *)
Section Pool.

Context {Item Job Acc : Type}.
Variable work : list Item.
(** the jobs a worker starts for the item it claimed *)
Variable spawn : Item -> list Job.
(** the effect of a job once it settles; [None] when it never does *)
Variable settle : Job -> option (Acc -> Acc).

Inductive Worker : Type :=
| AtLoopHead
| Awaiting (jobs : list Job)
| Exited.

(** [claims] is a history of the claims made so far (worker, index, item);
    the script keeps no such record. *)
Record Pool : Type := {
  cursor : nat;
  claims : list (nat * nat * Item);
  acc : Acc;
  workers : list Worker
}.

Fixpoint set_nth {A} (n : nat) (x : A) (l : list A) : list A :=
  match l, n with
  | [], _ => []
  | _ :: rest, O => x :: rest
  | y :: rest, S n' => y :: set_nth n' x rest
  end.

Fixpoint drop_nth {A} (n : nat) (l : list A) : list A :=
  match l, n with
  | [], _ => []
  | _ :: rest, O => rest
  | y :: rest, S n' => y :: drop_nth n' rest
  end.

(** One step of worker [fst c]; [snd c] picks the job that settles. *)
Definition pool_step (c : nat * nat) (p : Pool) : option Pool :=
  let (w, j) := c in
  match nth_error (workers p) w with
  | Some AtLoopHead =>
      match nth_error work (cursor p) with
      | Some x =>
          Some {| cursor := S (cursor p);
                  claims := claims p ++ [(w, cursor p, x)];
                  acc := acc p;
                  workers := set_nth w (Awaiting (spawn x)) (workers p) |}
      | None =>
          Some {| cursor := cursor p; claims := claims p; acc := acc p;
                  workers := set_nth w Exited (workers p) |}
      end
  | Some (Awaiting []) =>
      Some {| cursor := cursor p; claims := claims p; acc := acc p;
              workers := set_nth w AtLoopHead (workers p) |}
  | Some (Awaiting jobs) =>
      match nth_error jobs j with
      | Some job =>
          match settle job with
          | Some effect =>
              Some {| cursor := cursor p; claims := claims p;
                      acc := effect (acc p);
                      workers :=
                        set_nth w (Awaiting (drop_nth j jobs)) (workers p) |}
          | None => None
          end
      | None => None
      end
  | Some Exited | None => None
  end.

Inductive reaches (p : Pool) : Pool -> Prop :=
| reaches_refl : reaches p p
| reaches_step q c r :
    reaches p q -> pool_step c q = Some r -> reaches p r.

Fixpoint first_settling (jobs : list Job) (j : nat) : option nat :=
  match jobs with
  | [] => None
  | job :: rest =>
      match settle job with
      | Some _ => Some j
      | None => first_settling rest (S j)
      end
  end.

(** Some step that can be taken, if there is one. *)
Fixpoint find_ready (ws : list Worker) (w : nat) : option (nat * nat) :=
  match ws with
  | [] => None
  | AtLoopHead :: _ => Some (w, 0)
  | Awaiting [] :: _ => Some (w, 0)
  | Awaiting jobs :: rest =>
      match first_settling jobs 0 with
      | Some j => Some (w, j)
      | None => find_ready rest (S w)
      end
  | Exited :: rest => find_ready rest (S w)
  end.

Definition next_choice (p : Pool) : option (nat * nat) :=
  find_ready (workers p) 0.

(** A run under a scheduler: the scheduler's choice is followed when it
    is a step that can be taken, any ready step is taken otherwise, and
    the run ends when nothing can move. *)
Fixpoint run_pool (fuel : nat) (sched : Pool -> nat * nat) (p : Pool)
  : Pool :=
  match fuel with
  | O => p
  | S fuel' =>
      match pool_step (sched p) p with
      | Some q => run_pool fuel' sched q
      | None =>
          match next_choice p with
          | Some c =>
              match pool_step c p with
              | Some q => run_pool fuel' sched q
              | None => p
              end
          | None => p
          end
      end
  end.

Definition weight (x : Worker) : nat :=
  match x with
  | AtLoopHead => 1
  | Awaiting jobs => 2 + List.length jobs
  | Exited => 0
  end.

(** A bound on the steps a pool can still take. *)
Definition steps_left (p : Pool) : nat :=
  list_sum (map (fun x => 2 + List.length (spawn x))
                (skipn (cursor p) work))
  + list_sum (map weight (workers p)).

Definition is_exited (x : Worker) : bool :=
  match x with Exited => true | _ => false end.

Definition all_exited (p : Pool) : bool := forallb is_exited (workers p).

(** [Array.from({ length: Math.min(concurrency, xs.length) },
                () => worker())] *)
Definition start_pool (concurrency : nat) (acc0 : Acc) : Pool :=
  {| cursor := 0; claims := []; acc := acc0;
     workers := repeat AtLoopHead (Nat.min concurrency (List.length work)) |}.

(** [await Promise.all(workers)]: the accumulator once every worker has
    left; a pool in which a job never settles stays pending. *)
Definition pool_outcome (concurrency : nat) (acc0 : Acc)
    (sched : Pool -> nat * nat) : Pool :=
  let p := start_pool concurrency acc0 in
  run_pool (steps_left p) sched p.

End Pool.

Arguments AtLoopHead {Job}.
Arguments Exited {Job}.

(* ================================================================== *)
(** ** Records, aggregation and export *)

Record ScanRecord : Type := {
  service : JsVal;
  id : JsVal;
  region : JsVal
}.

(** The two run-wide variables of [main_handler]. *)
Record Tally : Type := {
  outputs : list ScanRecord;
  untaggedCount : nat
}.

Definition empty_tally : Tally := {| outputs := []; untaggedCount := 0 |}.

(** [for (const it of items) { outputs.push(stamp(it)); untaggedCount++; }]
    where [stamp] reads properties of [it]: a nullish item raises and
    ends the loop, what was pushed before it stays. *)
Fixpoint push_all (stamp : JsVal -> ScanRecord) (items : list JsVal)
    (t : Tally) : Tally :=
  match items with
  | [] => t
  | it :: rest =>
      if nullish it then t
      else push_all stamp rest
             {| outputs := outputs t ++ [stamp it];
                untaggedCount := S (untaggedCount t) |}
  end.

(** The comparator handed to [sort]. *)
Definition compareRecords (lc : string -> string -> comparison)
    (a b : ScanRecord) : comparison :=
  match lc (String_ (region a)) (String_ (region b)) with
  | Eq =>
      match lc (String_ (service a)) (String_ (service b)) with
      | Eq => lc (String_ (id a)) (String_ (id b))
      | s => s
      end
  | r => r
  end.

(** [Array.prototype.sort] is a stable sort; with the comparator of the
    script its result is the one stable insertion computes. *)
Fixpoint insert_sorted {A} (cmp : A -> A -> comparison) (x : A)
    (l : list A) : list A :=
  match l with
  | [] => [x]
  | y :: rest =>
      match cmp x y with
      | Gt => y :: insert_sorted cmp x rest
      | _ => x :: l
      end
  end.

Fixpoint sort {A} (cmp : A -> A -> comparison) (l : list A) : list A :=
  match l with
  | [] => []
  | x :: rest => insert_sorted cmp x (sort cmp rest)
  end.

Definition sortedOutputs (w : World) (out : list ScanRecord)
  : list ScanRecord :=
  sort (compareRecords (localeCompare w)) out.

Definition nl : string := String (ascii_of_nat 10) EmptyString.
Definition dq : string := String (ascii_of_nat 34) EmptyString.

(** [`${i.region},${i.service},${i.id}`] *)
Definition csv_line (i : ScanRecord) : string :=
  (String_ (region i) ++ "," ++ String_ (service i) ++ "," ++ String_ (id i))
    %string.

Definition csv_text (items : list ScanRecord) : string :=
  let header := ("region,service,id" ++ nl)%string in
  let lines := join nl (map csv_line items) in
  (header ++ lines ++ (if nonempty lines then nl else ""))%string.

(** A call of [exportCsvToCos]: the items it was handed, the text of the
    [Body] it put, when it came to putting an object, and the promise it
    returned. *)
Record Export : Type := {
  exported_items : list ScanRecord;
  put_body : option string;
  export_promise : Promise unit
}.

Definition exportCsvToCos (w : World) (items : list ScanRecord) : Export :=
  if negb (has_credentials (env w))
  then {| exported_items := items; put_body := None;
          export_promise := reject MissingCredentials |}
  else
    let csv := csv_text items in
    {| exported_items := items; put_body := Some csv;
       export_promise :=
         let* _ := promisify (putObject w csv) in resolve tt |}.

(** [JSON.stringify({ scannedRegions, untaggedCount })] *)
Definition summary (scannedRegions untagged : nat) : string :=
  ("{" ++ dq ++ "scannedRegions" ++ dq ++ ":" ++ dec (Z.of_nat scannedRegions)
   ++ "," ++ dq ++ "untaggedCount" ++ dq ++ ":" ++ dec (Z.of_nat untagged)
   ++ "}")%string.

(** What a call of [main_handler] comes to.  A return carries, next to
    the response, what its call of the exporter was handed and what that
    call put. *)
Record Report : Type := {
  statusCode : Z;
  body : string;
  handed_to_exporter : list ScanRecord;
  csv_put : option string
}.

Inductive Run : Type :=
| Returns (r : Report)
| Raises (e : JsError)
| Hangs.

(* ================================================================== *)
(** ** GlobalResourceScanner *)

Definition no_tagging : JsVal := JObj [("TagSet", JArr [])].

(** The promise built around [cos.getBucketTagging]. *)
Definition bucketTagging (r : Reply JsVal) : Promise JsVal :=
  match r with
  | Calls t err data =>
      if truthy err then
        if strict_eq (get_opt err "statusCode") (JNum 404)
           || (toLowerCase
                 (String_ (or_else (get_opt err "errorCode") (JStr "")))
               =? "nosuchtagset")
        then Settles t (Fulfilled no_tagging)
        else Settles t (Rejected (SdkError err))
      else Settles t (Fulfilled (or_else data no_tagging))
  | Silent => Pending
  end.

Definition normalizeCosTagSet (data : JsVal) : JsVal :=
  let maybe :=
    or_else (get_opt data "TagSet")
      (or_else (get_opt (get_opt data "Tags") "Tag")
         (or_else (get_opt data "Tags") (JArr []))) in
  if isArray maybe then maybe else JArr [].

(** What the workers of [scanCOS] share: [results], and whether one of
    them has raised, which rejects the [Promise.all] that [scanCOS]
    awaits. *)
Record CosState : Type := {
  results : list ScanRecord;
  raised : bool
}.

Definition no_results : CosState := {| results := []; raised := false |}.

(** The body of the loop of [worker] for one entry [b] of [buckets]: what
    it does to the shared state once it is through.  Reading [b.Name] of a
    nullish entry raises, before the [try], and the worker is rejected;
    otherwise the tagging call is awaited inside the [try], and [stamp] is
    the record pushed for an untagged bucket. *)
Definition bucket_job (w : World) (stamp : JsVal -> ScanRecord) (b : JsVal)
  : option (CosState -> CosState) :=
  if nullish b
  then Some (fun st => {| results := results st; raised := true |})
  else
    let bucket := get b "Name" in
    let region := get b "Location" in
    match bucketTagging (getBucketTagging w bucket region) with
    | Settles _ (Fulfilled tagsRes) =>
        let tagSet := normalizeCosTagSet tagsRes in
        if hasNoTags (JObj [("TagSet", tagSet)])
        then Some (fun st => {| results := results st ++ [stamp b];
                                raised := raised st |})
        else Some (fun st => st)
    | Settles _ (Rejected _) => Some (fun st => st)
    | Pending => None
    end.

Definition Scheduler (Item Job Acc : Type) : Type :=
  @Pool Item Job Acc -> nat * nat.

(** One step of one [worker] of [scanCOS]: each bucket claimed is one
    job, the tagging call and what follows it. *)
Definition worker (w : World) (stamp : JsVal -> ScanRecord)
    (buckets : list JsVal)
  : nat * nat -> Pool -> option Pool :=
  pool_step buckets (fun b => [b]) (bucket_job w stamp).

(** [d.Buckets || []] *)
Definition buckets_of (d : Service) : list JsVal :=
  match Buckets d with Some bs => bs | None => [] end.

(** [scanCOS]: reading [d.Buckets] of a nullish [d] raises; a worker that
    raises rejects the whole scan, whatever the other workers do; without
    that the scan resolves with [results] once every worker has left. *)
Definition scanCOS_with (stamp : JsVal -> ScanRecord) (w : World)
    (sched : Scheduler JsVal JsVal CosState)
  : Promise (list ScanRecord) :=
  if negb (has_credentials (env w)) then resolve []
  else
    let* d := promisify (getService w) in
    match d with
    | None => reject TypeError
    | Some d =>
        let buckets := buckets_of d in
        let concurrency := 5 in
        let p := pool_outcome buckets (fun b => [b]) (bucket_job w stamp)
                   concurrency no_results sched in
        if raised (acc p) then reject TypeError
        else if all_exited p then resolve (results (acc p)) else Pending
    end.

(** [for (const it of cosItems) { outputs.push({...}); untaggedCount++; }] *)
Fixpoint push_cos (cosItems : list ScanRecord) (t : Tally) : Tally :=
  match cosItems with
  | [] => t
  | it :: rest =>
      push_cos rest
        {| outputs := outputs t ++ [ {| service := service it;
                                        id := id it;
                                        region := region it |} ];
           untaggedCount := S (untaggedCount t) |}
  end.

(* ================================================================== *)
(** ** Entry point *)

(** A job of the region pool: one scanner key for one claimed region. *)
Definition RegionJob : Type := (JsVal * string)%type.

(** The interleaving of a run: one scheduler for each pool. *)
Record Schedulers : Type := {
  region_sched : Scheduler JsVal RegionJob Tally;
  cos_sched : Scheduler JsVal JsVal CosState
}.

(** [const tasks = regionServices.map(async (svcName) => ...)]: one job
    for each scanner key, started when the region is claimed. *)
Definition tasks (regionServices : list string) (region : JsVal)
  : list RegionJob :=
  map (pair region) regionServices.

(** What a job of the region pool does when it settles, given the task
    of a key in a region. *)
Definition settle_task (task : JsVal -> string -> option (Tally -> Tally))
    (job : RegionJob) : option (Tally -> Tally) :=
  task (fst job) (snd job).

(** One step of one [regionWorker]: the claim of the next region at the
    loop head, a task that settles, or the return to the loop head once
    [Promise.all(tasks)] is through. *)
Definition regionWorker (regions : list JsVal) (regionServices : list string)
    (task : JsVal -> string -> option (Tally -> Tally))
  : nat * nat -> Pool -> option Pool :=
  pool_step regions (tasks regionServices) (settle_task task).

(** The body of [main_handler], which the two files share but for the
    resolver, the number of region workers, the scanner keys run, the
    task run for a key in a region and the COS scanner. *)
Definition handler_body (w : World)
    (listed_regions : Promise (list JsVal))
    (maxRegionConcurrency : nat)
    (regionServices : list string)
    (task : JsVal -> string -> option (Tally -> Tally))
    (scanCOS : Scheduler JsVal JsVal CosState
               -> Promise (list ScanRecord))
    (s : Schedulers) : Run :=
  match listed_regions with
  | Pending => Hangs
  | Settles _ (Rejected e) => Raises e
  | Settles _ (Fulfilled regions) =>
      let p := pool_outcome regions
                 (tasks regionServices) (settle_task task)
                 maxRegionConcurrency empty_tally (region_sched s) in
      if negb (all_exited p) then Hangs
      else
        let scanned :=
          match scanCOS (cos_sched s) with
          | Settles _ (Fulfilled cosItems) => Some (push_cos cosItems (acc p))
          | Settles _ (Rejected _) => Some (acc p)
          | Pending => None
          end in
        match scanned with
        | None => Hangs
        | Some t =>
            let sorted := sortedOutputs w (outputs t) in
            let export := exportCsvToCos w sorted in
            match export_promise export with
            | Settles _ _ =>
                Returns {| statusCode := 200;
                           body := summary (List.length regions)
                                     (untaggedCount t);
                           handed_to_exporter := exported_items export;
                           csv_put := put_body export |}
            | Pending => Hangs
            end
        end
  end.

(** *** [index.js] *)
Module Index.

Definition listAllRegions (w : World) : Resolution :=
  {| describe_calls := 1;
     resolved := let* res := DescribeRegions w in
                 of_outcome (region_codes res) |}.

(** CCN is global: reported once, from the Frankfurt region. *)
Definition CCN (w : World) (region : JsVal) : Promise (list JsVal) :=
  if negb (strict_eq region home_region) then resolve []
  else
    let* items := listing w (fun req =>
                    let* res := DescribeCcns w region req in
                    resolve {| items := Some (listed res) |}) in
    map_reading (fun x => JObj [("service", JStr "CCN");
                                ("id", get x "CcnId")])
                (filter hasNoTags items).

Definition unit_names : list string :=
  [ "CVM"; "CBS"; "CLB"; "SCF"; "TKE"; "TCR"; "BANDWIDTH_PACK"; "VPN";
    "CCN"; "NAT_GATEWAY"; "EIP"; "LIGHTHOUSE"; "CLS"; "ANTIDDOS";
    "TDMQ_CKAFKA"; "TDMQ_ROCKETMQ"; "TDMQ_RABBITMQ"; "TDMQ_PULSAR";
    "CLOUD_FIREWALL"; "MYSQL"; "MSSQL"; "POSTGRES"; "TDSQL"; "CYNOSDB";
    "REDIS"; "MONGODB"; "EMR"; "ELASTICSEARCH" ].

(** [scannersForRegion(region)[key]], called. *)
Definition scannersForRegion (w : World) (region : JsVal) (key : string)
  : option (Promise (list JsVal)) :=
  if key =? "CCN" then Some (CCN w region)
  else if is_unit unit_names key then Some (other_unit w key region)
  else inherited key.

Definition regionServices : list string :=
  [ "CVM"; "CBS"; "CLB"; "SCF"; "TKE"; "TKE_SERVERLESS"; "TCR";
    "BANDWIDTH_PACK"; "VPN"; "CCN"; "NAT_GATEWAY"; "EIP"; "LIGHTHOUSE";
    "CLS"; "ANTIDDOS"; "TDMQ_CKAFKA"; "TDMQ_ROCKETMQ"; "TDMQ_RABBITMQ";
    "TDMQ_PULSAR"; "CLOUD_FIREWALL"; "MYSQL"; "MSSQL"; "POSTGRES"; "TDSQL";
    "CYNOSDB"; "REDIS"; "MONGODB"; "EMR"; "ELASTICSEARCH" ].

(** [{ service: it.service, id: it.id, region }] *)
Definition stamp (region : JsVal) (it : JsVal) : ScanRecord :=
  {| service := get it "service"; id := get it "id"; region := region |}.

(** One element of [tasks] in [regionWorker]. *)
Definition task (w : World) (region : JsVal) (svcName : string)
  : option (Tally -> Tally) :=
  match scannersForRegion w region svcName with
  | None => Some (fun t => t)
  | Some fn =>
      match fn with
      | Settles _ (Fulfilled items) => Some (push_all (stamp region) items)
      | Settles _ (Rejected _) => Some (fun t => t)
      | Pending => None
      end
  end.

(** [{ service: "COS", id: bucket, region }] *)
Definition cos_record (b : JsVal) : ScanRecord :=
  {| service := JStr "COS"; id := get b "Name";
     region := get b "Location" |}.

Definition scanCOS : World -> Scheduler JsVal JsVal CosState
                     -> Promise (list ScanRecord) :=
  scanCOS_with cos_record.

Definition main_handler (w : World) (s : Schedulers) : Run :=
  handler_body w (resolved (listAllRegions w)) 3 regionServices
    (task w) (scanCOS w) s.

End Index.

(** *** The full scanner script *)
Module Scan.

Definition listAllRegions (w : World) : Resolution :=
  match override (env w) with
  | Some s =>
      {| describe_calls := 0;
         resolved := resolve (map JStr (comma_list s)) |}
  | None =>
      {| describe_calls := 1;
         resolved :=
           let* res := withTimeout (DescribeRegions w)
                         (parsedRequestTimeout (env w)) "DescribeRegions" in
           of_outcome (region_codes res) |}
  end.

(** The resolver in the words of the specification: the override is
    split, trimmed and deduplicated. *)
Definition listAllRegions_as_specified (w : World) : Resolution :=
  match override (env w) with
  | Some s =>
      {| describe_calls := 0;
         resolved := resolve (dedupe (map JStr (comma_list s))) |}
  | None => listAllRegions w
  end.

(** CCN is global: emitted once, with region ["global"]. *)
Definition CCN (w : World) (region : JsVal) : Promise (list JsVal) :=
  if negb (strict_eq region home_region) then resolve []
  else
    let* items := listing w (fun req =>
                    let* res := DescribeCcns w region req in
                    resolve {| items := Some (listed res) |}) in
    map_reading (fun x => JObj [("service", JStr "CCN");
                                ("id", get x "CcnId");
                                ("region", JStr "global")])
                (filter hasNoTags items).

Definition PRIVATE_DNS (w : World) (region : JsVal) : Promise (list JsVal) :=
  if negb (strict_eq region home_region) then resolve []
  else
    let* items := listing w (fun req =>
                    let* res := DescribePrivateZoneList w region req in
                    resolve {| items := Some (listed res) |}) in
    map_reading (fun x => JObj [("service", JStr "PRIVATE_DNS");
                                ("id", or_else (get x "ZoneId")
                                               (get x "ZoneName"));
                                ("region", JStr "global")])
                (filter hasNoTags items).

Definition unit_names : list string :=
  [ "CVM"; "CBS"; "CLB"; "SCF"; "TKE"; "TCR"; "BANDWIDTH_PACK"; "VPN";
    "CCN"; "NAT_GATEWAY"; "EIP"; "LIGHTHOUSE"; "CLS"; "ANTIDDOS";
    "TDMQ_CKAFKA"; "TDMQ_ROCKETMQ"; "TDMQ_RABBITMQ"; "TDMQ_PULSAR";
    "CLOUD_FIREWALL"; "MYSQL"; "MSSQL"; "POSTGRES"; "TDSQL"; "CYNOSDB";
    "REDIS"; "MONGODB"; "TEM"; "PRIVATE_DNS"; "ADP"; "CSS_DOMAINS";
    "GAAP_GROUP"; "CTSDB"; "TENDIS"; "VECTORDB"; "DLC"; "TCHOUSE_C";
    "TCHOUSE_P"; "TCHOUSE_D"; "KMS_KEYS"; "SSM_SECRETS"; "CAPTCHA";
    "TIONE"; "SES"; "WEDATA"; "EMR"; "ELASTICSEARCH" ].

Definition scannersForRegion (w : World) (region : JsVal) (key : string)
  : option (Promise (list JsVal)) :=
  if key =? "CCN" then Some (CCN w region)
  else if key =? "PRIVATE_DNS" then Some (PRIVATE_DNS w region)
  else if is_unit unit_names key then Some (other_unit w key region)
  else inherited key.

Definition allRegionServices : list string :=
  [ "CVM"; "CBS"; "CLB"; "SCF"; "TKE"; "TKE_SERVERLESS"; "TCR";
    "BANDWIDTH_PACK"; "VPN"; "CCN"; "NAT_GATEWAY"; "EIP"; "LIGHTHOUSE";
    "CLS"; "ANTIDDOS"; "TDMQ_CKAFKA"; "TDMQ_ROCKETMQ"; "TDMQ_RABBITMQ";
    "TDMQ_PULSAR"; "CLOUD_FIREWALL"; "MYSQL"; "MSSQL"; "POSTGRES"; "TDSQL";
    "CYNOSDB"; "REDIS"; "MONGODB"; "TEM"; "PRIVATE_DNS"; "ADP";
    "CSS_DOMAINS"; "GAAP_GROUP"; "CTSDB"; "TENDIS"; "VECTORDB"; "DLC";
    "TCHOUSE_C"; "TCHOUSE_P"; "TCHOUSE_D"; "KMS_KEYS"; "SSM_SECRETS";
    "CAPTCHA"; "TIONE"; "SES"; "WEDATA"; "EMR"; "ELASTICSEARCH" ].

(** [(SCAN_SERVICES && SCAN_SERVICES.trim()) ? ... : allRegionServices] *)
Definition regionServices (w : World) : list string :=
  match SCAN_SERVICES (env w) with
  | Some s =>
      if nonempty s && nonempty (trim s) then comma_list s
      else allRegionServices
  | None => allRegionServices
  end.

(** [{ service: it.service, id: it.id, region: it.region ?? region }] *)
Definition stamp (region : JsVal) (it : JsVal) : ScanRecord :=
  {| service := get it "service"; id := get it "id";
     region := coalesce (get it "region") region |}.

(** One element of [tasks] in [regionWorker]: the unit under the
    per-service timeout. *)
Definition task (w : World) (region : JsVal) (svcName : string)
  : option (Tally -> Tally) :=
  match scannersForRegion w region svcName with
  | None => Some (fun t => t)
  | Some fn =>
      match withTimeout fn (parsedServiceTimeout (env w))
              ("svc:" ++ svcName ++ ":" ++ String_ region) with
      | Settles _ (Fulfilled items) => Some (push_all (stamp region) items)
      | Settles _ (Rejected _) => Some (fun t => t)
      | Pending => None
      end
  end.

(** [{ service: "COS", id: bucket, region: "global" }] *)
Definition cos_record (b : JsVal) : ScanRecord :=
  {| service := JStr "COS"; id := get b "Name"; region := JStr "global" |}.

Definition scanCOS : World -> Scheduler JsVal JsVal CosState
                     -> Promise (list ScanRecord) :=
  scanCOS_with cos_record.

Definition main_handler (w : World) (s : Schedulers) : Run :=
  handler_body w (resolved (listAllRegions w))
    (parsedMaxRegionConc (env w)) (regionServices w)
    (task w) (scanCOS w) s.

End Scan.


(* ================================================================== *)
(** ** SDK clients *)

(** [ENV_SECRET_ID], [ENV_SECRET_KEY] and [ENV_TOKEN]. *)
Record Credentials : Type := {
  ENV_SECRET_ID : JsVal;
  ENV_SECRET_KEY : JsVal;
  ENV_TOKEN : JsVal
}.

Definition props_of (v : JsVal) : list (string * JsVal) :=
  match v with
  | JObj props => props
  | _ => []
  end.

Definition baseConfig (c : Credentials) (region : JsVal) : JsVal :=
  if truthy (ENV_SECRET_ID c) && truthy (ENV_SECRET_KEY c)
  then JObj [ ("region", region);
              ("credential",
               JObj [ ("secretId", ENV_SECRET_ID c);
                      ("secretKey", ENV_SECRET_KEY c);
                      ("token", ENV_TOKEN c) ]) ]
  else JObj [ ("region", region) ].

(** A client is what it was constructed from: the constructor
    [tencentcloud[svc][version].Client] and its one argument. *)
Record Client : Type := {
  client_svc : string;
  client_version : string;
  client_options : JsVal
}.

(** The SDK: the constructors it has, and what a call of a method of a
    client comes to ([None] when the client has no such method). *)
Record Sdk : Type := {
  catalogue : string -> string -> bool;
  method : Client -> string -> option (JsVal -> Promise JsVal)
}.

(** The object [clients] of [scannersForRegion], used as a map from keys
    to clients; a key has a hyphen in it, so that none is the name of an
    inherited member. *)
Definition Clients : Type := list (string * Client).

Fixpoint cached (key : string) (clients : Clients) : option Client :=
  match clients with
  | [] => None
  | (k, c) :: rest => if k =? key then Some c else cached key rest
  end.

(** [`${svc}-${version}`] *)
Definition client_key (svc version : string) : string :=
  (svc ++ "-" ++ version)%string.

(** [getClient(svc, version, endpoint)] on the cache [clients]: the
    client and the cache after the call, or [None] when the constructor
    is missing and the call raises, leaving the cache as it was. *)
Definition getClient (sdk : Sdk) (creds : Credentials) (region : JsVal)
    (clients : Clients) (svc version endpoint : string)
  : option (Client * Clients) :=
  let key := client_key svc version in
  match cached key clients with
  | Some client => Some (client, clients)
  | None =>
      if catalogue sdk svc version then
        let client :=
          {| client_svc := svc;
             client_version := version;
             client_options :=
               JObj (props_of (baseConfig creds region)
                     ++ [ ("profile",
                           JObj [ ("httpProfile",
                                   JObj [ ("endpoint", JStr endpoint) ])
                                ]) ]) |} in
        Some (client, clients ++ [(key, client)])
      else None
  end.

(* ================================================================== *)
(** ** Scanner units *)

(** [a || b || ... || z]: the first truthy operand, or the last one. *)
Fixpoint any_of (vs : list JsVal) : JsVal :=
  match vs with
  | [] => JUndefined
  | [v] => v
  | v :: rest => if truthy v then v else any_of rest
  end.

(** [res.a] and [res.a?.b], by the names on the way. *)
Definition read (res : JsVal) (path : list string) : JsVal :=
  match path with
  | [] => res
  | k :: rest => fold_left get_opt rest (get res k)
  end.

(** [res.A || res.B || []] *)
Definition list_at (res : JsVal) (paths : list (list string)) : JsVal :=
  any_of (map (read res) paths ++ [JArr []]).

(** [x.A || x.B] *)
Definition id_at (x : JsVal) (keys : list string) : JsVal :=
  any_of (map (get x) keys).

(** [({ Offset, Limit }) => ... ({ Offset, Limit })]: the request a
    page operation passes on. *)
Definition paging (req : JsVal) : JsVal :=
  JObj [ ("Offset", get req "Offset"); ("Limit", get req "Limit") ].

(** [return { items: v }] for a truthy [v], as [pagedFetch] takes the
    page: it spreads the items and reads their number.  An array is
    spread into its elements and a string into its characters; anything
    else cannot be spread, and the call of [pagedFetch] is rejected
    where it would have been had the page operation been. *)
Definition page_of (v : JsVal) : Promise Page :=
  match v with
  | JArr xs => resolve {| items := Some xs |}
  | JStr s => resolve {| items := Some (chars s) |}
  | _ => reject TypeError
  end.

(** [{ service: label, id: x.A || x.B }] *)
Definition labelled (label : string) (ids : list string) (x : JsVal)
  : JsVal :=
  JObj [ ("service", JStr label); ("id", id_at x ids) ].

(** [items.filter(hasNoTags).map(mk)] on an array of items. *)
Definition untagged (mk : JsVal -> JsVal) (items : list JsVal)
  : Promise (list JsVal) :=
  map_reading mk (filter hasNoTags items).

(** [try { ... } catch { return d; }] around the body of an [async]
    function. *)
Definition catching {A} (p : Promise A) (d : A) : Promise A :=
  match p with
  | Settles t (Rejected _) => Settles t (Fulfilled d)
  | _ => p
  end.

(** A unit of the common shape: a client, one listing operation that is
    paged through, the alternative fields its result is found in, the
    label of the records and the alternative fields of their id.
    [lenient] marks the units that call the operation only if the client
    has it, and take [{}] for a falsy answer. *)
Record Plan : Type := {
  plan_svc : string;
  plan_version : string;
  plan_endpoint : string;
  operation : string;
  lenient : bool;
  found_at : list (list string);
  label : string;
  id_fields : list string
}.

Definition plan (svc version endpoint op : string)
    (found : list (list string)) (lbl : string) (ids : list string) : Plan :=
  {| plan_svc := svc; plan_version := version; plan_endpoint := endpoint;
     operation := op; lenient := false; found_at := found; label := lbl;
     id_fields := ids |}.

Definition lenient_plan (svc version endpoint op : string)
    (found : list (list string)) (lbl : string) (ids : list string) : Plan :=
  {| plan_svc := svc; plan_version := version; plan_endpoint := endpoint;
     operation := op; lenient := true; found_at := found; label := lbl;
     id_fields := ids |}.

(** The units of the common shape, by key; [index.js] has those before
    [TEM]. *)
Definition plans : list (string * Plan) :=
  [ ("CVM", plan "cvm" "v20170312" "cvm.tencentcloudapi.com"
       "DescribeInstances" [["InstanceSet"]] "CVM" ["InstanceId"]);
    ("CBS", plan "cbs" "v20170312" "cbs.tencentcloudapi.com"
       "DescribeDisks" [["DiskSet"]] "CBS" ["DiskId"]);
    ("CLB", plan "clb" "v20180317" "clb.tencentcloudapi.com"
       "DescribeLoadBalancers" [["LoadBalancerSet"]] "CLB"
       ["LoadBalancerId"]);
    ("SCF", plan "scf" "v20180416" "scf.tencentcloudapi.com"
       "ListFunctions" [["Functions"]] "SCF" ["FunctionName"]);
    ("BANDWIDTH_PACK", plan "vpc" "v20170312" "vpc.tencentcloudapi.com"
       "DescribeBandwidthPackages" [["BandwidthPackageSet"]]
       "BANDWIDTH_PACK" ["BandwidthPackageId"]);
    ("VPN", plan "vpc" "v20170312" "vpc.tencentcloudapi.com"
       "DescribeVpnGateways" [["VpnGatewaySet"]] "VPN" ["VpnGatewayId"]);
    ("NAT_GATEWAY", plan "vpc" "v20170312" "vpc.tencentcloudapi.com"
       "DescribeNatGateways" [["NatGatewaySet"]] "NAT_GATEWAY"
       ["NatGatewayId"]);
    ("LIGHTHOUSE", plan "lighthouse" "v20200324"
       "lighthouse.tencentcloudapi.com"
       "DescribeInstances" [["InstanceSet"]] "LIGHTHOUSE" ["InstanceId"]);
    ("CLS", plan "cls" "v20201016" "cls.tencentcloudapi.com"
       "DescribeLogsets" [["Logsets"]] "CLS" ["LogsetId"]);
    ("ANTIDDOS", plan "antiddos" "v20200309" "antiddos.tencentcloudapi.com"
       "DescribeListBGPInstances" [["Data"; "List"]] "ANTIDDOS"
       ["InstanceId"]);
    ("TDMQ_CKAFKA", plan "ckafka" "v20190819" "ckafka.tencentcloudapi.com"
       "DescribeInstances" [["InstanceList"]; ["Instances"]] "TDMQ_CKAFKA"
       ["InstanceId"]);
    ("TDMQ_ROCKETMQ", plan "tdmq" "v20200217" "tdmq.tencentcloudapi.com"
       "DescribeRocketMQClusters"
       [["ClusterInfoList"]; ["ClusterList"]; ["Instances"]]
       "TDMQ_ROCKETMQ" ["ClusterId"; "InstanceId"]);
    ("TDMQ_RABBITMQ", plan "tdmq" "v20200217" "tdmq.tencentcloudapi.com"
       "DescribeRabbitMQServerlessInstances" [["Instances"]]
       "TDMQ_RABBITMQ" ["InstanceId"; "ClusterId"]);
    ("TDMQ_PULSAR", plan "tdmq" "v20200217" "tdmq.tencentcloudapi.com"
       "DescribePulsarProInstances" [["Instances"]] "TDMQ_PULSAR"
       ["InstanceId"]);
    ("MYSQL", plan "cdb" "v20170320" "cdb.tencentcloudapi.com"
       "DescribeDBInstances" [["Items"]] "MYSQL" ["InstanceId"]);
    ("MSSQL", plan "sqlserver" "v20180328" "sqlserver.tencentcloudapi.com"
       "DescribeDBInstances" [["DBInstances"]] "MSSQL" ["InstanceId"]);
    ("POSTGRES", plan "postgres" "v20170312" "postgres.tencentcloudapi.com"
       "DescribeDBInstances" [["DBInstanceSet"]] "POSTGRES"
       ["DBInstanceId"]);
    ("TDSQL", plan "dcdb" "v20180411" "dcdb.tencentcloudapi.com"
       "DescribeDCDBInstances" [["Instances"]] "TDSQL" ["InstanceId"]);
    ("CYNOSDB", plan "cynosdb" "v20190107" "cynosdb.tencentcloudapi.com"
       "DescribeClusters" [["ClusterSet"]] "TDSQL_C" ["ClusterId"]);
    ("REDIS", plan "redis" "v20180412" "redis.tencentcloudapi.com"
       "DescribeInstances" [["InstanceSet"]] "REDIS" ["InstanceId"]);
    ("MONGODB", plan "mongodb" "v20190725" "mongodb.tencentcloudapi.com"
       "DescribeDBInstances" [["InstanceDetails"]; ["InstanceList"]]
       "MONGODB" ["InstanceId"; "InstanceName"]);
    ("ELASTICSEARCH", plan "es" "v20180416" "es.tencentcloudapi.com"
       "DescribeInstances" [["InstanceList"]] "ELASTICSEARCH"
       ["InstanceId"]);
    ("TEM", plan "tem" "v20210701" "tem.tencentcloudapi.com"
       "DescribeApplications" [["Result"; "Applications"]; ["Applications"]]
       "TEM" ["ApplicationId"; "Id"; "ApplicationName"]);
    ("ADP", plan "adp" "v20220101" "adp.tencentcloudapi.com"
       "DescribeApplications" [["Applications"]; ["Apps"]] "ADP"
       ["AppId"; "ApplicationId"; "Name"]);
    ("CSS_DOMAINS", plan "live" "v20180801" "live.tencentcloudapi.com"
       "DescribeLiveDomains" [["Domains"]] "CSS_DOMAINS" ["DomainName"]);
    ("GAAP_GROUP", plan "gaap" "v20180529" "gaap.tencentcloudapi.com"
       "DescribeProxyGroupList" [["ProxyGroupList"]] "GAAP_GROUP"
       ["GroupId"; "ProxyGroupId"]);
    ("CTSDB", plan "ctsdb" "v20190401" "ctsdb.tencentcloudapi.com"
       "DescribeInstances" [["Instances"]] "CTSDB" ["InstanceId"]);
    ("TENDIS", plan "tendis" "v20190708" "tendis.tencentcloudapi.com"
       "DescribeTendisInstances" [["InstanceSet"]; ["Instances"]] "TENDIS"
       ["InstanceId"]);
    ("VECTORDB", lenient_plan "vectordb" "v20240223"
       "vectordb.tencentcloudapi.com"
       "DescribeDBInstances" [["DBInstances"]; ["Instances"]] "VECTORDB"
       ["InstanceId"; "Id"]);
    ("DLC", plan "dlc" "v20210125" "dlc.tencentcloudapi.com"
       "DescribeDataEngines" [["DataEngines"]] "DLC"
       ["DataEngineId"; "DataEngineName"]);
    ("TCHOUSE_C", plan "cdwch" "v20200915" "cdwch.tencentcloudapi.com"
       "DescribeInstances" [["Instances"]; ["InstancesList"]] "TCHOUSE_C"
       ["InstanceId"]);
    ("TCHOUSE_P", plan "cdwpg" "v20181225" "cdwpg.tencentcloudapi.com"
       "DescribeInstances" [["InstanceList"]; ["Instances"]] "TCHOUSE_P"
       ["InstanceId"]);
    ("TCHOUSE_D", plan "cdwdoris" "v20211228" "cdwdoris.tencentcloudapi.com"
       "DescribeInstances" [["Instances"]; ["InstancesList"]] "TCHOUSE_D"
       ["InstanceId"]);
    ("KMS_KEYS", plan "kms" "v20190118" "kms.tencentcloudapi.com"
       "ListKeys" [["Keys"]; ["KeyMetadatas"]] "KMS_KEYS" ["KeyId"]);
    ("SSM_SECRETS", plan "ssm" "v20190923" "ssm.tencentcloudapi.com"
       "ListSecrets" [["SecretMetadatas"]; ["Secrets"]; ["SecretList"]]
       "SSM_SECRETS" ["SecretId"; "SecretName"]);
    ("CAPTCHA", lenient_plan "captcha" "v20190722"
       "captcha.tencentcloudapi.com"
       "DescribeCaptchaUserAllAppId" [["Data"; "AllAppIdInfo"]; ["AppIds"]]
       "CAPTCHA" ["AppId"; "AppName"]);
    ("TIONE", lenient_plan "tione" "v20191022" "tione.tencentcloudapi.com"
       "DescribeNotebookInstances"
       [["NotebookInstanceSet"]; ["NotebookInstances"]] "TIONE"
       ["NotebookInstanceId"; "NotebookInstanceName"]);
    ("WEDATA", plan "wedata" "v20210820" "wedata.tencentcloudapi.com"
       "DescribeProjects" [["ProjectList"]; ["Projects"]] "WEDATA"
       ["ProjectId"; "ProjectName"]) ].

Definition emr_plan : Plan :=
  plan "emr" "v20190103" "emr.tencentcloudapi.com" "DescribeInstances"
    [["ClusterList"]; ["Result"]] "EMR" ["ClusterId"; "InstanceId"].

(** A scanner unit: what its invocation returns, and the cache of
    clients after it has run up to its first [await]. *)
Definition Unit : Type := Clients -> Promise (list JsVal) * Clients.

Module Units.

Section OfARegion.

Variable sdk : Sdk.
Variable creds : Credentials.
Variable w : World.
Variable region : JsVal.

(** [await client[name](req)] *)
Definition call (client : Client) (name : string) (req : JsVal)
  : Promise JsVal :=
  match method sdk client name with
  | Some answer => answer req
  | None => reject TypeError
  end.

(** [await client[name]?.(req) || {}] *)
Definition call_if_any (client : Client) (name : string) (req : JsVal)
  : Promise JsVal :=
  match method sdk client name with
  | Some answer => let* res := answer req in resolve (or_else res (JObj []))
  | None => resolve (JObj [])
  end.

(** The page operation of a unit of the common shape. *)
Definition fetchPage (client : Client) (name : string) (tolerant : bool)
    (found : list (list string)) (req : JsVal) : Promise Page :=
  let* res := (if tolerant then call_if_any else call)
                client name (paging req) in
  if nullish res then reject TypeError else page_of (list_at res found).

(** [await pagedFetch(async ({ Offset, Limit }) => ...)] *)
Definition paged (client : Client) (name : string) (tolerant : bool)
    (found : list (list string)) : Promise (list JsVal) :=
  listing w (fetchPage client name tolerant found).

(** The body of a unit from its call of [getClient] on. *)
Definition with_client (svc version endpoint : string)
    (body : Client -> Promise (list JsVal)) : Unit :=
  fun clients =>
    match getClient sdk creds region clients svc version endpoint with
    | Some (client, clients') => (body client, clients')
    | None => (reject TypeError, clients)
    end.

Definition listing_unit (p : Plan) : Unit :=
  with_client (plan_svc p) (plan_version p) (plan_endpoint p)
    (fun client =>
       let* items := paged client (operation p) (lenient p) (found_at p) in
       untagged (labelled (label p) (id_fields p)) items).

(** [try { ... } catch { return []; }] around the whole of a unit. *)
Definition guarded (u : Unit) : Unit :=
  fun clients => let (p, clients') := u clients in (catching p [], clients').

Definition TKE : Unit :=
  with_client "tke" "v20180525" "tke.tencentcloudapi.com"
    (fun client =>
       let* standardClusters :=
         paged client "DescribeClusters" false
           [["Clusters"]; ["ClusterSet"]] in
       let* serverlessClusters :=
         paged client "DescribeEKSClusters" false
           [["Clusters"]; ["ClusterSet"]; ["EksClusterSet"];
            ["ClusterInfos"]] in
       let* untaggedStandard :=
         untagged (labelled "TKE" ["ClusterId"]) standardClusters in
       let* untaggedServerless :=
         untagged (labelled "TKE_SERVERLESS"
                     ["ClusterId"; "EksClusterId"; "ClusterName"])
                  serverlessClusters in
       resolve (untaggedStandard ++ untaggedServerless)).

Definition EMR : Unit := guarded (listing_unit emr_plan).

End OfARegion.

End Units.
(* ================================================================== *)
(** * Vocabulary of the statements *)

(** ** TagClassifier *)

Definition is_collection (v : JsVal) : bool :=
  match v with JArr _ | JObj _ => true | _ => false end.

Definition tags_of (c : option JsVal) : list JsVal :=
  match c with
  | Some (JArr xs) => xs
  | Some (JObj props) => Object_keys props
  | _ => []
  end.

(** ** PaginatedFetcher *)

(** The cap in the words of the specification: the call comes to an end
    having issued at most [maxPages] page requests. *)
Definition stops_within (maxPages : nat) (run : nat -> Fetch) : Prop :=
  exists fuel,
    fetched (run fuel) <> None
    /\ (List.length (requests (run fuel)) <= maxPages)%nat.

(** Every page the operation is asked for comes back with exactly
    [pageSize] items, within [within] milliseconds. *)
Definition full_pages (fetchPage : JsVal -> Promise Page) (pageSize : Z)
    (offsetKey limitKey : string) (within : N) : Prop :=
  forall offset, exists t xs,
    fetchPage (page_request offsetKey limitKey offset pageSize)
    = Settles t (Fulfilled {| items := Some xs |})
    /\ Z.of_nat (List.length xs) = pageSize /\ (t <= within)%N.

Definition four_items : list JsVal := [JNum 1; JNum 2; JNum 3; JNum 4].

Definition env_of_cap (cap : Z) : Env :=
  {| SCAN_REGIONS := None; SCAN_SERVICES := None;
     MAX_REGION_CONCURRENCY := None; SERVICE_TIMEOUT_MS := None;
     REQUEST_TIMEOUT_MS := None; MAX_PAGES_PER_LIST := Some cap;
     has_credentials := true |}.


(** ** Worlds to evaluate the script in *)

Definition env_of (regions services : option string) (credentials : bool)
  : Env :=
  {| SCAN_REGIONS := regions; SCAN_SERVICES := services;
     MAX_REGION_CONCURRENCY := None; SERVICE_TIMEOUT_MS := None;
     REQUEST_TIMEOUT_MS := None; MAX_PAGES_PER_LIST := None;
     has_credentials := credentials |}.

(** A world in which no call is ever answered. *)
Definition silent_world (e : Env) : World :=
  {| env := e;
     localeCompare := String.compare;
     DescribeRegions := Pending;
     DescribeCcns := fun _ _ => Pending;
     DescribePrivateZoneList := fun _ _ => Pending;
     other_unit := fun _ _ => Pending;
     page_budget := 0;
     getService := Silent;
     getBucketTagging := fun _ _ => Silent;
     putObject := fun _ => Silent |}.

(** The same world with an answer to describe-regions. *)
Definition with_regions (w : World) (answer : Promise JsVal) : World :=
  {| env := env w;
     localeCompare := localeCompare w;
     DescribeRegions := answer;
     DescribeCcns := DescribeCcns w;
     DescribePrivateZoneList := DescribePrivateZoneList w;
     other_unit := other_unit w;
     page_budget := page_budget w;
     getService := getService w;
     getBucketTagging := getBucketTagging w;
     putObject := putObject w |}.

(** ** RegionResolver *)

(** No two entries are the same value. *)
Definition distinct (xs : list JsVal) : Prop :=
  ForallOrdPairs (fun a b => strict_eq a b = false) xs.

Definition region_entry (code : string) : JsVal :=
  JObj [("Region", JStr code)].

(** ** ResultAggregator *)

(** What the sort needs of a comparator: it is antisymmetric in its sign,
    and "not after" is transitive. *)
Definition consistent {A} (cmp : A -> A -> comparison) : Prop :=
  (forall a b, cmp b a = CompOpp (cmp a b))
  /\ (forall a b c, cmp a b <> Gt -> cmp b c <> Gt -> cmp a c <> Gt).

(** [a] is not after [b] in the order of the report. *)
Definition precedes (lc : string -> string -> comparison)
    (a b : ScanRecord) : Prop :=
  compareRecords lc a b <> Gt.

(** Compare by [f], and by [g] where [f] sees no difference. *)
Definition lex {A} (f g : A -> A -> comparison) (a b : A) : comparison :=
  match f a b with
  | Eq => g a b
  | r => r
  end.

Definition record_of (r s i : string) : ScanRecord :=
  {| service := JStr s; id := JStr i; region := JStr r |}.

(** [a] is not after [b] by (region, service, id): the regions decide
    where they differ, the services where the regions do not, and the ids
    where neither does; each field is taken as a string and the strings
    are compared by [lc]. *)
Definition in_report_order (lc : string -> string -> comparison)
    (a b : ScanRecord) : Prop :=
  let by_region := lc (String_ (region a)) (String_ (region b)) in
  let by_service := lc (String_ (service a)) (String_ (service b)) in
  let by_id := lc (String_ (id a)) (String_ (id b)) in
  by_region = Lt
  \/ (by_region = Eq
      /\ (by_service = Lt \/ (by_service = Eq /\ by_id <> Gt))).

(** The lexicographic order of strings: by the code units, the first
    difference deciding. *)
Definition lexicographic : string -> string -> comparison := String.compare.

(** A collation of the kind a host has: strings are compared without
    regard to the case of their letters first, and where that shows no
    difference the string with the small letter at the first difference
    comes first.  A host with ICU orders strings of ASCII letters and
    digits so: ["a"] before ["B"] before ["c"]. *)
Definition dictionary : string -> string -> comparison :=
  lex (fun a b => String.compare (toLowerCase a) (toLowerCase b))
      (fun a b => String.compare b a).

(** ** Claim-cursor worker pools *)

Section PoolVocabulary.

Context {Item Job Acc : Type}.
Variable work : list Item.
Variable spawn : Item -> list Job.
Variable settle : Job -> option (Acc -> Acc).

(** The four kinds of step. *)
Inductive step_kind (p q : @Pool Item Job Acc) : Prop :=
| claim_step w x :
    nth_error (workers p) w = Some AtLoopHead ->
    nth_error work (cursor p) = Some x ->
    q = {| cursor := S (cursor p);
           claims := claims p ++ [(w, cursor p, x)];
           acc := acc p;
           workers := set_nth w (Awaiting (spawn x)) (workers p) |} ->
    step_kind p q
| exit_step w :
    nth_error (workers p) w = Some AtLoopHead ->
    nth_error work (cursor p) = None ->
    q = {| cursor := cursor p; claims := claims p; acc := acc p;
           workers := set_nth w Exited (workers p) |} ->
    step_kind p q
| loop_step w :
    nth_error (workers p) w = Some (Awaiting []) ->
    q = {| cursor := cursor p; claims := claims p; acc := acc p;
           workers := set_nth w AtLoopHead (workers p) |} ->
    step_kind p q
| settle_step w j jobs job effect :
    nth_error (workers p) w = Some (Awaiting jobs) ->
    nth_error jobs j = Some job ->
    settle job = Some effect ->
    q = {| cursor := cursor p; claims := claims p; acc := effect (acc p);
           workers := set_nth w (Awaiting (drop_nth j jobs)) (workers p) |} ->
    step_kind p q.

(** What holds of the cursor and of the history of claims. *)
Definition cursor_inv (p : @Pool Item Job Acc) : Prop :=
  (cursor p <= List.length work)%nat
  /\ map (fun c => snd (fst c)) (claims p) = seq 0 (cursor p)
  /\ map snd (claims p) = firstn (cursor p) work
  /\ (In Exited (workers p) -> (List.length work <= cursor p)%nat).

(** A worker that cannot move: it has left, or it waits for jobs none of
    which settles. *)
Definition stuck (x : @Worker Job) : Prop :=
  match x with
  | AtLoopHead => False
  | Awaiting jobs => jobs <> [] /\ Forall (fun job => settle job = None) jobs
  | Exited => True
  end.


(** The jobs a worker is waiting for. *)
Definition pending (x : @Worker Job) : list Job :=
  match x with
  | Awaiting jobs => jobs
  | _ => []
  end.

(** Every job a worker waits for is a job of some item of the work
    list. *)
Definition pending_spawned (p : @Pool Item Job Acc) : Prop :=
  Forall (fun x => forall job, In job (pending x) ->
                     exists item, In item work /\ In job (spawn item))
         (workers p).

(** Every job of the kind [bad] of an item claimed so far has left its
    mark on the accumulator or is waited for. *)
Definition marked_or_pending (marked : Acc -> Prop) (bad : Job -> Prop)
    (p : @Pool Item Job Acc) : Prop :=
  forall item job,
    In item (firstn (cursor p) work) -> In job (spawn item) -> bad job ->
    marked (acc p)
    \/ exists i x, nth_error (workers p) i = Some x /\ In job (pending x).

End PoolVocabulary.

Section GatheringVocabulary.

Context {Item Job Acc R : Type}.
Variable work : list Item.
Variable spawn : Item -> list Job.
(** the records in an accumulator, and those a job adds when it settles *)
Variable view : Acc -> list R.
Variable contrib : Job -> list R.

(** What the pending jobs of a worker will still add. *)
Definition owed (x : @Worker Job) : list R :=
  match x with
  | Awaiting jobs => flat_map contrib jobs
  | _ => []
  end.

(** What the jobs of an item add. *)
Definition due (x : Item) : list R := flat_map contrib (spawn x).

(** The accumulator and what is still owed make up what the items
    claimed so far are due. *)
Definition gathered_inv (acc0 : Acc) (p : @Pool Item Job Acc) : Prop :=
  Permutation (view (acc p) ++ flat_map owed (workers p))
              (view acc0 ++ flat_map due (firstn (cursor p) work)).

End GatheringVocabulary.

(** ** The run-wide tally *)

(** The counter agrees with the sequence. *)
Definition tally_ok (t : Tally) : Prop :=
  untaggedCount t = List.length (outputs t).

(** The items a push loop gets through: those before the first nullish
    one. *)
Fixpoint readable (its : list JsVal) : list JsVal :=
  match its with
  | [] => []
  | it :: rest => if nullish it then [] else it :: readable rest
  end.

(** The records a task adds to the outputs, if it settles. *)
Definition added (task : option (Tally -> Tally)) : list ScanRecord :=
  match task with
  | Some effect => outputs (effect empty_tally)
  | None => []
  end.

(** A task that pushes records and counts them, and does nothing else. *)
Definition pushes_and_counts (task : option (Tally -> Tally)) : Prop :=
  forall effect, task = Some effect ->
    forall t, outputs (effect t) = outputs t ++ added task
              /\ untaggedCount (effect t)
                 = (untaggedCount t + List.length (added task))%nat.

(** The records the tasks of all the regions add, region by region and
    key by key. *)
Definition region_records (task : JsVal -> string -> option (Tally -> Tally))
    (regionServices : list string) (regions : list JsVal)
  : list ScanRecord :=
  flat_map (fun region =>
              flat_map (fun svcName => added (task region svcName))
                       regionServices)
           regions.

(** The records the COS scan hands over: none when it fails. *)
Definition cos_records (scan : Promise (list ScanRecord))
  : list ScanRecord :=
  match scan with
  | Settles _ (Fulfilled cosItems) => cosItems
  | _ => []
  end.


(** ** GlobalResourceScanner *)

(** The records the job of one entry of [buckets] adds to [results]. *)
Definition bucket_records (w : World) (stamp : JsVal -> ScanRecord)
    (b : JsVal) : list ScanRecord :=
  match bucket_job w stamp b with
  | Some effect => results (effect no_results)
  | None => []
  end.

(** The tagging replies of the world all arrive. *)
Definition tagging_answers (w : World) : Prop :=
  forall bucket region, getBucketTagging w bucket region <> Silent.

(** A bucket listing that is delivered without an error. *)
Definition lists (t : N) (buckets : list JsVal) : Reply (option Service) :=
  Calls t JNull (Some {| Buckets := Some buckets |}).


(** ** The summary *)

Definition quoted (s : string) : string := (dq ++ s ++ dq)%string.

(** The text [JSON.stringify] gives for an object of two properties whose
    values are natural numbers. *)
Definition json_of_counts (key1 : string) (n1 : nat) (key2 : string)
    (n2 : nat) : string :=
  ("{" ++ quoted key1 ++ ":" ++ dec (Z.of_nat n1) ++ ","
   ++ quoted key2 ++ ":" ++ dec (Z.of_nat n2) ++ "}")%string.

(** The same world with another exporter backend. *)
Definition with_exporter (w : World) (put : string -> Reply JsVal) : World :=
  {| env := env w;
     localeCompare := localeCompare w;
     DescribeRegions := DescribeRegions w;
     DescribeCcns := DescribeCcns w;
     DescribePrivateZoneList := DescribePrivateZoneList w;
     other_unit := other_unit w;
     page_budget := page_budget w;
     getService := getService w;
     getBucketTagging := getBucketTagging w;
     putObject := put |}.

(** Every COS call of the world is answered, with data or with an
    error; without credentials no such call is made. *)
Definition cos_answers (w : World) : Prop :=
  has_credentials (env w) = true ->
  getService w <> Silent
  /\ tagging_answers w
  /\ (forall csv, putObject w csv <> Silent).

(** A unit that fails: its promise is rejected or stays pending. *)
Definition fails (fn : Promise (list JsVal)) : Prop :=
  fn = Pending \/ exists t e, fn = Settles t (Rejected e).

(** Every scanner unit that is run fails, or, as a unit of an
    account-global kind does away from its home region, resolves with
    nothing. *)
Definition every_unit_fails
    (scanners : JsVal -> string -> option (Promise (list JsVal)))
    (regionServices : list string) : Prop :=
  forall region key fn,
    In key regionServices ->
    scanners region key = Some fn ->
    fails fn \/ exists t, fn = Settles t (Fulfilled []).

(** Every scanner unit of [index.js] settles, with items or with an
    error. *)
Definition units_settle (w : World) : Prop :=
  forall region key fn,
    Index.scannersForRegion w region key = Some fn -> settles fn = true.


(** ** Concrete worlds and runs *)

(** A page-fetch operation that never answers. *)
Definition never_answers (req : JsVal) : Promise Page := Pending.

Definition fifo : Schedulers :=
  {| region_sched := fun _ => (0, 0)%nat; cos_sched := fun _ => (0, 0)%nat |}.

(** The interleaving in which three workers start one after the other,
    each claiming an item before the next one starts, as the workers of a
    pool do when [Array.from] creates them. *)
Definition by_turns : Schedulers :=
  {| region_sched := fun p => (cursor p mod 3, 0)%nat;
     cos_sched := fun p => (cursor p mod 3, 0)%nat |}.

Definition regions_answer (codes : list string) : Promise JsVal :=
  Settles 40%N
    (Fulfilled (JObj [("RegionSet", JArr (map region_entry codes))])).

(** A world of two regions in which every listing is refused and nothing
    is configured. *)
Definition every_unit_rejects : World :=
  {| env := env_of None None false;
     localeCompare := String.compare;
     DescribeRegions := regions_answer ["eu-frankfurt"; "ap-tokyo"];
     DescribeCcns := fun _ _ =>
       Settles 7%N (Rejected (SdkError (JStr "AuthFailure")));
     DescribePrivateZoneList := fun _ _ =>
       Settles 7%N (Rejected (SdkError (JStr "AuthFailure")));
     other_unit := fun _ _ =>
       Settles 7%N (Rejected (SdkError (JStr "AuthFailure")));
     page_budget := 5;
     getService := Silent;
     getBucketTagging := fun _ _ => Silent;
     putObject := fun _ => Silent |}.

(** A world of two regions in which the CCN listing never answers and
    every other unit finds nothing. *)
Definition ccn_hangs : World :=
  {| env := env_of None None false;
     localeCompare := String.compare;
     DescribeRegions := regions_answer ["eu-frankfurt"; "ap-tokyo"];
     DescribeCcns := fun _ _ => Pending;
     DescribePrivateZoneList := fun _ _ => Pending;
     other_unit := fun _ _ => resolve [];
     page_budget := 5;
     getService := Silent;
     getBucketTagging := fun _ _ => Silent;
     putObject := fun _ => Silent |}.

Definition one_ccn : Listing :=
  {| primary := Some [JObj [("CcnId", JStr "ccn-1")]]; secondary := None |}.

(** Three regions, the home region among them; the CCN listing answers
    alike in all of them, with one untagged network; every other unit
    finds nothing; no COS credentials. *)
Definition ccn_everywhere : World :=
  {| env := env_of None (Some "CCN") false;
     localeCompare := String.compare;
     DescribeRegions :=
       regions_answer ["ap-singapore"; "eu-frankfurt"; "ap-tokyo"];
     DescribeCcns := fun _ _ => Settles 30%N (Fulfilled one_ccn);
     DescribePrivateZoneList := fun _ _ => Pending;
     other_unit := fun _ _ => resolve [];
     page_budget := 5;
     getService := Silent;
     getBucketTagging := fun _ _ => Silent;
     putObject := fun _ => Silent |}.

Definition untagged_instance (i : string) : JsVal :=
  JObj [("service", JStr "CVM"); ("id", JStr i)].

Definition answers_ok (data : JsVal) : Reply JsVal := Calls 12%N JNull data.

Definition answers_error (status : Z) (code : string) : Reply JsVal :=
  Calls 12%N (JObj [("statusCode", JNum status); ("errorCode", JStr code)])
        JUndefined.

Definition bucket (name location : string) : JsVal :=
  JObj [("Name", JStr name); ("Location", JStr location)].

(** The end-to-end scenario of the specification: the regions [r1] and
    [r2], by override and by discovery alike; one unit, which finds one
    untagged resource in each; credentials, no bucket, and an exporter
    that answers. *)
Definition two_regions : World :=
  {| env := env_of (Some "r1,r2") (Some "CVM") true;
     localeCompare := String.compare;
     DescribeRegions := regions_answer ["r1"; "r2"];
     DescribeCcns := fun _ _ =>
       Settles 30%N (Fulfilled {| primary := None; secondary := None |});
     DescribePrivateZoneList := fun _ _ => Pending;
     other_unit := fun key region =>
       if key =? "CVM" then
         if strict_eq region (JStr "r1")
         then Settles 25%N (Fulfilled [untagged_instance "i1"])
         else Settles 25%N (Fulfilled [untagged_instance "i2"])
       else reject (SdkError (JStr "unsupported"));
     page_budget := 5;
     getService := lists 12 [];
     getBucketTagging := fun _ _ => answers_error 500 "InternalError";
     putObject := fun _ => answers_ok JNull |}.

(** Four buckets: no tag set (by status), access denied, no tag set (by
    code), and a tagged one. *)
Definition four_buckets : World :=
  {| env := env_of (Some "r1") (Some "none") true;
     localeCompare := String.compare;
     DescribeRegions := Pending;
     DescribeCcns := fun _ _ => Pending;
     DescribePrivateZoneList := fun _ _ => Pending;
     other_unit := fun _ _ => Pending;
     page_budget := 0;
     getService :=
       lists 12 [bucket "b1" "ap"; bucket "b2" "ap";
                 bucket "b3" "eu"; bucket "b4" "eu"];
     getBucketTagging := fun name _ =>
       if strict_eq name (JStr "b1") then answers_error 404 "NotFound"
       else if strict_eq name (JStr "b2")
            then answers_error 403 "AccessDenied"
       else if strict_eq name (JStr "b3")
            then Calls 9%N (JObj [("errorCode", JStr "NoSuchTagSet")])
                       JUndefined
       else answers_ok (JObj [("TagSet",
                               JArr [JObj [("Key", JStr "team")]])]);
     putObject := fun _ => answers_error 500 "InternalError" |}.

Definition two_regions_report : Report :=
  Eval vm_compute in
    match Scan.main_handler two_regions fifo with
    | Returns r => r
    | _ => {| statusCode := 0; body := ""; handed_to_exporter := [];
              csv_put := None |}
    end.

Definition two_regions_index_report : Report :=
  Eval vm_compute in
    match Index.main_handler two_regions fifo with
    | Returns r => r
    | _ => {| statusCode := 0; body := ""; handed_to_exporter := [];
              csv_put := None |}
    end.




(** One region, in which the one unit that is run finds the untagged
    instances [B], [a] and [c]; the host collates as a dictionary does;
    credentials, no bucket, and an exporter that answers. *)
Definition mixed_case : World :=
  {| env := env_of (Some "r1") (Some "CVM") true;
     localeCompare := dictionary;
     DescribeRegions := regions_answer ["r1"];
     DescribeCcns := fun _ _ => Pending;
     DescribePrivateZoneList := fun _ _ => Pending;
     other_unit := fun key region =>
       if key =? "CVM"
       then Settles 25%N (Fulfilled [untagged_instance "B";
                                     untagged_instance "a";
                                     untagged_instance "c"])
       else reject (SdkError (JStr "unsupported"));
     page_budget := 5;
     getService := lists 12 [];
     getBucketTagging := fun _ _ => answers_error 500 "InternalError";
     putObject := fun _ => answers_ok JNull |}.

(** The world [two_regions] with a bucket listing that is never
    delivered. *)
Definition listing_unanswered : World :=
  {| env := env two_regions;
     localeCompare := localeCompare two_regions;
     DescribeRegions := DescribeRegions two_regions;
     DescribeCcns := DescribeCcns two_regions;
     DescribePrivateZoneList := DescribePrivateZoneList two_regions;
     other_unit := other_unit two_regions;
     page_budget := page_budget two_regions;
     getService := Silent;
     getBucketTagging := getBucketTagging two_regions;
     putObject := putObject two_regions |}.

(** The world [four_buckets] with a bucket listing that holds [null]
    after the first bucket. *)
Definition null_entry : World :=
  {| env := env four_buckets;
     localeCompare := localeCompare four_buckets;
     DescribeRegions := DescribeRegions four_buckets;
     DescribeCcns := DescribeCcns four_buckets;
     DescribePrivateZoneList := DescribePrivateZoneList four_buckets;
     other_unit := other_unit four_buckets;
     page_budget := page_budget four_buckets;
     getService := lists 12 [bucket "b1" "ap"; JNull; bucket "b3" "eu"];
     getBucketTagging := getBucketTagging four_buckets;
     putObject := putObject four_buckets |}.

Definition two_regions_pool : Pool :=
  pool_outcome [JStr "r1"; JStr "r2"]
    (tasks (Scan.regionServices two_regions))
    (settle_task (Scan.task two_regions)) 3 empty_tally
    (region_sched fifo).

Definition mixed_case_report : Report :=
  Eval vm_compute in
    match Scan.main_handler mixed_case fifo with
    | Returns r => r
    | _ => {| statusCode := 0; body := ""; handed_to_exporter := [];
              csv_put := None |}
    end.

(* ================================================================== *)
(** * Vocabulary of the further properties *)

(** ** TagClassifier *)

(** The four probes read off the payload itself. *)
Definition flat_probes (obj : JsVal) : list JsVal :=
  [ get obj "Tags"; get obj "TagSet"; get obj "TagList";
    get obj "ResourceTags" ].

(** ** Strings of the configuration *)

Fixpoint contains (c : ascii) (s : string) : bool :=
  match s with
  | EmptyString => false
  | String c' rest => Ascii.eqb c' c || contains c rest
  end.

Definition blank_at_start (s : string) : bool :=
  match s with
  | String c _ => is_space c
  | EmptyString => false
  end.

Fixpoint blank_at_end (s : string) : bool :=
  match s with
  | EmptyString => false
  | String c EmptyString => is_space c
  | String _ rest => blank_at_end rest
  end.

(** An entry as [comma_list] delivers it: not empty, no blank at either
    end, no comma. *)
Definition clean (e : string) : Prop :=
  e <> ""
  /\ blank_at_start e = false
  /\ blank_at_end e = false
  /\ contains "," e = false.

(** ** The report *)

Definition line_feed : ascii := ascii_of_nat 10.

(** Every line followed by a line feed. *)
Fixpoint terminated (lines : list string) : string :=
  match lines with
  | [] => ""
  | l :: rest => (l ++ nl ++ terminated rest)%string
  end.

(** The three fields of a record as the report prints them. *)
Definition fields (i : ScanRecord) : list string :=
  [ String_ (region i); String_ (service i); String_ (id i) ].

(** A field that can be read back: it holds no comma and no line feed. *)
Definition plain (f : string) : Prop :=
  contains "," f = false /\ contains line_feed f = false.

(** Two runs that cannot be told apart by their caller or in the report
    that was written: the same kind of outcome, the same response, the
    same fields, record by record, handed to the exporter, and the same
    text put by it. *)
Definition same_report (run1 run2 : Run) : Prop :=
  match run1, run2 with
  | Returns r1, Returns r2 =>
      statusCode r1 = statusCode r2
      /\ body r1 = body r2
      /\ map fields (handed_to_exporter r1)
         = map fields (handed_to_exporter r2)
      /\ csv_put r1 = csv_put r2
  | Raises e1, Raises e2 => e1 = e2
  | Hangs, Hangs => True
  | _, _ => False
  end.

(** Two scans that found the same records, in whatever order, or failed
    alike. *)
Definition same_finds (a b : Promise (list ScanRecord)) : Prop :=
  match a, b with
  | Settles _ (Fulfilled xs), Settles _ (Fulfilled ys) => Permutation xs ys
  | Settles _ (Rejected _), Settles _ (Rejected _) => True
  | Pending, Pending => True
  | _, _ => False
  end.

(** A collation that tells any two different strings apart. *)
Definition exact (lc : string -> string -> comparison) : Prop :=
  forall a b, lc a b = Eq -> a = b.

(** The bucket listing, when it is delivered, holds bucket descriptors:
    no entry of it is [null] or [undefined]. *)
Definition buckets_described (w : World) : Prop :=
  forall t err d,
    getService w = Calls t err (Some d) ->
    Forall (fun b => nullish b = false) (buckets_of d).

(** An interleaving other than [fifo]: the second worker moves whenever
    it can. *)
Definition second_first : Schedulers :=
  {| region_sched := fun _ => (1, 0)%nat; cos_sched := fun _ => (1, 0)%nat |}.

(** ** PaginatedFetcher *)

(** The offsets of [n] consecutive pages. *)
Definition offsets (start pageSize : Z) (n : nat) : list Z :=
  map (fun k => (start + Z.of_nat k * pageSize)%Z) (seq 0 n).

(** The items of the pages a page-fetch operation delivers for a list of
    requests. *)
Definition served (fetchPage : JsVal -> Promise Page) (reqs : list JsVal)
  : list JsVal :=
  flat_map (fun req =>
              match fetchPage req with
              | Settles _ (Fulfilled page) => page_items page
              | _ => []
              end) reqs.

(** The time the pages of a list of requests take, one after another. *)
Definition elapsed (fetchPage : JsVal -> Promise Page) (reqs : list JsVal)
  : N :=
  fold_right N.add 0%N
    (map (fun req =>
            match fetchPage req with
            | Settles t _ => t
            | Pending => 0%N
            end) reqs).

(** The promise settles, and by the deadline. *)
Definition settled_by {A} (p : Promise A) (deadline : N) : Prop :=
  exists t o, p = Settles t o /\ (t <= deadline)%N.

(** ** GlobalResourceScanner *)

(** The tag list of a tagging answer: the first of [TagSet], [Tags.Tag]
    and [Tags] that is truthy, when it is an array. *)
Definition tag_list (data : JsVal) : list JsVal :=
  match find truthy [ get_opt data "TagSet";
                      get_opt (get_opt data "Tags") "Tag";
                      get_opt data "Tags" ] with
  | Some (JArr xs) => xs
  | _ => []
  end.

(** The same world with another COS backend. *)
Definition with_cos (w : World) (answer : Reply (option Service))
    (tagging : JsVal -> JsVal -> Reply JsVal) (put : string -> Reply JsVal)
  : World :=
  {| env := env w;
     localeCompare := localeCompare w;
     DescribeRegions := DescribeRegions w;
     DescribeCcns := DescribeCcns w;
     DescribePrivateZoneList := DescribePrivateZoneList w;
     other_unit := other_unit w;
     page_budget := page_budget w;
     getService := answer;
     getBucketTagging := tagging;
     putObject := put |}.

(** ** Claim-cursor worker pools *)


Section AccountVocabulary.

Context {Item Job Acc : Type}.
Variable work : list Item.
Variable spawn : Item -> list Job.
Variable settle : Job -> option (Acc -> Acc).

(** Every job of an item claimed so far has settled or is waited for. *)
Definition claimed_accounted (p : @Pool Item Job Acc) : Prop :=
  forall item job,
    In item (firstn (cursor p) work) -> In job (spawn item) ->
    settle job <> None
    \/ exists i x, nth_error (workers p) i = Some x /\ In job (pending x).

End AccountVocabulary.

(** ** Scanner units *)

(** [{ a: { b: v } }], by the names on the way. *)
Fixpoint nest (path : list string) (v : JsVal) : JsVal :=
  match path with
  | [] => v
  | k :: rest => JObj [(k, nest rest v)]
  end.

(** A listing operation in front of a fixed sequence: it answers a
    request with the slice asked for, under [path]. *)
Definition serving (path : list string) (backing : list JsVal)
    (req : JsVal) : Promise JsVal :=
  let* page := backed_by backing req in
  resolve (nest path (JArr (page_items page))).

(** An operation that answers every request alike. *)
Definition answering (p : Promise JsVal) (req : JsVal) : Promise JsVal := p.

(** ** An SDK to evaluate the units against *)

Definition no_credentials : Credentials :=
  {| ENV_SECRET_ID := JUndefined; ENV_SECRET_KEY := JUndefined;
     ENV_TOKEN := JUndefined |}.

Definition tag (key : string) : JsVal := JObj [("Key", JStr key)].

(** Three disks, the second one tagged. *)
Definition three_disks : list JsVal :=
  [ JObj [("DiskId", JStr "disk-1")];
    JObj [("DiskId", JStr "disk-2"); ("Tags", JArr [tag "team"])];
    JObj [("DiskId", JStr "disk-3"); ("Tags", JArr [])] ].

Definition one_cluster : list JsVal :=
  [ JObj [("ClusterId", JStr "cls-1")] ].

Definition refused : Promise JsVal :=
  Settles 7%N (Rejected (SdkError (JStr "AuthFailure"))).

(** An SDK that lacks the EMR module and in which the clients have no
    method to list notebooks, and whose serverless cluster listing is
    refused. *)
Definition sample_sdk : Sdk :=
  {| catalogue := fun svc _ => negb (svc =? "emr");
     method := fun client name =>
       if name =? "DescribeDisks" then Some (serving ["DiskSet"] three_disks)
       else if name =? "DescribeClusters"
            then Some (serving ["Clusters"] one_cluster)
       else if name =? "DescribeEKSClusters" then Some (answering refused)
       else None |}.

Definition cbs_plan : Plan :=
  plan "cbs" "v20170312" "cbs.tencentcloudapi.com" "DescribeDisks"
    [["DiskSet"]] "CBS" ["DiskId"].

Definition tione_plan : Plan :=
  lenient_plan "tione" "v20191022" "tione.tencentcloudapi.com"
    "DescribeNotebookInstances"
    [["NotebookInstanceSet"]; ["NotebookInstances"]] "TIONE"
    ["NotebookInstanceId"; "NotebookInstanceName"].

(** What the rows of the table of units have in common, read off the
    table: a row names at least one field to find its listing in, no
    path to a field is empty, and the label of its records is its key,
    but for [CYNOSDB], whose records go under [TDSQL_C]. *)
Definition well_formed_row (row : string * Plan) : bool :=
  match found_at (snd row) with
  | [] => false
  | paths => forallb (fun path => negb (Nat.eqb (List.length path) 0)) paths
  end
  && (label (snd row)
      =? (if fst row =? "CYNOSDB" then "TDSQL_C" else fst row))%string.
(* ================================================================== *)
(** * Properties *)

(* ================================================================== *)
(** ** TagClassifier *)

Lemma first_tags_find (candidates : list JsVal) :
  Forall (fun c => truthy c = true) candidates ->
  first_tags candidates = tags_of (find is_collection candidates).
Proof.
  induction 1 as [|c rest Hc _ IH]; [reflexivity|].
  destruct c; simpl in *; try discriminate; auto.
Qed.

Lemma filter_all {A} (f : A -> bool) (l : list A) :
  Forall (fun x => f x = true) (filter f l).
Proof.
  apply Forall_forall. intros x Hx. apply filter_In in Hx. tauto.
Qed.

(** Where the first truthy probe is itself an array or an object, the
    loop and the specification's wording agree. *)
Lemma extractTags_agrees_on_collections (obj c : JsVal) :
  find truthy (probes obj) = Some c -> is_collection c = true ->
  extractTags obj = extractTags_as_specified obj.
Proof.
  unfold extractTags, extractTags_as_specified. intros Hf Hc.
  destruct (truthy obj); cbn [negb]; [|reflexivity].
  rewrite Hf.
  assert (H : forall l, find truthy l = Some c ->
                        first_tags (filter truthy l) = tags_of (Some c)).
  { induction l as [|x l IH]; simpl; [discriminate|].
    destruct (truthy x) eqn:Hx.
    - intros [= ->]. destruct c; try discriminate; reflexivity.
    - auto. }
  rewrite (H _ Hf). destruct c; try discriminate; reflexivity.
Qed.

(** C3, as the specification words it, fails: a truthy probe that is
    neither an array nor an object is passed over, and the next candidate
    is returned, where the specification stops at it with an empty
    sequence.  Payload: [{ Tags: "x", TagSet: ["a"] }]. *)
Lemma extractTags_passes_over_scalars :
  let payload := JObj [("Tags", JStr "x"); ("TagSet", JArr [JStr "a"])] in
  extractTags payload = [JStr "a"]
  /\ extractTags_as_specified payload = []
  /\ extractTags payload <> extractTags_as_specified payload.
Proof.
  simpl. repeat split; try reflexivity. discriminate.
Qed.

(** C3 (amended): for a truthy payload [extractTags] returns, for the
    first of the truthy probes [Tags], [TagSet], [TagList], [ResourceTags],
    [Tags.TagSet] that is an array or an object, the array as it is or the
    object's keys, passing over truthy probes of any other kind, and the
    empty sequence when there is none or the payload is falsy; so
    [extractTags({Tags: {a: 1}}) = ["a"]] and [extractTags({}) = []]. *)
Theorem extractTags_first_collection :
  (forall obj,
      extractTags obj =
      if truthy obj
      then tags_of (find is_collection (filter truthy (probes obj)))
      else [])
  /\ extractTags (JObj [("Tags", JObj [("a", JNum 1)])]) = [JStr "a"]
  /\ extractTags (JObj []) = [].
Proof.
  split; [|split; reflexivity].
  intros obj. unfold extractTags.
  destruct (truthy obj); cbn [negb]; [|reflexivity].
  apply first_tags_find, filter_all.
Qed.

(** [hasNoTags] is true exactly when nothing is extracted. *)
Lemma hasNoTags_iff (obj : JsVal) :
  hasNoTags obj = true <-> extractTags obj = [].
Proof.
  unfold hasNoTags. destruct (extractTags obj); simpl; split;
    intros; try reflexivity; discriminate.
Qed.

(* ================================================================== *)
(** ** PaginatedFetcher *)

Lemma pagedFetch_loop_full_pages fetchPage pageSize ok lk within :
  full_pages fetchPage pageSize ok lk within ->
  forall fuel offset all,
    let run := pagedFetch_loop fuel fetchPage pageSize ok lk offset all in
    fetched run = None /\ List.length (requests run) = fuel.
Proof.
  intros Hfull. induction fuel as [|fuel IH]; intros offset all; simpl.
  - split; reflexivity.
  - destruct (Hfull offset) as (t & xs & -> & Hlen & _).
    unfold page_items; simpl. rewrite Hlen, Z.ltb_irrefl.
    destruct (IH (offset + pageSize)%Z (all ++ xs)) as [Hf Hr].
    simpl. rewrite Hf, Hr. split; reflexivity.
Qed.

Lemma request_offset (offset pageSize : Z) :
  get (page_request "Offset" "Limit" offset pageSize) "Offset" = JNum offset
  /\ get (page_request "Offset" "Limit" offset pageSize) "Limit"
     = JNum pageSize.
Proof. split; reflexivity. Qed.

Lemma backed_by_page (backing : list JsVal) (o ps : nat) :
  backed_by backing (page_request "Offset" "Limit" (Z.of_nat o) (Z.of_nat ps))
  = resolve {| items := Some (firstn ps (skipn o backing)) |}.
Proof.
  unfold backed_by.
  destruct (request_offset (Z.of_nat o) (Z.of_nat ps)) as [-> ->].
  cbn [num_of]. rewrite !Nat2Z.id. reflexivity.
Qed.

Lemma firstn_skipn_short {A} (n : nat) (l : list A) :
  (List.length (firstn n l) < n)%nat -> firstn n l = l.
Proof.
  intros H. apply firstn_all2. rewrite length_firstn in H. lia.
Qed.

Lemma firstn_add {A} (o n : nat) (l : list A) :
  firstn o l ++ firstn n (skipn o l) = firstn (o + n) l.
Proof.
  revert l. induction o as [|o IH]; intros l; simpl; [reflexivity|].
  destruct l; simpl.
  - rewrite firstn_nil. reflexivity.
  - rewrite IH. reflexivity.
Qed.

Lemma pagedFetch_loop_backed (backing : list JsVal) (ps : nat) :
  (0 < ps)%nat ->
  forall fuel o,
    (o <= List.length backing)%nat ->
    ((List.length backing - o) / ps < fuel)%nat ->
    let run := pagedFetch_loop fuel (backed_by backing) (Z.of_nat ps)
                 "Offset" "Limit" (Z.of_nat o) (firstn o backing) in
    fetched run = Some (resolve backing)
    /\ List.length (requests run) = S ((List.length backing - o) / ps).
Proof.
  intros Hps. induction fuel as [|fuel IH]; intros o Ho Hfuel; [lia|].
  cbn [pagedFetch_loop]. rewrite backed_by_page.
  cbn [resolve page_items items].
  set (page := firstn ps (skipn o backing)).
  assert (Hlen : List.length page = Nat.min ps (List.length backing - o)).
  { unfold page. rewrite length_firstn, length_skipn. reflexivity. }
  destruct (Z.ltb_spec (Z.of_nat (List.length page)) (Z.of_nat ps))
    as [Hlt|Hge].
  - cbn [fetched requests List.length]. split.
    + unfold resolve. do 3 f_equal.
      unfold page.
      rewrite (firstn_skipn_short ps (skipn o backing)) by (fold page; lia).
      apply firstn_skipn.
    + rewrite Nat.div_small by lia. reflexivity.
  - assert (Hrem : (ps <= List.length backing - o)%nat) by lia.
    unfold page. rewrite firstn_add.
    replace (Z.of_nat o + Z.of_nat ps)%Z with (Z.of_nat (o + ps)) by lia.
    assert (Hdiv : ((List.length backing - o) / ps
                    = S ((List.length backing - (o + ps)) / ps))%nat).
    { replace (List.length backing - o)%nat
        with ((List.length backing - (o + ps)) + 1 * ps)%nat by lia.
      rewrite Nat.div_add by lia. lia. }
    destruct (IH (o + ps)%nat) as [Hf Hr]; [lia|lia|].
    cbn [after_page fetched requests List.length].
    rewrite Hf, Hr, Hdiv. split; reflexivity.
Qed.

Lemma Shadowed_loop_full_pages env fetchPage pageSize ok lk :
  full_pages fetchPage pageSize ok lk (N.pred (parsedRequestTimeout env)) ->
  forall fuel pages offset all,
    (pages < parsedMaxPagesPerList env)%nat ->
    (parsedMaxPagesPerList env - pages <= fuel)%nat ->
    let run := Shadowed.pagedFetch_loop env fuel fetchPage pageSize ok lk
                 offset all pages in
    fetched run <> None
    /\ List.length (requests run) = (parsedMaxPagesPerList env - pages)%nat.
Proof.
  intros Hfull.
  assert (Hms : (2000 <= parsedRequestTimeout env)%N).
  { unfold parsedRequestTimeout. lia. }
  induction fuel as [|fuel IH]; intros pages offset all Hp Hf; [lia|].
  cbn [Shadowed.pagedFetch_loop].
  destruct (Hfull offset) as (t & xs & -> & Hlen & Ht).
  unfold withTimeout.
  destruct (N.ltb_spec t (parsedRequestTimeout env)) as [_|Hbad]; [|lia].
  unfold page_items; cbn [items]. rewrite Hlen, Z.ltb_irrefl.
  destruct (Nat.leb_spec (parsedMaxPagesPerList env) (S pages)) as [Hcap|Hmore].
  - cbn [fetched requests List.length]. split; [discriminate|lia].
  - destruct (IH (S pages) (offset + pageSize)%Z (all ++ xs)) as [Hfe Hr];
      [lia|lia|].
    cbn [after_page fetched requests List.length]. rewrite Hr. split; [|lia].
    destruct (fetched _); [discriminate|congruence].
Qed.

(** The shadowed declaration does stop at the cap. *)
Lemma Shadowed_pagedFetch_stops_within env fetchPage pageSize start ok lk :
  full_pages fetchPage pageSize ok lk (N.pred (parsedRequestTimeout env)) ->
  stops_within (parsedMaxPagesPerList env)
    (fun fuel =>
       Shadowed.pagedFetch_with env fuel fetchPage pageSize start ok lk).
Proof.
  intros Hfull. exists (parsedMaxPagesPerList env).
  assert (Hmax : (1 <= parsedMaxPagesPerList env)%nat).
  { unfold parsedMaxPagesPerList. lia. }
  destruct (Shadowed_loop_full_pages env fetchPage pageSize ok lk Hfull
              (parsedMaxPagesPerList env) 0 start []) as [Hf Hr]; [lia|lia|].
  unfold Shadowed.pagedFetch_with. split; [exact Hf|]. rewrite Hr. lia.
Qed.

Lemma always_full_pages (pageSize : nat) :
  full_pages always_full (Z.of_nat pageSize) "Offset" "Limit" 0.
Proof.
  intros offset. exists 0%N, (repeat JNull pageSize).
  unfold always_full.
  destruct (request_offset offset (Z.of_nat pageSize)) as [_ ->].
  cbn [num_of]. rewrite Nat2Z.id, repeat_length. repeat split. lia.
Qed.

(** C1, as stated, fails with [MAX_PAGES_PER_LIST=2] and page size 2: on a
    backing sequence of four items the call issues a third request, and on
    a backend whose pages are always full it never comes to an end. *)
Lemma pagedFetch_runs_past_the_cap :
  parsedMaxPagesPerList (env_of_cap 2) = 2%nat
  /\ ~ stops_within (parsedMaxPagesPerList (env_of_cap 2))
        (fun fuel =>
           pagedFetch_with fuel (backed_by four_items) 2 0 "Offset" "Limit")
  /\ ~ stops_within (parsedMaxPagesPerList (env_of_cap 2))
        (fun fuel => pagedFetch_with fuel always_full 2 0 "Offset" "Limit").
Proof.
  split; [reflexivity|]. split.
  - intros (fuel & Hend & Hreq).
    destruct fuel as [|[|[|fuel]]];
      try (apply Hend; reflexivity).
    vm_compute in Hreq. lia.
  - intros (fuel & Hend & _). apply Hend.
    apply (pagedFetch_loop_full_pages always_full 2 "Offset" "Limit" 0%N
             (always_full_pages 2) fuel 0%Z []).
Qed.

(** C1 (amended): the [pagedFetch] in effect has no page cap; it ends
    only on a page with fewer than [pageSize] items (or on a page fetch
    that fails).  When every page is full it goes on issuing requests, one
    per iteration, without ever returning; on a finite backing sequence
    and a positive page size it returns the whole sequence after
    [length / pageSize + 1] requests, hence after [n + 1] requests when
    the sequence has exactly [pageSize * n] items. *)
Theorem pagedFetch_ends_only_on_a_short_page :
  (forall fetchPage pageSize startOffset offsetKey limitKey within fuel,
      full_pages fetchPage pageSize offsetKey limitKey within ->
      let run := pagedFetch_with fuel fetchPage pageSize startOffset
                   offsetKey limitKey in
      fetched run = None /\ List.length (requests run) = fuel)
  /\ (forall backing pageSize fuel,
         (0 < pageSize)%nat ->
         (List.length backing / pageSize < fuel)%nat ->
         let run := pagedFetch_with fuel (backed_by backing)
                      (Z.of_nat pageSize) 0 "Offset" "Limit" in
         fetched run = Some (resolve backing)
         /\ List.length (requests run) = S (List.length backing / pageSize)
         /\ (forall n, List.length backing = (pageSize * n)%nat ->
                       List.length (requests run) = S n)).
Proof.
  split.
  - intros fetchPage pageSize startOffset ok lk within fuel Hfull.
    apply (pagedFetch_loop_full_pages _ _ _ _ _ Hfull).
  - intros backing pageSize fuel Hps Hfuel.
    destruct (pagedFetch_loop_backed backing pageSize Hps fuel 0) as [Hf Hr];
      [lia|rewrite Nat.sub_0_r; exact Hfuel|].
    rewrite Nat.sub_0_r in Hr. cbn [firstn Z.of_nat] in Hf, Hr.
    unfold pagedFetch_with. cbv zeta. repeat split; try assumption.
    intros n Hn. rewrite Hr, Hn, Nat.mul_comm, Nat.div_mul by lia.
    reflexivity.
Qed.

(** Five items in pages of two: three page requests, all five items in
    their order. *)
Example pagedFetch_five_items :
  let five := [JNum 1; JNum 2; JNum 3; JNum 4; JNum 5] in
  let run := pagedFetch_with 9 (backed_by five) 2 0 "Offset" "Limit" in
  fetched run = Some (resolve five)
  /\ map (fun req => get req "Offset") (requests run)
     = [JNum 0; JNum 2; JNum 4].
Proof. split; reflexivity. Qed.

Lemma pagedFetch_ends_only_on_a_short_page_witness :
  (fetched (pagedFetch_with 7 always_full 2 0 "Offset" "Limit") = None
   /\ List.length (requests (pagedFetch_with 7 always_full 2 0
                               "Offset" "Limit")) = 7%nat)
  /\ fetched (pagedFetch_with 5 (backed_by four_items) 2 0 "Offset" "Limit")
     = Some (resolve four_items)
  /\ List.length (requests (pagedFetch_with 5 (backed_by four_items) 2 0
                              "Offset" "Limit")) = 3%nat.
Proof.
  destruct pagedFetch_ends_only_on_a_short_page as [Hfull Hbacked]. split.
  - exact (Hfull always_full 2%Z 0%Z "Offset" "Limit" 0%N 7%nat
             (always_full_pages 2)).
  - destruct (Hbacked four_items 2%nat 5%nat) as (Hf & _ & Hn);
      [lia|simpl; lia|].
    split; [exact Hf|]. exact (Hn 2%nat eq_refl).
Defined.

(* ================================================================== *)
(** ** RegionResolver *)

Lemma strict_eq_sym (a b : JsVal) : strict_eq a b = strict_eq b a.
Proof.
  destruct a, b; simpl; try reflexivity.
  - destruct b, b0; reflexivity.
  - apply Z.eqb_sym.
  - apply String.eqb_sym.
Qed.

Lemma dedupe_from_distinct (xs seen : list JsVal) :
  distinct (dedupe_from seen xs)
  /\ Forall (fun y => existsb (strict_eq y) seen = false)
            (dedupe_from seen xs).
Proof.
  revert seen. induction xs as [|x xs IH]; intros seen; simpl.
  - split; constructor.
  - destruct (existsb (strict_eq x) seen) eqn:Hseen; [apply IH|].
    destruct (IH (x :: seen)) as [Hd Hf]. split.
    + constructor; [|exact Hd].
      eapply Forall_impl; [|exact Hf]. simpl. intros y Hy.
      apply orb_false_elim in Hy. rewrite strict_eq_sym. tauto.
    + constructor; [exact Hseen|].
      eapply Forall_impl; [|exact Hf]. simpl. intros y Hy.
      apply orb_false_elim in Hy. tauto.
Qed.

Lemma dedupe_distinct (xs : list JsVal) : distinct (dedupe xs).
Proof. apply dedupe_from_distinct. Qed.

Lemma dedupe_from_incl (xs seen : list JsVal) :
  incl (dedupe_from seen xs) xs.
Proof.
  revert seen. induction xs as [|x xs IH]; intros seen; simpl.
  - apply incl_refl.
  - destruct (existsb (strict_eq x) seen).
    + apply incl_tl, IH.
    + apply incl_cons; [left; reflexivity|apply incl_tl, IH].
Qed.

(** C9: the override path of the resolver of the full script leaves out
    the deduplication that the discovery path of the same function
    applies.  With [SCAN_REGIONS = "r1,r1"] the resolver returns the
    region twice, where the resolver as specified returns it once, and
    where the discovery path, given a describe-regions answer that names
    the region twice, returns it once as well. *)
Lemma override_is_not_deduplicated :
  let w := silent_world (env_of (Some "r1,r1") None false) in
  let discovering :=
    with_regions (silent_world (env_of None None false))
      (Settles 40%N (Fulfilled
         (JObj [("RegionSet",
                 JArr [region_entry "r1"; region_entry "r1"])]))) in
  resolved (Scan.listAllRegions w) = resolve [JStr "r1"; JStr "r1"]
  /\ resolved (Scan.listAllRegions_as_specified w) = resolve [JStr "r1"]
  /\ Scan.listAllRegions w <> Scan.listAllRegions_as_specified w
  /\ resolved (Scan.listAllRegions discovering)
     = Settles 40%N (Fulfilled [JStr "r1"]).
Proof.
  cbv zeta. split; [reflexivity|]. split; [reflexivity|].
  split; [discriminate|]. reflexivity.
Qed.

(** An override that holds nothing but white space, the no-break space
    included, is no override: the resolver takes the discovery path. *)
Example blank_override_is_no_override :
  let blank := String (ascii_of_nat 160) (String (ascii_of_nat 32) "") in
  trim blank = ""
  /\ override (env_of (Some blank) None false) = None
  /\ describe_calls
       (Scan.listAllRegions (silent_world (env_of (Some blank) None false)))
     = 1%nat.
Proof. repeat split. Qed.

(** What the resolvers do: with a non-blank override the resolver of the
    full script returns the override split on commas, each entry trimmed
    and the empty entries dropped, in order, and issues no describe-regions
    call; the entries are not deduplicated.  Without an override it issues
    exactly one such call, under the request timeout, and returns the
    truthy region codes of the answer with repetitions removed.  The
    resolver of [index.js] has no override and always takes the second
    path, without the timeout. *)
Theorem listAllRegions_resolution :
  (forall w s,
      override (env w) = Some s ->
      Scan.listAllRegions w =
      {| describe_calls := 0;
         resolved :=
           resolve (map JStr (filter nonempty (map trim (split "," s)))) |})
  /\ (forall w t res rs,
         override (env w) = None ->
         DescribeRegions w = Settles t (Fulfilled res) ->
         (t < parsedRequestTimeout (env w))%N ->
         nullish res = false ->
         get res "RegionSet" = JArr rs ->
         existsb nullish rs = false ->
         let codes :=
           dedupe (filter truthy (map (fun r => get r "Region") rs)) in
         describe_calls (Scan.listAllRegions w) = 1%nat
         /\ resolved (Scan.listAllRegions w) = Settles t (Fulfilled codes)
         /\ distinct codes)
  /\ (forall w t res rs,
         DescribeRegions w = Settles t (Fulfilled res) ->
         nullish res = false ->
         get res "RegionSet" = JArr rs ->
         existsb nullish rs = false ->
         let codes :=
           dedupe (filter truthy (map (fun r => get r "Region") rs)) in
         describe_calls (Index.listAllRegions w) = 1%nat
         /\ resolved (Index.listAllRegions w) = Settles t (Fulfilled codes)
         /\ distinct codes).
Proof.
  split; [|split].
  - intros w s Hov. unfold Scan.listAllRegions. rewrite Hov. reflexivity.
  - intros w t res rs Hov Hd Ht Hres Hset Hrs codes.
    unfold Scan.listAllRegions. rewrite Hov. cbn [describe_calls resolved].
    rewrite Hd. unfold withTimeout.
    destruct (N.ltb_spec t (parsedRequestTimeout (env w))) as [_|Hbad];
      [|lia].
    unfold await, region_codes, or_else. rewrite Hres, Hset.
    cbn [truthy]. rewrite Hrs. cbn [of_outcome delay].
    rewrite N.add_0_r. repeat split. apply dedupe_distinct.
  - intros w t res rs Hd Hres Hset Hrs codes.
    unfold Index.listAllRegions. cbn [describe_calls resolved].
    rewrite Hd. unfold await, region_codes, or_else. rewrite Hres, Hset.
    cbn [truthy]. rewrite Hrs. cbn [of_outcome delay].
    rewrite N.add_0_r. repeat split. apply dedupe_distinct.
Qed.

Lemma listAllRegions_resolution_witness :
  let answer :=
    Settles 40%N (Fulfilled
      (JObj [("RegionSet",
              JArr [region_entry "r1"; region_entry "r2";
                    region_entry "r1"])])) in
  let discovering :=
    with_regions (silent_world (env_of None None false)) answer in
  Scan.listAllRegions
    (silent_world (env_of (Some " r1 , r2,,r1 ") None false))
  = {| describe_calls := 0;
       resolved := resolve [JStr "r1"; JStr "r2"; JStr "r1"] |}
  /\ resolved (Scan.listAllRegions discovering)
     = Settles 40%N (Fulfilled [JStr "r1"; JStr "r2"])
  /\ resolved (Index.listAllRegions discovering)
     = Settles 40%N (Fulfilled [JStr "r1"; JStr "r2"]).
Proof.
  intros answer discovering.
  destruct listAllRegions_resolution as (Hov & Hscan & Hidx).
  split; [|split].
  - exact (Hov (silent_world (env_of (Some " r1 , r2,,r1 ") None false))
               " r1 , r2,,r1 " eq_refl).
  - assert (Ht : (40 < parsedRequestTimeout (env discovering))%N)
      by reflexivity.
    exact (proj1 (proj2 (Hscan discovering 40%N _
                           [region_entry "r1"; region_entry "r2";
                            region_entry "r1"]
                           eq_refl eq_refl Ht eq_refl eq_refl eq_refl))).
  - exact (proj1 (proj2 (Hidx discovering 40%N _
                           [region_entry "r1"; region_entry "r2";
                            region_entry "r1"]
                           eq_refl eq_refl eq_refl eq_refl))).
Defined.

(* ================================================================== *)
(** ** ResultAggregator *)

Section Sorting.

Context {A : Type}.
Variable cmp : A -> A -> comparison.

Lemma insert_sorted_perm (x : A) (l : list A) :
  Permutation (x :: l) (insert_sorted cmp x l).
Proof.
  induction l as [|y l IH]; simpl; [reflexivity|].
  destruct (cmp x y); try reflexivity.
  etransitivity; [apply perm_swap|]. apply perm_skip, IH.
Qed.

Lemma sort_perm (l : list A) : Permutation l (sort cmp l).
Proof.
  induction l as [|x l IH]; simpl; [reflexivity|].
  etransitivity; [apply perm_skip, IH|]. apply insert_sorted_perm.
Qed.

Hypothesis cmp_consistent : consistent cmp.

Lemma consistent_refl (a : A) : cmp a a = Eq.
Proof.
  destruct cmp_consistent as [Hanti _].
  specialize (Hanti a a). destruct (cmp a a); simpl in Hanti; congruence.
Qed.

Lemma consistent_flip (a b : A) : cmp a b = Gt -> cmp b a <> Gt.
Proof.
  destruct cmp_consistent as [Hanti _].
  intros H. rewrite Hanti, H. discriminate.
Qed.

Lemma insert_sorted_sorted (x : A) (l : list A) :
  StronglySorted (fun a b => cmp a b <> Gt) l ->
  StronglySorted (fun a b => cmp a b <> Gt) (insert_sorted cmp x l).
Proof.
  destruct cmp_consistent as [_ Htrans].
  induction 1 as [|y l Hs IH Hall]; simpl.
  - constructor; constructor.
  - destruct (cmp x y) eqn:Hxy.
    + constructor; [constructor; assumption|].
      constructor; [congruence|].
      eapply Forall_impl; [|exact Hall]. intros z Hz.
      apply (Htrans x y z); congruence.
    + constructor; [constructor; assumption|].
      constructor; [congruence|].
      eapply Forall_impl; [|exact Hall]. intros z Hz.
      apply (Htrans x y z); congruence.
    + constructor; [exact IH|].
      assert (Hin : Forall (fun z => cmp y z <> Gt) (x :: l)).
      { constructor; [apply consistent_flip; exact Hxy|exact Hall]. }
      eapply Permutation_Forall; [apply insert_sorted_perm|exact Hin].
Qed.

Lemma sort_sorted (l : list A) :
  StronglySorted (fun a b => cmp a b <> Gt) (sort cmp l).
Proof.
  induction l as [|x l IH]; simpl; [constructor|].
  apply insert_sorted_sorted, IH.
Qed.

End Sorting.

Lemma lex_consistent {A} (f g : A -> A -> comparison) :
  consistent f -> consistent g -> consistent (lex f g).
Proof.
  intros [Hfa Hft] [Hga Hgt]. split.
  - intros a b. unfold lex. rewrite (Hfa a b), (Hga a b).
    destruct (f a b); reflexivity.
  - intros a b c. unfold lex. intros Hab Hbc.
    assert (Hfab : f a b <> Gt) by (destruct (f a b); congruence).
    assert (Hfbc : f b c <> Gt) by (destruct (f b c); congruence).
    pose proof (Hft a b c Hfab Hfbc) as Hfac.
    destruct (f a c) eqn:Eac; try congruence.
    assert (Hca : f c a <> Gt) by (rewrite (Hfa a c), Eac; discriminate).
    assert (Eab : f a b = Eq).
    { destruct (f a b) eqn:E; try congruence. exfalso.
      apply (Hft b c a Hfbc Hca). rewrite (Hfa a b), E. reflexivity. }
    assert (Ebc : f b c = Eq).
    { destruct (f b c) eqn:E; try congruence. exfalso.
      apply (Hft c a b Hca Hfab). rewrite (Hfa b c), E. reflexivity. }
    rewrite Eab in Hab. rewrite Ebc in Hbc. apply (Hgt a b c); assumption.
Qed.

Lemma consistent_on {A B} (key : A -> B) (cmp : B -> B -> comparison) :
  consistent cmp -> consistent (fun a b => cmp (key a) (key b)).
Proof.
  intros [Ha Ht]. split.
  - intros a b. apply Ha.
  - intros a b c. apply Ht.
Qed.

Lemma compareRecords_consistent (lc : string -> string -> comparison) :
  consistent lc -> consistent (compareRecords lc).
Proof.
  intros H.
  change (compareRecords lc)
    with (lex (fun a b => lc (String_ (region a)) (String_ (region b)))
            (lex (fun a b => lc (String_ (service a)) (String_ (service b)))
                 (fun a b => lc (String_ (id a)) (String_ (id b))))).
  repeat apply lex_consistent;
    apply (consistent_on (fun r => String_ (_ r)) lc H).
Qed.

(** The code-unit order of the standard library is one such collation. *)
Lemma ascii_compare_trans (a b c : ascii) :
  Ascii.compare a b <> Gt -> Ascii.compare b c <> Gt ->
  Ascii.compare a c <> Gt.
Proof.
  unfold Ascii.compare. rewrite !N.compare_gt_iff. lia.
Qed.

Lemma string_compare_consistent : consistent String.compare.
Proof.
  split.
  - intros a b. apply String.compare_antisym.
  - induction a as [|x a IH]; intros [|y b] [|z c]; simpl;
      try congruence.
    intros Hab Hbc.
    destruct (Ascii.compare x y) eqn:Exy; try congruence;
      destruct (Ascii.compare y z) eqn:Eyz; try congruence.
    + apply Ascii.compare_eq_iff in Exy, Eyz. subst.
      rewrite (proj2 (N.compare_eq_iff _ _) eq_refl : Ascii.compare z z = Eq).
      apply (IH b c); assumption.
    + apply Ascii.compare_eq_iff in Exy. subst. rewrite Eyz. discriminate.
    + apply Ascii.compare_eq_iff in Eyz. subst. rewrite Exy. discriminate.
    + assert (H : Ascii.compare x z = Lt).
      { unfold Ascii.compare in *. rewrite N.compare_lt_iff in *. lia. }
      rewrite H. discriminate.
Qed.

(* ================================================================== *)
(** ** Claim-cursor worker pools *)

Lemma nth_error_set_nth {A} (n : nat) (x : A) (l : list A) :
  (n < List.length l)%nat -> nth_error (set_nth n x l) n = Some x.
Proof.
  revert n. induction l as [|y l IH]; intros [|n] H; simpl in *;
    try lia; [reflexivity|]. apply IH. lia.
Qed.

Lemma length_set_nth {A} (n : nat) (x : A) (l : list A) :
  List.length (set_nth n x l) = List.length l.
Proof.
  revert n. induction l as [|y l IH]; intros [|n]; simpl; auto.
Qed.

Lemma in_set_nth {A} (n : nat) (x y : A) (l : list A) :
  In y (set_nth n x l) -> y = x \/ In y l.
Proof.
  revert n. induction l as [|z l IH]; intros [|n]; simpl; try tauto.
  - intros [H|H]; auto.
  - intros [H|H]; auto. destruct (IH _ H); auto.
Qed.

(** Replacing an entry trades its share of a sum for the new one's. *)
Lemma list_sum_set_nth {A} (f : A -> nat) (n : nat) (x old : A)
    (l : list A) :
  nth_error l n = Some old ->
  (list_sum (map f (set_nth n x l)) + f old
   = list_sum (map f l) + f x)%nat.
Proof.
  revert n. induction l as [|y l IH]; intros [|n]; simpl; try discriminate.
  - intros [= ->]. lia.
  - intros H. specialize (IH _ H). lia.
Qed.

Lemma list_sum_cons (a : nat) (l : list nat) :
  list_sum (a :: l) = (a + list_sum l)%nat.
Proof. reflexivity. Qed.

Lemma length_drop_nth {A} (n : nat) (x : A) (l : list A) :
  nth_error l n = Some x -> S (List.length (drop_nth n l)) = List.length l.
Proof.
  revert n. induction l as [|y l IH]; intros [|n]; simpl; try discriminate.
  - reflexivity.
  - intros H. rewrite (IH _ H). reflexivity.
Qed.

Lemma skipn_nth_error {A} (n : nat) (x : A) (l : list A) :
  nth_error l n = Some x -> skipn n l = x :: skipn (S n) l.
Proof.
  revert n. induction l as [|y l IH]; intros [|n]; simpl; try discriminate.
  - intros [= ->]. reflexivity.
  - intros H. apply (IH _ H).
Qed.

Lemma firstn_nth_error {A} (n : nat) (x : A) (l : list A) :
  nth_error l n = Some x -> firstn (S n) l = firstn n l ++ [x].
Proof.
  revert n. induction l as [|y l IH]; intros [|n]; simpl; try discriminate.
  - intros [= ->]. reflexivity.
  - intros H. f_equal. apply (IH _ H).
Qed.

Lemma Forall_set_nth {A} (P : A -> Prop) (n : nat) (x : A) (l : list A) :
  Forall P l -> P x -> Forall P (set_nth n x l).
Proof.
  intros Hl Hx. revert n. induction Hl as [|y l Hy Hl IH]; intros [|n];
    simpl; constructor; auto.
Qed.

Lemma nth_error_set_nth_other {A} (n m : nat) (x : A) (l : list A) :
  n <> m -> nth_error (set_nth n x l) m = nth_error l m.
Proof.
  revert n m. induction l as [|y l IH]; intros [|n] [|m] H; simpl; auto;
    congruence.
Qed.

Lemma in_drop_nth {A} (n : nat) (y : A) (l : list A) :
  In y (drop_nth n l) -> In y l.
Proof.
  revert n. induction l as [|z l IH]; intros [|n]; simpl; auto.
  intros [H|H]; eauto.
Qed.

Lemma in_dropped_or_kept {A} (n : nat) (x y : A) (l : list A) :
  nth_error l n = Some x -> In y l -> y = x \/ In y (drop_nth n l).
Proof.
  revert n. induction l as [|z l IH]; intros [|n]; simpl; try discriminate.
  - intros [= ->] [H|H]; auto.
  - intros Hn [H|H]; [right; left; exact H|].
    destruct (IH _ Hn H); auto.
Qed.

Section PoolFacts.

Context {Item Job Acc : Type}.
Variable work : list Item.
Variable spawn : Item -> list Job.
Variable settle : Job -> option (Acc -> Acc).

Local Abbreviation step := (pool_step work spawn settle).
Local Abbreviation reachable := (reaches work spawn settle).

Lemma step_inv (c : nat * nat) (p q : @Pool Item Job Acc) :
  step c p = Some q -> step_kind work spawn settle p q.
Proof.
  destruct c as [w j]. unfold pool_step.
  destruct (nth_error (workers p) w) as [[|jobs|]|] eqn:Hw; try discriminate.
  - destruct (nth_error work (cursor p)) as [x|] eqn:Hx; intros [= <-].
    + eapply claim_step; eauto.
    + eapply exit_step; eauto.
  - destruct jobs as [|job0 jobs'].
    + intros [= <-]. eapply loop_step; eauto.
    + destruct (nth_error (job0 :: jobs') j) as [job|] eqn:Hj;
        try discriminate.
      destruct (settle job) as [effect|] eqn:Hs; try discriminate.
      intros [= <-]. eapply settle_step; eauto.
Qed.

Lemma cursor_inv_step (p q : @Pool Item Job Acc) :
  step_kind work spawn settle p q ->
  cursor_inv work p -> cursor_inv work q.
Proof.
  intros Hstep (Hle & Hidx & Hitems & Hexit).
  destruct Hstep
    as [w x Hw Hx ->|w Hw Hx ->|w Hw ->|w j jobs job e Hw Hj He ->];
    unfold cursor_inv; cbn [cursor claims workers].
  - assert (Hlt : (cursor p < List.length work)%nat).
    { apply nth_error_Some. congruence. }
    repeat split.
    + lia.
    + rewrite map_app, Hidx, seq_S. reflexivity.
    + rewrite map_app, Hitems, (firstn_nth_error _ _ _ Hx). reflexivity.
    + intros Hin. apply in_set_nth in Hin.
      destruct Hin as [Hin|Hin]; [discriminate|]. specialize (Hexit Hin). lia.
  - apply nth_error_None in Hx. repeat split; auto.
  - repeat split; auto. intros Hin. apply in_set_nth in Hin.
    destruct Hin as [Hin|Hin]; [discriminate|auto].
  - repeat split; auto. intros Hin. apply in_set_nth in Hin.
    destruct Hin as [Hin|Hin]; [discriminate|auto].
Qed.

Lemma cursor_inv_start (concurrency : nat) (acc0 : Acc) :
  cursor_inv work (start_pool (Job := Job) work concurrency acc0).
Proof.
  unfold cursor_inv, start_pool; cbn [cursor claims workers].
  repeat split; try lia.
  intros Hin. apply repeat_spec in Hin. discriminate.
Qed.

Lemma cursor_inv_reachable (p q : @Pool Item Job Acc) :
  reachable p q -> cursor_inv work p -> cursor_inv work q.
Proof.
  induction 1 as [|q c r _ IH Hstep]; [auto|].
  intros Hp. apply (cursor_inv_step q r); [eapply step_inv; eauto|auto].
Qed.

Lemma workers_count_reachable (p q : @Pool Item Job Acc) :
  reachable p q -> List.length (workers q) = List.length (workers p).
Proof.
  induction 1 as [|q c r _ IH Hstep]; [reflexivity|].
  rewrite <- IH. apply step_inv in Hstep.
  destruct Hstep as [? ? _ _ ->|? _ _ ->|? _ ->|? ? ? ? ? _ _ _ ->];
    cbn [workers]; apply length_set_nth.
Qed.

(** Whatever the jobs preserve holds of the accumulator throughout. *)
Lemma acc_inv_reachable (I : Acc -> Prop) (p q : @Pool Item Job Acc) :
  (forall job effect a, settle job = Some effect -> I a -> I (effect a)) ->
  reachable p q -> I (acc p) -> I (acc q).
Proof.
  intros Hpres. induction 1 as [|q c r _ IH Hstep]; [auto|].
  intros Hp. specialize (IH Hp). apply step_inv in Hstep.
  destruct Hstep as [? ? _ _ ->|? _ _ ->|? _ ->|? ? ? ? ? _ _ He ->];
    cbn [acc]; eauto.
Qed.

(** Every step uses up some of [steps_left]. *)
Lemma step_decreases (c : nat * nat) (p q : @Pool Item Job Acc) :
  step c p = Some q ->
  (steps_left work spawn q < steps_left work spawn p)%nat.
Proof.
  intros Hstep. apply step_inv in Hstep. unfold steps_left.
  destruct Hstep
    as [w x Hw Hx ->|w Hw Hx ->|w Hw ->|w j jobs job e Hw Hj He ->];
    cbn [cursor workers].
  - rewrite (skipn_nth_error _ _ _ Hx). cbn [map]. rewrite list_sum_cons.
    pose proof (list_sum_set_nth weight w (Awaiting (spawn x)) _ _ Hw) as H.
    cbn [weight] in H. lia.
  - pose proof (list_sum_set_nth weight w Exited _ _ Hw) as H.
    cbn [weight] in H. lia.
  - pose proof (list_sum_set_nth weight w AtLoopHead _ _ Hw) as H.
    cbn [weight List.length] in H. lia.
  - pose proof (list_sum_set_nth weight w (Awaiting (drop_nth j jobs)) _ _ Hw)
      as H.
    pose proof (length_drop_nth _ _ _ Hj) as Hd.
    cbn [weight] in H. lia.
Qed.

Lemma first_settling_sound (jobs : list Job) (k j : nat) :
  first_settling settle jobs k = Some j ->
  (k <= j)%nat /\ exists job effect,
    nth_error jobs (j - k) = Some job /\ settle job = Some effect.
Proof.
  revert k. induction jobs as [|job jobs IH]; intros k; simpl;
    [discriminate|].
  destruct (settle job) as [effect|] eqn:Hs.
  - intros [= <-]. split; [lia|]. rewrite Nat.sub_diag.
    exists job, effect. split; [reflexivity|exact Hs].
  - intros H. destruct (IH _ H) as (Hle & job' & e & Hn & He).
    split; [lia|]. exists job', e. split; [|exact He].
    replace (j - k)%nat with (S (j - S k)) by lia. exact Hn.
Qed.

Lemma first_settling_none (jobs : list Job) (k : nat) :
  first_settling settle jobs k = None ->
  Forall (fun job => settle job = None) jobs.
Proof.
  revert k. induction jobs as [|job jobs IH]; intros k; simpl;
    [constructor|].
  destruct (settle job) eqn:Hs; [discriminate|].
  intros H. constructor; eauto.
Qed.

Lemma find_ready_sound (ws : list Worker) (k w j : nat) :
  find_ready settle ws k = Some (w, j) ->
  (k <= w)%nat /\
  match nth_error ws (w - k) with
  | Some AtLoopHead | Some (Awaiting []) => True
  | Some (Awaiting jobs) =>
      exists job effect, nth_error jobs j = Some job
                         /\ settle job = Some effect
  | _ => False
  end.
Proof.
  revert k. induction ws as [|x ws IH]; intros k; simpl; [discriminate|].
  assert (Hnext : find_ready settle ws (S k) = Some (w, j) ->
                  (k <= w)%nat /\
                  match nth_error (x :: ws) (w - k) with
                  | Some AtLoopHead | Some (Awaiting []) => True
                  | Some (Awaiting jobs) =>
                      exists job effect, nth_error jobs j = Some job
                                         /\ settle job = Some effect
                  | _ => False
                  end).
  { intros H. destruct (IH _ H) as [Hle Hn]. split; [lia|].
    replace (w - k)%nat with (S (w - S k)) by lia. exact Hn. }
  destruct x as [|jobs|].
  - intros [= <- <-]. rewrite Nat.sub_diag. simpl. auto.
  - destruct jobs as [|job jobs].
    + intros [= <- <-]. rewrite Nat.sub_diag. simpl. auto.
    + destruct (first_settling settle (job :: jobs) 0) as [j'|] eqn:Hf.
      * intros [= <- <-]. rewrite Nat.sub_diag. split; [lia|].
        cbn [nth_error].
        destruct (first_settling_sound _ _ _ Hf) as (_ & job' & e & Hn & He).
        rewrite Nat.sub_0_r in Hn. exists job', e. split; assumption.
      * exact Hnext.
  - exact Hnext.
Qed.

Lemma find_ready_none (ws : list Worker) (k : nat) :
  find_ready settle ws k = None -> Forall (stuck settle) ws.
Proof.
  revert k. induction ws as [|x ws IH]; intros k; simpl; [constructor|].
  destruct x as [|jobs|]; try discriminate.
  - destruct jobs as [|job jobs]; [discriminate|].
    destruct (first_settling settle (job :: jobs) 0) eqn:Hf; [discriminate|].
    intros H. constructor; [|eauto].
    split; [discriminate|]. eapply first_settling_none; eauto.
  - intros H. constructor; [exact I|eauto].
Qed.

(** The step [next_choice] proposes can be taken. *)
Lemma next_choice_steps (p : @Pool Item Job Acc) (c : nat * nat) :
  next_choice settle p = Some c -> exists q, step c p = Some q.
Proof.
  destruct c as [w j]. unfold next_choice. intros H.
  destruct (find_ready_sound _ _ _ _ H) as [_ Hn].
  rewrite Nat.sub_0_r in Hn. unfold pool_step.
  destruct (nth_error (workers p) w) as [[|jobs|]|]; try contradiction.
  - destruct (nth_error work (cursor p)); eauto.
  - destruct jobs as [|job jobs]; [eauto|].
    destruct Hn as (job' & e & -> & ->). eauto.
Qed.

Lemma run_pool_reachable (fuel : nat) (sched : @Pool Item Job Acc -> nat * nat)
    (p : @Pool Item Job Acc) :
  reachable p (run_pool work spawn settle fuel sched p).
Proof.
  assert (Htrans : forall a b c, reachable a b -> reachable b c
                                 -> reachable a c).
  { intros a b c Hab Hbc. induction Hbc; [exact Hab|].
    eapply reaches_step; eauto. }
  revert p. induction fuel as [|fuel IH]; intros p; simpl;
    [apply reaches_refl|].
  destruct (step (sched p) p) as [q|] eqn:Hs.
  - eapply Htrans; [|apply IH].
    eapply reaches_step; [apply reaches_refl|exact Hs].
  - destruct (next_choice settle p) as [c|]; [|apply reaches_refl].
    destruct (step c p) as [q|] eqn:Hc; [|apply reaches_refl].
    eapply Htrans; [|apply IH].
    eapply reaches_step; [apply reaches_refl|exact Hc].
Qed.

(** With fuel for [steps_left] steps a run ends where nothing can move. *)
Lemma run_pool_ends (fuel : nat) (sched : @Pool Item Job Acc -> nat * nat)
    (p : @Pool Item Job Acc) :
  (steps_left work spawn p <= fuel)%nat ->
  next_choice settle (run_pool work spawn settle fuel sched p) = None.
Proof.
  revert p. induction fuel as [|fuel IH]; intros p Hfuel; simpl.
  - destruct (next_choice settle p) as [c|] eqn:Hc; [|reflexivity].
    destruct (next_choice_steps _ _ Hc) as [q Hq].
    apply step_decreases in Hq. lia.
  - destruct (step (sched p) p) as [q|] eqn:Hs.
    + apply IH. apply step_decreases in Hs. lia.
    + destruct (next_choice settle p) as [c|] eqn:Hc; [|exact Hc].
      destruct (next_choice_steps _ _ Hc) as [q Hq]. rewrite Hq.
      apply IH. apply step_decreases in Hq. lia.
Qed.

(** When every job settles, a run ends with every worker gone. *)
Lemma pool_outcome_all_exited (concurrency : nat) (acc0 : Acc)
    (sched : @Pool Item Job Acc -> nat * nat) :
  (forall job, settle job <> None) ->
  all_exited (pool_outcome work spawn settle concurrency acc0 sched) = true.
Proof.
  intros Hsettle. unfold pool_outcome.
  pose proof (run_pool_ends _ sched (start_pool work concurrency acc0)
                (Nat.le_refl _)) as Hend.
  apply find_ready_none in Hend. unfold all_exited.
  apply forallb_forall. intros x Hx.
  rewrite Forall_forall in Hend. specialize (Hend x Hx).
  destruct x as [|jobs|]; simpl in *; try tauto.
  destruct Hend as [Hne Hall]. destruct jobs as [|job jobs]; [tauto|].
  inversion Hall; subst. exfalso. eapply Hsettle; eauto.
Qed.

(** Once every worker has left a pool that had workers, every item has
    been claimed. *)
Lemma all_exited_claims (p : @Pool Item Job Acc) :
  cursor_inv work p -> all_exited p = true ->
  (workers p <> [] \/ work = []) ->
  cursor p = List.length work /\ map snd (claims p) = work.
Proof.
  intros (Hle & _ & Hitems & Hexit) Hall Hsome.
  assert (Hc : cursor p = List.length work).
  { destruct Hsome as [Hw| ->]; [|simpl in *; lia].
    destruct (workers p) as [|x ws] eqn:E; [tauto|].
    unfold all_exited in Hall. rewrite E in Hall. simpl in Hall.
    apply andb_true_iff in Hall. destruct Hall as [Hx _].
    destruct x; try discriminate.
    assert (List.length work <= cursor p)%nat by (apply Hexit; left; auto).
    lia. }
  split; [exact Hc|]. rewrite Hitems, Hc. apply firstn_all.
Qed.


(** A pool started with a worker, or on an empty list, has one. *)
Lemma started_with_a_worker (concurrency : nat) (acc0 : Acc)
    (p : @Pool Item Job Acc) :
  (1 <= concurrency)%nat ->
  reachable (start_pool work concurrency acc0) p ->
  workers p <> [] \/ work = [].
Proof.
  intros Hc Hreach. rewrite <- length_zero_iff_nil.
  rewrite (workers_count_reachable _ _ Hreach).
  unfold start_pool; cbn [workers]. rewrite repeat_length.
  destruct work; [right; reflexivity|left; simpl; lia].
Qed.

Lemma pending_spawned_step (p q : @Pool Item Job Acc) :
  step_kind work spawn settle p q ->
  pending_spawned work spawn p -> pending_spawned work spawn q.
Proof.
  unfold pending_spawned. intros Hstep Hp.
  destruct Hstep
    as [w x Hw Hx ->|w Hw Hx ->|w Hw ->|w j jobs job e Hw Hj He ->];
    cbn [workers]; apply Forall_set_nth; auto; cbn [pending];
    try (intros ? []).
  - intros job Hjob. exists x. split; [eapply nth_error_In; eauto|auto].
  - intros job' Hjob. rewrite Forall_forall in Hp.
    apply (Hp _ (nth_error_In _ _ Hw)). cbn [pending].
    eapply in_drop_nth; eauto.
Qed.

(** What holds of the accumulator at the start and is kept by the jobs of
    the work list holds in every state the pool reaches. *)
Lemma spawned_inv_reachable (I : Acc -> Prop) (concurrency : nat)
    (acc0 : Acc) (p : @Pool Item Job Acc) :
  (forall item job effect a,
      In item work -> In job (spawn item) ->
      settle job = Some effect -> I a -> I (effect a)) ->
  reachable (start_pool work concurrency acc0) p ->
  I acc0 -> I (acc p).
Proof.
  intros Hpres Hreach H0.
  enough (I (acc p) /\ pending_spawned work spawn p) by tauto.
  induction Hreach as [|q c r _ IH Hstep].
  - split; [exact H0|].
    unfold pending_spawned, start_pool; cbn [workers].
    apply Forall_forall. intros x Hx. apply repeat_spec in Hx. subst.
    intros job [].
  - destruct IH as [Hacc Hsp]. apply step_inv in Hstep.
    split; [|eapply pending_spawned_step; eauto].
    destruct Hstep as [? ? _ _ ->|? _ _ ->|? _ ->|w j jobs job e Hw Hj He ->];
      cbn [acc]; auto.
    unfold pending_spawned in Hsp. rewrite Forall_forall in Hsp.
    destruct (Hsp _ (nth_error_In _ _ Hw) job) as (item & Hitem & Hjob).
    { cbn [pending]. eapply nth_error_In; eauto. }
    eapply Hpres; eauto.
Qed.

(** Replacing the state of one worker keeps a job accounted for, provided
    it is still waited for if it was. *)
Lemma accounted_replace (P : Prop) (ws : list (@Worker Job)) (w : nat)
    (old new : @Worker Job) (job : Job) :
  nth_error ws w = Some old ->
  (In job (pending old) -> In job (pending new) \/ P) ->
  (P \/ exists i x, nth_error ws i = Some x /\ In job (pending x)) ->
  P \/ exists i x, nth_error (set_nth w new ws) i = Some x
                   /\ In job (pending x).
Proof.
  intros Hw Hold [Hs|(i & x & Hi & Hin)]; [left; exact Hs|].
  destruct (Nat.eq_dec w i) as [<-|Hne].
  - rewrite Hw in Hi. injection Hi as <-.
    destruct (Hold Hin) as [Hnew|Hs]; [|left; exact Hs].
    right. exists w, new. split; [|exact Hnew].
    apply nth_error_set_nth. apply nth_error_Some. congruence.
  - right. exists i, x. split; [|exact Hin].
    rewrite nth_error_set_nth_other by exact Hne. exact Hi.
Qed.

Section Marks.

Variable marked : Acc -> Prop.
Variable bad : Job -> Prop.

Hypothesis mark_stays :
  forall job effect a,
    settle job = Some effect -> marked a -> marked (effect a).
Hypothesis bad_marks :
  forall job effect a, bad job -> settle job = Some effect -> marked (effect a).

Lemma marked_or_pending_step (p q : @Pool Item Job Acc) :
  step_kind work spawn settle p q ->
  marked_or_pending work spawn marked bad p ->
  marked_or_pending work spawn marked bad q.
Proof.
  unfold marked_or_pending. intros Hstep Hp.
  destruct Hstep
    as [w x Hw Hx ->|w Hw Hx ->|w Hw ->|w j jobs job e Hw Hj He ->];
    cbn [workers cursor acc]; intros item job' Hitem Hjob Hbad.
  - rewrite (firstn_nth_error _ _ _ Hx) in Hitem.
    apply in_app_or in Hitem. destruct Hitem as [Hitem|[<-|[]]].
    + eapply accounted_replace; [exact Hw|intros []|eauto].
    + right. exists w, (Awaiting (spawn x)). split; [|exact Hjob].
      apply nth_error_set_nth. apply nth_error_Some. congruence.
  - eapply accounted_replace; [exact Hw|intros []|eauto].
  - eapply accounted_replace; [exact Hw|intros []|eauto].
  - eapply accounted_replace; [exact Hw| |].
    + cbn [pending]. intros Hin.
      destruct (in_dropped_or_kept _ _ _ _ Hj Hin) as [->|Hkept];
        [right; eapply bad_marks; eauto|left; exact Hkept].
    + destruct (Hp item job' Hitem Hjob Hbad) as [Hm|Hpend];
        [left; eapply mark_stays; eauto|right; exact Hpend].
Qed.

(** Once every worker has left, a job of the kind [bad] among those of
    the work list has left its mark. *)
Lemma all_exited_marked (concurrency : nat) (acc0 : Acc)
    (p : @Pool Item Job Acc) (item : Item) (job : Job) :
  (1 <= concurrency)%nat ->
  reachable (start_pool work concurrency acc0) p ->
  all_exited p = true ->
  In item work -> In job (spawn item) -> bad job ->
  marked (acc p).
Proof.
  intros Hc Hreach Hall Hitem Hjob Hbad.
  pose proof (cursor_inv_reachable _ _ Hreach (cursor_inv_start _ _))
    as Hinv.
  destruct (all_exited_claims _ Hinv Hall
              (started_with_a_worker _ _ _ Hc Hreach)) as [Hcur _].
  assert (Hmp : marked_or_pending work spawn marked bad p).
  { clear Hall Hinv Hcur. induction Hreach as [|q c r _ IH Hstep].
    - unfold marked_or_pending, start_pool; cbn [cursor firstn].
      intros ? ? [].
    - eapply marked_or_pending_step; [eapply step_inv; eauto|exact IH]. }
  destruct (Hmp item job) as [Hm|(i & x & Hi & Hin)]; auto.
  - rewrite Hcur, firstn_all. exact Hitem.
  - exfalso. unfold all_exited in Hall. rewrite forallb_forall in Hall.
    specialize (Hall _ (nth_error_In _ _ Hi)).
    destruct x; try discriminate; destruct Hin.
Qed.

End Marks.

End PoolFacts.

(** *** What a pool has gathered when it ends *)

Lemma flat_map_set_nth {A B} (g : A -> list B) (n : nat) (x old : A)
    (l : list A) :
  nth_error l n = Some old ->
  Permutation (flat_map g (set_nth n x l) ++ g old) (flat_map g l ++ g x).
Proof.
  revert n. induction l as [|y l IH]; intros [|n]; simpl; try discriminate.
  - intros [= ->].
    transitivity (g old ++ (g x ++ flat_map g l));
      [apply Permutation_app_comm|].
    rewrite <- (app_assoc (g old)).
    apply Permutation_app_head, Permutation_app_comm.
  - intros H. rewrite <- !app_assoc.
    apply Permutation_app_head, IH, H.
Qed.

Lemma drop_nth_perm {A} (n : nat) (x : A) (l : list A) :
  nth_error l n = Some x -> Permutation l (x :: drop_nth n l).
Proof.
  revert n. induction l as [|y l IH]; intros [|n]; simpl; try discriminate.
  - intros [= ->]. reflexivity.
  - intros H. etransitivity; [apply perm_skip, (IH _ H)|apply perm_swap].
Qed.

Section Gathering.

Context {Item Job Acc R : Type}.
Variable work : list Item.
Variable spawn : Item -> list Job.
Variable settle : Job -> option (Acc -> Acc).
(** the records in an accumulator, and those a job adds when it settles *)
Variable view : Acc -> list R.
Variable contrib : Job -> list R.

Hypothesis settle_appends :
  forall job effect a,
    settle job = Some effect -> view (effect a) = view a ++ contrib job.

Lemma gathered_inv_step (acc0 : Acc) (p q : @Pool Item Job Acc) :
  step_kind work spawn settle p q ->
  gathered_inv work spawn view contrib acc0 p ->
  gathered_inv work spawn view contrib acc0 q.
Proof.
  unfold gathered_inv. intros Hstep Hp.
  destruct Hstep
    as [w x Hw Hx ->|w Hw Hx ->|w Hw ->|w j jobs job e Hw Hj He ->];
    cbn [cursor acc workers].
  - pose proof (flat_map_set_nth (owed contrib) w (Awaiting (spawn x))
                  _ _ Hw) as H.
    cbn [owed] in H. rewrite app_nil_r in H.
    rewrite (firstn_nth_error _ _ _ Hx), flat_map_app. cbn [flat_map].
    rewrite app_nil_r, H, !app_assoc.
    apply Permutation_app_tail, Hp.
  - pose proof (flat_map_set_nth (owed contrib) w Exited _ _ Hw) as H.
    cbn [owed] in H. rewrite !app_nil_r in H. rewrite H. exact Hp.
  - pose proof (flat_map_set_nth (owed contrib) w AtLoopHead _ _ Hw) as H.
    cbn [owed flat_map] in H. rewrite !app_nil_r in H. rewrite H. exact Hp.
  - pose proof (flat_map_set_nth (owed contrib) w
                  (Awaiting (drop_nth j jobs)) _ _ Hw) as H.
    cbn [owed] in H.
    assert (Hjobs : Permutation (flat_map contrib jobs)
                      (contrib job ++ flat_map contrib (drop_nth j jobs))).
    { rewrite (drop_nth_perm _ _ _ Hj) at 1. reflexivity. }
    rewrite Hjobs, app_assoc in H. apply Permutation_app_inv_r in H.
    rewrite (settle_appends _ _ _ He), <- app_assoc.
    rewrite <- Hp. apply Permutation_app_head.
    rewrite <- H. apply Permutation_app_comm.
Qed.

Lemma gathered_inv_reachable (acc0 : Acc) (p q : @Pool Item Job Acc) :
  reaches work spawn settle p q ->
  gathered_inv work spawn view contrib acc0 p ->
  gathered_inv work spawn view contrib acc0 q.
Proof.
  induction 1 as [|q c r _ IH Hstep]; [auto|].
  intros Hp. eapply gathered_inv_step; [eapply step_inv; eauto|auto].
Qed.

Lemma all_exited_owes_nothing (ws : list (@Worker Job)) :
  forallb is_exited ws = true -> flat_map (owed contrib) ws = [].
Proof.
  induction ws as [|x ws IH]; simpl; [reflexivity|].
  intros H. apply andb_true_iff in H. destruct H as [Hx Hws].
  destruct x; try discriminate. simpl. auto.
Qed.

(** A pool that has ended holds, in some order, what it started with and
    what the jobs of every item add. *)
Lemma exited_pool_gathers (concurrency : nat) (acc0 : Acc)
    (p : @Pool Item Job Acc) :
  (1 <= concurrency)%nat ->
  reaches work spawn settle (start_pool work concurrency acc0) p ->
  all_exited p = true ->
  Permutation (view (acc p))
              (view acc0 ++ flat_map (due spawn contrib) work).
Proof.
  intros Hc Hreach Hall.
  pose proof (cursor_inv_reachable _ _ _ _ _ Hreach
                (cursor_inv_start _ _ _)) as Hinv.
  assert (Hstart : gathered_inv work spawn view contrib acc0
                     (start_pool work concurrency acc0)).
  { unfold gathered_inv, start_pool; cbn [cursor acc workers firstn flat_map].
    rewrite app_nil_r.
    assert (Hrep : forall n,
               flat_map (owed contrib) (repeat (@AtLoopHead Job) n) = [])
      by (induction n; simpl; auto).
    rewrite Hrep, app_nil_r. reflexivity. }
  pose proof (gathered_inv_reachable _ _ _ Hreach Hstart) as Hg.
  unfold gathered_inv in Hg.
  rewrite (all_exited_owes_nothing _ Hall), app_nil_r in Hg.
  destruct (all_exited_claims _ _ Hinv Hall) as [Hcur _].
  { rewrite <- length_zero_iff_nil.
    rewrite (workers_count_reachable _ _ _ _ _ Hreach).
    unfold start_pool; cbn [workers]. rewrite repeat_length.
    destruct work; [right; reflexivity|left; simpl; lia]. }
  rewrite Hcur, firstn_all in Hg. exact Hg.
Qed.

Lemma pool_outcome_gathers (concurrency : nat) (acc0 : Acc)
    (sched : @Pool Item Job Acc -> nat * nat) :
  (1 <= concurrency)%nat ->
  let p := pool_outcome work spawn settle concurrency acc0 sched in
  all_exited p = true ->
  Permutation (view (acc p))
              (view acc0 ++ flat_map (due spawn contrib) work).
Proof.
  intros Hc p Hall. apply (exited_pool_gathers concurrency); auto.
  apply run_pool_reachable.
Qed.

End Gathering.

(* ================================================================== *)
(** ** The run-wide tally *)

Lemma push_all_spec (stamp : JsVal -> ScanRecord) (its : list JsVal)
    (t : Tally) :
  outputs (push_all stamp its t) = outputs t ++ map stamp (readable its)
  /\ untaggedCount (push_all stamp its t)
     = (untaggedCount t + List.length (readable its))%nat.
Proof.
  revert t. induction its as [|it its IH]; intros t; simpl.
  - rewrite app_nil_r. split; [reflexivity|lia].
  - destruct (nullish it); simpl.
    + rewrite app_nil_r. split; [reflexivity|lia].
    + destruct (IH {| outputs := outputs t ++ [stamp it];
                      untaggedCount := S (untaggedCount t) |}) as [Ho Hc].
      rewrite Ho, Hc. cbn [outputs untaggedCount].
      rewrite <- app_assoc. split; [reflexivity|lia].
Qed.

Lemma push_cos_spec (cosItems : list ScanRecord) (t : Tally) :
  outputs (push_cos cosItems t) = outputs t ++ cosItems
  /\ untaggedCount (push_cos cosItems t)
     = (untaggedCount t + List.length cosItems)%nat.
Proof.
  revert t. induction cosItems as [|it its IH]; intros t; simpl.
  - rewrite app_nil_r. split; [reflexivity|lia].
  - destruct (IH {| outputs := outputs t ++
                        [ {| service := service it; id := id it;
                             region := region it |} ];
                    untaggedCount := S (untaggedCount t) |}) as [Ho Hc].
    rewrite Ho, Hc. cbn [outputs untaggedCount].
    rewrite <- app_assoc. destruct it. split; [reflexivity|lia].
Qed.

Lemma push_all_pushes_and_counts stamp its :
  pushes_and_counts (Some (push_all stamp its)).
Proof.
  intros effect [= <-] t. cbn [added].
  destruct (push_all_spec stamp its t) as [Ho Hc].
  destruct (push_all_spec stamp its empty_tally) as [Ho0 _].
  rewrite Ho, Hc, Ho0. cbn [outputs empty_tally app].
  rewrite length_map. split; reflexivity.
Qed.

Lemma skip_pushes_and_counts :
  pushes_and_counts (Some (fun t : Tally => t)).
Proof.
  intros effect [= <-] t. cbn [added outputs empty_tally].
  rewrite app_nil_r. split; [reflexivity|simpl; lia].
Qed.

Lemma none_pushes_and_counts : pushes_and_counts None.
Proof. intros effect [=]. Qed.

Lemma Index_task_pushes w region svcName :
  pushes_and_counts (Index.task w region svcName).
Proof.
  unfold Index.task.
  destruct (Index.scannersForRegion w region svcName) as [[t [its|e]|]|];
    auto using push_all_pushes_and_counts, skip_pushes_and_counts,
               none_pushes_and_counts.
Qed.

Lemma Scan_task_pushes w region svcName :
  pushes_and_counts (Scan.task w region svcName).
Proof.
  unfold Scan.task.
  destruct (Scan.scannersForRegion w region svcName) as [fn|];
    [|apply skip_pushes_and_counts].
  destruct (withTimeout fn _ _) as [t [its|e]|];
    auto using push_all_pushes_and_counts, skip_pushes_and_counts,
               none_pushes_and_counts.
Qed.

Lemma pushes_keeps_tally_ok task effect t :
  pushes_and_counts task -> task = Some effect ->
  tally_ok t -> tally_ok (effect t).
Proof.
  unfold tally_ok. intros Hp He Ht.
  destruct (Hp effect He t) as [Ho Hc].
  rewrite Ho, Hc, length_app, Ht. reflexivity.
Qed.

(* ================================================================== *)
(** ** Entry point *)

Lemma flat_map_map {A B C} (f : B -> list C) (g : A -> B) (l : list A) :
  flat_map f (map g l) = flat_map (fun x => f (g x)) l.
Proof.
  induction l as [|x l IH]; simpl; [reflexivity|]. rewrite IH. reflexivity.
Qed.

Lemma exportCsvToCos_items w items :
  exported_items (exportCsvToCos w items) = items.
Proof. unfold exportCsvToCos. destruct (negb _); reflexivity. Qed.

Lemma exportCsvToCos_body w items :
  put_body (exportCsvToCos w items)
  = if has_credentials (env w) then Some (csv_text items) else None.
Proof. unfold exportCsvToCos. destruct (has_credentials _); reflexivity. Qed.

Section Handler.

Variable w : World.
Variable listed_regions : Promise (list JsVal).
Variable maxRegionConcurrency : nat.
Variable regionServices : list string.
Variable task : JsVal -> string -> option (Tally -> Tally).
Variable scanCOS : Scheduler JsVal JsVal CosState
                   -> Promise (list ScanRecord).
Variable s : Schedulers.

Hypothesis task_pushes :
  forall region svcName, pushes_and_counts (task region svcName).
Hypothesis some_worker : (1 <= maxRegionConcurrency)%nat.

Local Abbreviation run :=
  (handler_body w listed_regions maxRegionConcurrency regionServices
     task scanCOS s).

Local Abbreviation region_pool regions :=
  (pool_outcome regions (tasks regionServices) (settle_task task)
     maxRegionConcurrency empty_tally (region_sched s)).

(** The run raises exactly when the region list could not be resolved,
    and then with the resolver's error. *)
Lemma handler_raises (e : JsError) :
  run = Raises e <-> exists t, listed_regions = Settles t (Rejected e).
Proof.
  unfold handler_body.
  destruct listed_regions as [t [regions|e']|].
  - split; [|intros [t' [=]]].
    destruct (negb _); [discriminate|].
    destruct (scanCOS _) as [? [?|?]|]; cbv zeta;
      try destruct (export_promise _); discriminate.
  - split; [intros [= ->]; eauto|intros [t' [= _ ->]]; reflexivity].
  - split; [discriminate|intros [t' [=]]].
Qed.

Lemma region_pool_tally_ok (regions : list JsVal) :
  tally_ok (acc (region_pool regions)).
Proof.
  unfold pool_outcome.
  eapply (acc_inv_reachable _ _ _ tally_ok);
    [|apply run_pool_reachable|reflexivity].
  intros [region svcName] effect a He Ha.
  eapply pushes_keeps_tally_ok; eauto.
Qed.

Lemma region_pool_gathers (regions : list JsVal) :
  all_exited (region_pool regions) = true ->
  Permutation (outputs (acc (region_pool regions)))
              (region_records task regionServices regions).
Proof.
  intros Hall.
  pose proof (pool_outcome_gathers regions
                (tasks regionServices) (settle_task task)
                outputs
                (fun job : RegionJob => added (settle_task task job)))
    as Hg.
  cbv zeta in Hg. rewrite Hg; auto.
  - cbn [outputs empty_tally app]. unfold region_records.
    clear. induction regions as [|r rs IH]; [reflexivity|].
    cbn [flat_map]. unfold due at 1, tasks. rewrite flat_map_map.
    apply Permutation_app_head, IH.
  - intros [region svcName] effect a He.
    apply (task_pushes region svcName effect He a).
Qed.

(** What a return carries. *)
Lemma handler_returns (r : Report) :
  run = Returns r ->
  exists t regions tally,
    listed_regions = Settles t (Fulfilled regions)
    /\ tally_ok tally
    /\ statusCode r = 200%Z
    /\ body r = summary (List.length regions) (untaggedCount tally)
    /\ handed_to_exporter r = sortedOutputs w (outputs tally)
    /\ csv_put r
       = (if has_credentials (env w)
          then Some (csv_text (handed_to_exporter r)) else None)
    /\ Permutation (outputs tally)
         (region_records task regionServices regions
          ++ cos_records (scanCOS (cos_sched s))).
Proof.
  unfold handler_body.
  destruct listed_regions as [t [regions|e']|]; try discriminate.
  destruct (all_exited _) eqn:Hall; cbn [negb]; [|discriminate].
  pose proof (region_pool_tally_ok regions) as Hok.
  pose proof (region_pool_gathers regions Hall) as Hg.
  destruct (scanCOS _) as [t' [cosItems|e]|]; cbv zeta; try discriminate.
  - destruct (export_promise _); [|discriminate].
    intros [= <-]. cbn [statusCode body handed_to_exporter csv_put].
    rewrite exportCsvToCos_items, exportCsvToCos_body.
    exists t, regions, (push_cos cosItems (acc (region_pool regions))).
    destruct (push_cos_spec cosItems (acc (region_pool regions))) as [Ho Hc].
    repeat split.
    + unfold tally_ok in *. rewrite Ho, Hc, length_app, Hok. reflexivity.
    + rewrite Ho. cbn [cos_records]. apply Permutation_app_tail, Hg.
  - destruct (export_promise _); [|discriminate].
    intros [= <-]. cbn [statusCode body handed_to_exporter csv_put].
    rewrite exportCsvToCos_items, exportCsvToCos_body.
    exists t, regions, (acc (region_pool regions)).
    repeat split; [exact Hok|].
    cbn [cos_records]. rewrite app_nil_r. exact Hg.
Qed.

(** When the region list is resolved and nothing stays pending, the run
    returns. *)
Lemma handler_returns_when_settled (t : N) (regions : list JsVal) :
  listed_regions = Settles t (Fulfilled regions) ->
  (forall region svcName, task region svcName <> None) ->
  settles (scanCOS (cos_sched s)) = true ->
  (forall items, settles (export_promise (exportCsvToCos w items)) = true) ->
  exists r, run = Returns r.
Proof.
  intros Hl Htask Hcos Hexp. unfold handler_body. rewrite Hl.
  rewrite pool_outcome_all_exited by (intros [region svcName]; apply Htask).
  cbn [negb].
  destruct (scanCOS (cos_sched s)) as [t' [cosItems|e]|]; cbv zeta;
    try discriminate.
  - match goal with |- context [exportCsvToCos w ?x] =>
      specialize (Hexp x);
      destruct (export_promise (exportCsvToCos w x)) end;
      [eauto|discriminate].
  - match goal with |- context [exportCsvToCos w ?x] =>
      specialize (Hexp x);
      destruct (export_promise (exportCsvToCos w x)) end;
      [eauto|discriminate].
Qed.

End Handler.

(** A return in terms of what was handed to the exporter. *)
Lemma handler_summary w listed_regions conc services task scanCOS s r :
  (forall region svcName, pushes_and_counts (task region svcName)) ->
  (1 <= conc)%nat ->
  handler_body w listed_regions conc services task scanCOS s = Returns r ->
  exists t regions,
    listed_regions = Settles t (Fulfilled regions)
    /\ statusCode r = 200%Z
    /\ body r = summary (List.length regions)
                  (List.length (handed_to_exporter r))
    /\ (exists out, handed_to_exporter r = sortedOutputs w out)
    /\ csv_put r
       = (if has_credentials (env w)
          then Some (csv_text (handed_to_exporter r)) else None)
    /\ Permutation (handed_to_exporter r)
         (region_records task services regions
          ++ cos_records (scanCOS (cos_sched s))).
Proof.
  intros Hp Hc Hr.
  destruct (handler_returns w _ _ _ _ _ s Hp Hc r Hr)
    as (t & regions & tally & Hl & Hok & Hst & Hb & Hh & Hput & Hperm).
  exists t, regions. repeat split; auto.
  - rewrite Hb, Hh. unfold sortedOutputs.
    rewrite <- (Permutation_length (sort_perm _ (outputs tally))).
    rewrite Hok. reflexivity.
  - eauto.
  - rewrite Hh. unfold sortedOutputs. rewrite <- sort_perm. exact Hperm.
Qed.

(* ================================================================== *)
(** ** GlobalResourceScanner *)

Lemma bucket_job_appends w stamp b effect st :
  bucket_job w stamp b = Some effect ->
  results (effect st) = results st ++ bucket_records w stamp b.
Proof.
  unfold bucket_records. intros H. rewrite H. revert H.
  unfold bucket_job. destruct (nullish b).
  - intros [= <-]. cbn [results]. rewrite app_nil_r. reflexivity.
  - destruct (bucketTagging _) as [t [tagsRes|e]|]; try discriminate.
    + destruct (hasNoTags _); intros [= <-]; [reflexivity|].
      cbn [results no_results]. rewrite app_nil_r. reflexivity.
    + intros [= <-]. cbn [results no_results]. rewrite app_nil_r.
      reflexivity.
Qed.

(** The job of an entry that is not nullish raises nothing. *)
Lemma bucket_job_goes_on w stamp b effect st :
  nullish b = false ->
  bucket_job w stamp b = Some effect -> raised (effect st) = raised st.
Proof.
  intros Hb. unfold bucket_job. rewrite Hb.
  destruct (bucketTagging _) as [t [tagsRes|e]|]; try discriminate.
  - destruct (hasNoTags _); intros [= <-]; reflexivity.
  - intros [= <-]. reflexivity.
Qed.

Lemma bucket_job_stays_raised w stamp b effect st :
  bucket_job w stamp b = Some effect ->
  raised st = true -> raised (effect st) = true.
Proof.
  unfold bucket_job. destruct (nullish b); [intros [= <-]; reflexivity|].
  destruct (bucketTagging _) as [t [tagsRes|e]|]; try discriminate.
  - destruct (hasNoTags _); intros [= <-]; auto.
  - intros [= <-]. auto.
Qed.

(** The job of a nullish entry raises. *)
Lemma bucket_job_raises w stamp b effect st :
  nullish b = true ->
  bucket_job w stamp b = Some effect -> raised (effect st) = true.
Proof.
  intros Hb. unfold bucket_job. rewrite Hb. intros [= <-]. reflexivity.
Qed.

Lemma bucketTagging_settles (r : Reply JsVal) :
  r <> Silent -> settles (bucketTagging r) = true.
Proof.
  destruct r as [t err data|]; [|congruence]. intros _. simpl.
  destruct (truthy err); [|reflexivity].
  destruct (_ || _); reflexivity.
Qed.

Lemma bucket_job_settles w stamp b :
  tagging_answers w -> bucket_job w stamp b <> None.
Proof.
  intros Hans. unfold bucket_job. destruct (nullish b); [discriminate|].
  pose proof (bucketTagging_settles _ (Hans (get b "Name") (get b "Location")))
    as Hs.
  destruct (bucketTagging _) as [t [tagsRes|e]|]; try discriminate.
  destruct (hasNoTags _); discriminate.
Qed.

(** With credentials and every call answered, [scanCOS] resolves with the
    records of all the buckets, whatever the per-bucket failures, when no
    entry of the listing is nullish. *)
Lemma scanCOS_gathers w stamp sched t err d :
  has_credentials (env w) = true ->
  getService w = Calls t err (Some d) ->
  truthy err = false ->
  tagging_answers w ->
  Forall (fun b => nullish b = false) (buckets_of d) ->
  exists rs,
    scanCOS_with stamp w sched = Settles (t + 0)%N (Fulfilled rs)
    /\ Permutation rs (flat_map (bucket_records w stamp) (buckets_of d)).
Proof.
  intros Hcred Hget Herr Hans Hok. unfold scanCOS_with.
  rewrite Hcred, Hget. cbn [negb promisify]. rewrite Herr.
  cbn [await]. cbv zeta.
  set (p := pool_outcome (buckets_of d) (fun b => [b]) (bucket_job w stamp)
              5 no_results sched).
  assert (Hreach : reaches (buckets_of d) (fun b => [b]) (bucket_job w stamp)
                     (start_pool (buckets_of d) 5 no_results) p)
    by apply run_pool_reachable.
  assert (Hraised : raised (acc p) = false).
  { apply (spawned_inv_reachable (buckets_of d) (fun b => [b])
             (bucket_job w stamp) (fun st => raised st = false)
             5 no_results p); [|exact Hreach|reflexivity].
    intros item job effect a Hitem [<-|[]] He Ha.
    rewrite Forall_forall in Hok.
    rewrite (bucket_job_goes_on w stamp item effect a (Hok _ Hitem) He).
    exact Ha. }
  assert (Hall : all_exited p = true).
  { apply pool_outcome_all_exited. intros b.
    apply bucket_job_settles, Hans. }
  rewrite Hraised, Hall. cbn [delay resolve]. eexists.
  split; [reflexivity|].
  pose proof (exited_pool_gathers (buckets_of d) (fun b => [b])
                (bucket_job w stamp) results
                (bucket_records w stamp)
                (bucket_job_appends w stamp) 5 no_results p
                ltac:(lia) Hreach Hall) as Hg.
  cbn [results no_results app] in Hg. rewrite Hg. clear.
  induction (buckets_of d) as [|b bs IH]; [reflexivity|].
  cbn [flat_map]. unfold due at 1. cbn [flat_map]. rewrite app_nil_r.
  apply Permutation_app_head, IH.
Qed.

(** A nullish entry of the listing rejects the scan. *)
Lemma scanCOS_raises w stamp sched t err d :
  has_credentials (env w) = true ->
  getService w = Calls t err (Some d) ->
  truthy err = false ->
  tagging_answers w ->
  Exists (fun b => nullish b = true) (buckets_of d) ->
  scanCOS_with stamp w sched = Settles (t + 0)%N (Rejected TypeError).
Proof.
  intros Hcred Hget Herr Hans Hbad. unfold scanCOS_with.
  rewrite Hcred, Hget. cbn [negb promisify]. rewrite Herr.
  cbn [await]. cbv zeta.
  set (p := pool_outcome (buckets_of d) (fun b => [b]) (bucket_job w stamp)
              5 no_results sched).
  assert (Hreach : reaches (buckets_of d) (fun b => [b]) (bucket_job w stamp)
                     (start_pool (buckets_of d) 5 no_results) p)
    by apply run_pool_reachable.
  assert (Hall : all_exited p = true).
  { apply pool_outcome_all_exited. intros b.
    apply bucket_job_settles, Hans. }
  apply Exists_exists in Hbad. destruct Hbad as (b & Hin & Hb).
  assert (Hraised : raised (acc p) = true).
  { apply (all_exited_marked (buckets_of d) (fun b => [b])
             (bucket_job w stamp) (fun st => raised st = true)
             (fun b => nullish b = true)
             (fun job effect a => bucket_job_stays_raised w stamp job effect a)
             (fun job effect a Hn He =>
                bucket_job_raises w stamp job effect a Hn He)
             5 no_results p b b);
      [lia|exact Hreach|exact Hall|exact Hin|left; reflexivity|exact Hb]. }
  rewrite Hraised. reflexivity.
Qed.

Lemma scanCOS_settles w stamp sched :
  getService w <> Silent -> tagging_answers w ->
  settles (scanCOS_with stamp w sched) = true.
Proof.
  intros Hget Hans. unfold scanCOS_with.
  destruct (has_credentials (env w)); [|reflexivity]. cbn [negb].
  destruct (getService w) as [t err d|]; [|congruence]. cbn [promisify].
  destruct (truthy err); [reflexivity|]. cbn [await].
  destruct d as [d|]; [|reflexivity]. cbv zeta.
  destruct (raised _); [reflexivity|].
  rewrite pool_outcome_all_exited
    by (intros b; apply bucket_job_settles, Hans).
  reflexivity.
Qed.

Lemma exportCsvToCos_settles w items :
  (forall csv, putObject w csv <> Silent) ->
  settles (export_promise (exportCsvToCos w items)) = true.
Proof.
  intros Hput. unfold exportCsvToCos.
  destruct (has_credentials (env w)); [|reflexivity].
  cbn [negb export_promise].
  specialize (Hput (csv_text items)).
  destruct (putObject w (csv_text items)) as [t err d|]; [|congruence].
  cbn [promisify]. destruct (truthy err); reflexivity.
Qed.

(** C8: for an entry of the bucket listing whose tagging call fails, an
    error with status 404, or with an error code that reads
    [NoSuchTagSet] in any letter case, counts as an empty tag set, and the
    record of the bucket is pushed: service ["COS"], the name of the bucket
    as id, and as region ["global"] in the full script and the location of
    the bucket in [index.js].  Any other error of the tagging call pushes
    nothing for that bucket and leaves the pool as it was.  So, with
    credentials, a bucket listing that is delivered and tagging calls that
    are answered, by data or by an error, [scanCOS] resolves with the
    records of all the buckets, in the order the jobs settled.  What does
    abort the pool is no failure of a tagging call but an entry of the
    listing that is nullish: its name is read outside the [try], the
    worker is rejected, and so is the scan. *)
Theorem bucket_tagging_failures (w : World) (stamp : JsVal -> ScanRecord) :
  (forall b t err data,
      nullish b = false ->
      getBucketTagging w (get b "Name") (get b "Location")
      = Calls t err data ->
      truthy err = true ->
      (strict_eq (get err "statusCode") (JNum 404) = true
       \/ toLowerCase (String_ (or_else (get err "errorCode") (JStr "")))
          = "nosuchtagset") ->
      exists effect,
        bucket_job w stamp b = Some effect
        /\ forall st, effect st = {| results := results st ++ [stamp b];
                                     raised := raised st |})
  /\ (forall b t err data,
         nullish b = false ->
         getBucketTagging w (get b "Name") (get b "Location")
         = Calls t err data ->
         truthy err = true ->
         strict_eq (get err "statusCode") (JNum 404) = false ->
         toLowerCase (String_ (or_else (get err "errorCode") (JStr "")))
         <> "nosuchtagset" ->
         exists effect,
           bucket_job w stamp b = Some effect
           /\ forall st, effect st = st)
  /\ (forall sched t err d,
         has_credentials (env w) = true ->
         getService w = Calls t err (Some d) ->
         truthy err = false ->
         tagging_answers w ->
         (Forall (fun b => nullish b = false) (buckets_of d) ->
          exists rs,
            scanCOS_with stamp w sched = Settles (t + 0)%N (Fulfilled rs)
            /\ Permutation rs
                 (flat_map (bucket_records w stamp) (buckets_of d)))
         /\ (Exists (fun b => nullish b = true) (buckets_of d) ->
             scanCOS_with stamp w sched
             = Settles (t + 0)%N (Rejected TypeError)))
  /\ (forall sched b,
         Scan.scanCOS w sched = scanCOS_with Scan.cos_record w sched
         /\ Scan.cos_record b
            = {| service := JStr "COS"; id := get b "Name";
                 region := JStr "global" |}
         /\ Index.scanCOS w sched = scanCOS_with Index.cos_record w sched
         /\ Index.cos_record b
            = {| service := JStr "COS"; id := get b "Name";
                 region := get b "Location" |}).
Proof.
  split; [|split; [|split]].
  - intros b t err data Hb Hreply Herr Hkind.
    assert (Hn : nullish err = false) by (destruct err; auto; discriminate).
    assert (Hfound : bucketTagging (Calls t err data)
                     = Settles t (Fulfilled no_tagging)).
    { unfold bucketTagging, get_opt. rewrite Herr, Hn.
      destruct Hkind as [-> | ->]; [reflexivity|].
      rewrite orb_true_r. reflexivity. }
    unfold bucket_job. rewrite Hb, Hreply, Hfound.
    eexists. split; reflexivity.
  - intros b t err data Hb Hreply Herr Hstatus Hcode.
    assert (Hn : nullish err = false) by (destruct err; auto; discriminate).
    assert (Hfails : bucketTagging (Calls t err data)
                     = Settles t (Rejected (SdkError err))).
    { unfold bucketTagging, get_opt. rewrite Herr, Hn, Hstatus.
      apply String.eqb_neq in Hcode. rewrite Hcode. reflexivity. }
    unfold bucket_job. rewrite Hb, Hreply, Hfails.
    eexists. split; reflexivity.
  - intros sched t err d Hcred Hget Herr Hans. split.
    + apply (scanCOS_gathers w stamp sched t err d); auto.
    + apply (scanCOS_raises w stamp sched t err d); auto.
  - intros sched b. repeat split.
Qed.

(* ================================================================== *)
(** ** RegionDispatcher *)


Lemma in_firstn {A} (n : nat) (x : A) (l : list A) :
  In x (firstn n l) -> In x l.
Proof.
  revert n. induction l as [|y l IH]; intros [|n]; simpl; try tauto.
  intros [H|H]; eauto.
Qed.

Lemma NoDup_firstn {A} (n : nat) (l : list A) :
  NoDup l -> NoDup (firstn n l).
Proof.
  revert n. induction l as [|x l IH]; intros [|n] H; simpl;
    try constructor.
  - inversion H; subst. intros Hin. apply in_firstn in Hin. tauto.
  - inversion H; subst. auto.
Qed.









(* ================================================================== *)
(** ** The summary *)

Lemma withTimeout_settles {A} (p : Promise A) ms tag :
  settles (withTimeout p ms tag) = true.
Proof.
  destruct p as [t o|]; simpl; [|reflexivity].
  destruct (t <? ms)%N; reflexivity.
Qed.

Lemma Scan_task_settles w region svcName :
  Scan.task w region svcName <> None.
Proof.
  unfold Scan.task.
  destruct (Scan.scannersForRegion w region svcName) as [fn|];
    [|discriminate].
  pose proof (withTimeout_settles fn (parsedServiceTimeout (env w))
                ("svc:" ++ svcName ++ ":" ++ String_ region)) as Hs.
  destruct (withTimeout fn _ _) as [t [its|e]|]; discriminate.
Qed.

Lemma Index_task_settles w region svcName :
  units_settle w -> Index.task w region svcName <> None.
Proof.
  intros Hu. unfold Index.task.
  destruct (Index.scannersForRegion w region svcName) as [fn|] eqn:E;
    [|discriminate].
  specialize (Hu _ _ _ E). destruct fn as [t [its|e]|]; discriminate.
Qed.

Lemma parsedMaxRegionConc_positive (e : Env) :
  (1 <= parsedMaxRegionConc e)%nat.
Proof. unfold parsedMaxRegionConc. lia. Qed.

Lemma one_le_three : (1 <= 3)%nat.
Proof. lia. Qed.

Lemma scanCOS_answered w stamp sched :
  cos_answers w -> settles (scanCOS_with stamp w sched) = true.
Proof.
  intros Hcos. destruct (has_credentials (env w)) eqn:Hcred.
  - destruct (Hcos Hcred) as (Hget & Htag & _).
    apply scanCOS_settles; assumption.
  - unfold scanCOS_with. rewrite Hcred. reflexivity.
Qed.

Lemma exportCsvToCos_answered w items :
  cos_answers w -> settles (export_promise (exportCsvToCos w items)) = true.
Proof.
  intros Hcos. destruct (has_credentials (env w)) eqn:Hcred.
  - destruct (Hcos Hcred) as (_ & _ & Hput).
    apply exportCsvToCos_settles, Hput.
  - unfold exportCsvToCos. rewrite Hcred. reflexivity.
Qed.

(** What the exporter's backend answers, as long as it answers, decides
    nothing of the call of the exporter but the outcome of its promise. *)
Lemma exporter_answers_alike (w : World) (put : string -> Reply JsVal)
    items :
  (forall csv, putObject w csv <> Silent) ->
  (forall csv, put csv <> Silent) ->
  exported_items (exportCsvToCos (with_exporter w put) items)
  = exported_items (exportCsvToCos w items)
  /\ put_body (exportCsvToCos (with_exporter w put) items)
     = put_body (exportCsvToCos w items)
  /\ settles (export_promise (exportCsvToCos (with_exporter w put) items))
     = settles (export_promise (exportCsvToCos w items)).
Proof.
  intros H H'. rewrite !exportCsvToCos_items, !exportCsvToCos_body.
  split; [reflexivity|]. split; [reflexivity|].
  rewrite (exportCsvToCos_settles w items H).
  apply exportCsvToCos_settles. exact H'.
Qed.

(** The exporter's reply decides nothing but whether the run ends. *)
Lemma handler_body_exporter (w : World) (put : string -> Reply JsVal)
    listed_regions conc services task scanCOS s :
  (forall csv, putObject w csv <> Silent) ->
  (forall csv, put csv <> Silent) ->
  handler_body (with_exporter w put) listed_regions conc services task
    scanCOS s
  = handler_body w listed_regions conc services task scanCOS s.
Proof.
  intros H H'. unfold handler_body.
  change (sortedOutputs (with_exporter w put)) with (sortedOutputs w).
  destruct listed_regions as [t [regions|e]|]; try reflexivity.
  destruct (negb _); [reflexivity|].
  destruct (scanCOS _) as [t' [cosItems|e]|]; cbv zeta; try reflexivity.
  - match goal with |- context [exportCsvToCos w ?x] =>
      destruct (exporter_answers_alike w put x H H') as (-> & -> & Hs);
      destruct (export_promise (exportCsvToCos w x)),
               (export_promise (exportCsvToCos (with_exporter w put) x)) end;
      simpl in Hs; congruence.
  - match goal with |- context [exportCsvToCos w ?x] =>
      destruct (exporter_answers_alike w put x H H') as (-> & -> & Hs);
      destruct (export_promise (exportCsvToCos w x)),
               (export_promise (exportCsvToCos (with_exporter w put) x)) end;
      simpl in Hs; congruence.
Qed.

(** The region list of the full script is resolved or refused, never left
    pending: the override is at hand, and the describe-regions call is
    under the request timeout. *)
Lemma Scan_listAllRegions_settles (w : World) :
  settles (resolved (Scan.listAllRegions w)) = true.
Proof.
  unfold Scan.listAllRegions. destruct (override (env w)); [reflexivity|].
  cbn [resolved].
  pose proof (withTimeout_settles (DescribeRegions w)
                (parsedRequestTimeout (env w)) "DescribeRegions") as Hs.
  destruct (withTimeout _ _ _) as [t [res|e]|]; try discriminate;
    cbn [await]; [|reflexivity].
  destruct (region_codes res); reflexivity.
Qed.

Lemma Index_listAllRegions_settles (w : World) :
  settles (DescribeRegions w) = true ->
  settles (resolved (Index.listAllRegions w)) = true.
Proof.
  unfold Index.listAllRegions. cbn [resolved].
  destruct (DescribeRegions w) as [t [res|e]|]; try discriminate;
    intros _; cbn [await]; [|reflexivity].
  destruct (region_codes res); reflexivity.
Qed.

(** A run of which the region pool ends and the COS scan stays pending
    does not end. *)
Lemma handler_hangs_on_COS w conc services task scanCOS s t regions :
  (forall region svcName, task region svcName <> None) ->
  scanCOS (cos_sched s) = Pending ->
  handler_body w (Settles t (Fulfilled regions)) conc services task
    scanCOS s = Hangs.
Proof.
  intros Htask Hcos. unfold handler_body.
  rewrite pool_outcome_all_exited by (intros [region svcName]; apply Htask).
  cbn [negb]. rewrite Hcos. reflexivity.
Qed.

(** A unit that fails adds nothing. *)
Lemma Scan_task_absorbs w region svcName fn :
  Scan.scannersForRegion w region svcName = Some fn ->
  (fn = Pending \/ exists t e, fn = Settles t (Rejected e)) ->
  exists effect, Scan.task w region svcName = Some effect
                 /\ forall tally, effect tally = tally.
Proof.
  intros Hfn Hfail. unfold Scan.task. rewrite Hfn.
  destruct Hfail as [->|(t & e & ->)]; cbn [withTimeout].
  - eauto.
  - destruct (t <? _)%N; eauto.
Qed.

Lemma Index_task_absorbs w region svcName fn :
  Index.scannersForRegion w region svcName = Some fn ->
  ((exists t e, fn = Settles t (Rejected e)) ->
   exists effect, Index.task w region svcName = Some effect
                  /\ forall tally, effect tally = tally)
  /\ (fn = Pending -> Index.task w region svcName = None).
Proof.
  intros Hfn. unfold Index.task. rewrite Hfn. split.
  - intros (t & e & ->). eauto.
  - intros ->. reflexivity.
Qed.

Lemma region_records_none task services regions :
  (forall region svcName,
      In svcName services -> added (task region svcName) = []) ->
  region_records task services regions = [].
Proof.
  intros Hnone. unfold region_records.
  assert (Hkeys : forall r,
             flat_map (fun svcName => added (task r svcName)) services = []).
  { intros r. induction services as [|k ks IHk]; [reflexivity|].
    cbn [flat_map]. rewrite Hnone by (left; reflexivity).
    rewrite IHk; [reflexivity|]. intros region svcName Hin.
    apply Hnone. right. exact Hin. }
  induction regions as [|r rs IH]; [reflexivity|].
  cbn [flat_map]. rewrite IH, Hkeys. reflexivity.
Qed.

Lemma Scan_task_adds_nothing w services :
  every_unit_fails (Scan.scannersForRegion w) services ->
  forall region svcName,
    In svcName services -> added (Scan.task w region svcName) = [].
Proof.
  intros Hfail region svcName Hin.
  destruct (Scan.scannersForRegion w region svcName) as [fn|] eqn:E.
  - destruct (Hfail _ _ _ Hin E) as [Hf|[t ->]].
    + destruct (Scan_task_absorbs w region svcName fn E Hf)
        as (effect & -> & Hid).
      cbn [added]. rewrite Hid. reflexivity.
    + unfold Scan.task. rewrite E. unfold withTimeout.
      destruct (t <? _)%N; reflexivity.
  - unfold Scan.task. rewrite E. reflexivity.
Qed.

Lemma Index_task_adds_nothing w services :
  every_unit_fails (Index.scannersForRegion w) services ->
  forall region svcName,
    In svcName services -> added (Index.task w region svcName) = [].
Proof.
  intros Hfail region svcName Hin.
  destruct (Index.scannersForRegion w region svcName) as [fn|] eqn:E.
  - destruct (Index_task_absorbs w region svcName fn E) as [Hrej Hpend].
    destruct (Hfail _ _ _ Hin E) as [[->|Hr]|[t ->]].
    + rewrite (Hpend eq_refl). reflexivity.
    + destruct (Hrej Hr) as (effect & -> & Hid).
      cbn [added]. rewrite Hid. reflexivity.
    + unfold Index.task. rewrite E. reflexivity.
  - unfold Index.task. rewrite E. reflexivity.
Qed.

(** A run that returns after every unit failed and the COS scan handed
    nothing over reports no record. *)
Lemma handler_summary_of_failures w listed_regions conc services task
    scanCOS s r :
  (forall region svcName, pushes_and_counts (task region svcName)) ->
  (1 <= conc)%nat ->
  handler_body w listed_regions conc services task scanCOS s = Returns r ->
  (forall region svcName,
      In svcName services -> added (task region svcName) = []) ->
  cos_records (scanCOS (cos_sched s)) = [] ->
  handed_to_exporter r = [].
Proof.
  intros Hp Hc Hr Hnone Hcos.
  destruct (handler_summary w _ _ _ _ _ s r Hp Hc Hr)
    as (t & regions & _ & _ & _ & _ & _ & Hperm).
  rewrite (region_records_none _ _ _ Hnone), Hcos in Hperm.
  apply Permutation_sym, Permutation_nil in Hperm. exact Hperm.
Qed.

(** A run whose region list is resolved and in which nothing stays
    pending returns the summary. *)
Lemma handler_returns_summary w conc services task scanCOS s t regions :
  (forall region svcName, pushes_and_counts (task region svcName)) ->
  (1 <= conc)%nat ->
  (forall region svcName, task region svcName <> None) ->
  settles (scanCOS (cos_sched s)) = true ->
  (forall items, settles (export_promise (exportCsvToCos w items)) = true) ->
  exists r,
    handler_body w (Settles t (Fulfilled regions)) conc services task
      scanCOS s = Returns r
    /\ statusCode r = 200%Z
    /\ body r = json_of_counts "scannedRegions" (List.length regions)
                  "untaggedCount" (List.length (handed_to_exporter r))
    /\ ((forall region svcName,
            In svcName services -> added (task region svcName) = []) ->
        cos_records (scanCOS (cos_sched s)) = [] ->
        body r = json_of_counts "scannedRegions" (List.length regions)
                   "untaggedCount" 0).
Proof.
  intros Hp Hc Htask Hcos Hexp.
  destruct (handler_returns_when_settled w _ conc services task scanCOS s
              t regions eq_refl Htask Hcos Hexp) as [r Hr].
  destruct (handler_summary w _ _ _ _ _ s r Hp Hc Hr)
    as (t' & regions' & Hl & Hst & Hb & _).
  injection Hl as _ <-.
  exists r. split; [exact Hr|]. split; [exact Hst|].
  split; [exact Hb|].
  intros Hnone Hnocos. rewrite Hb.
  rewrite (handler_summary_of_failures w _ _ _ _ _ s r Hp Hc Hr Hnone Hnocos).
  reflexivity.
Qed.

(** C7, as stated, fails: a call of [main_handler] need not return.  In
    [index.js] no unit is under a timeout, and with a CCN listing that
    never answers the run stays pending though the region list was
    resolved; and in both files no COS call is under a timeout, so that
    with a bucket listing that is never delivered the run of the full
    script, and that of [index.js], stays pending as well. *)
Lemma main_handler_can_stay_pending :
  (resolved (Index.listAllRegions ccn_hangs)
   = Settles 40%N (Fulfilled [JStr "eu-frankfurt"; JStr "ap-tokyo"])
   /\ Index.main_handler ccn_hangs fifo = Hangs)
  /\ (resolved (Scan.listAllRegions listing_unanswered)
      = resolve [JStr "r1"; JStr "r2"]
      /\ Scan.main_handler listing_unanswered fifo = Hangs)
  /\ (resolved (Index.listAllRegions listing_unanswered)
      = Settles 40%N (Fulfilled [JStr "r1"; JStr "r2"])
      /\ Index.main_handler listing_unanswered fifo = Hangs).
Proof.
  repeat split; vm_compute; reflexivity.
Qed.

(** C7 (amended): the run raises exactly when the region list cannot be
    resolved, and then with the resolver's error.  When the list is
    resolved and the COS calls that are made are answered, by data or by
    an error, the run returns status 200 and, as its body, the JSON text
    of [scannedRegions], the length of the list, and [untaggedCount], the
    number of records handed to the exporter, which is 0 when every
    scanner unit fails and the COS scan hands nothing over; that holds
    whatever becomes of the scanner units in the full script, each being
    under its timeout, and provided the units settle in [index.js].  The
    return is the same whatever the exporter backend answers, and is
    reached as well when the exporter raises for want of credentials.
    The run does not return when something it awaits never settles: with
    credentials and a bucket listing that is never delivered it stays
    pending, in both files. *)
Theorem main_handler_always_summarises (w : World) (s : Schedulers) :
  ((forall e, Scan.main_handler w s = Raises e
              <-> exists t, resolved (Scan.listAllRegions w)
                            = Settles t (Rejected e))
   /\ (forall t regions,
          cos_answers w ->
          resolved (Scan.listAllRegions w) = Settles t (Fulfilled regions) ->
          exists r,
            Scan.main_handler w s = Returns r
            /\ statusCode r = 200%Z
            /\ body r = json_of_counts "scannedRegions" (List.length regions)
                          "untaggedCount"
                          (List.length (handed_to_exporter r))
            /\ (every_unit_fails (Scan.scannersForRegion w)
                  (Scan.regionServices w) ->
                cos_records (Scan.scanCOS w (cos_sched s)) = [] ->
                body r = json_of_counts "scannedRegions"
                           (List.length regions) "untaggedCount" 0))
   /\ (cos_answers w -> Scan.main_handler w s <> Hangs)
   /\ (forall t regions,
          resolved (Scan.listAllRegions w) = Settles t (Fulfilled regions) ->
          has_credentials (env w) = true -> getService w = Silent ->
          Scan.main_handler w s = Hangs)
   /\ (forall put,
          (forall csv, putObject w csv <> Silent) ->
          (forall csv, put csv <> Silent) ->
          Scan.main_handler (with_exporter w put) s = Scan.main_handler w s))
  /\
  ((forall e, Index.main_handler w s = Raises e
              <-> exists t, resolved (Index.listAllRegions w)
                            = Settles t (Rejected e))
   /\ (forall t regions,
          cos_answers w -> units_settle w ->
          resolved (Index.listAllRegions w) = Settles t (Fulfilled regions) ->
          exists r,
            Index.main_handler w s = Returns r
            /\ statusCode r = 200%Z
            /\ body r = json_of_counts "scannedRegions" (List.length regions)
                          "untaggedCount"
                          (List.length (handed_to_exporter r))
            /\ (every_unit_fails (Index.scannersForRegion w)
                  Index.regionServices ->
                cos_records (Index.scanCOS w (cos_sched s)) = [] ->
                body r = json_of_counts "scannedRegions"
                           (List.length regions) "untaggedCount" 0))
   /\ (cos_answers w -> units_settle w ->
       settles (DescribeRegions w) = true ->
       Index.main_handler w s <> Hangs)
   /\ (forall t regions,
          units_settle w ->
          resolved (Index.listAllRegions w) = Settles t (Fulfilled regions) ->
          has_credentials (env w) = true -> getService w = Silent ->
          Index.main_handler w s = Hangs)
   /\ (forall put,
          (forall csv, putObject w csv <> Silent) ->
          (forall csv, put csv <> Silent) ->
          Index.main_handler (with_exporter w put) s
          = Index.main_handler w s)).
Proof.
  assert (Hscan : forall t regions,
             cos_answers w ->
             resolved (Scan.listAllRegions w)
             = Settles t (Fulfilled regions) ->
             exists r,
               Scan.main_handler w s = Returns r
               /\ statusCode r = 200%Z
               /\ body r = json_of_counts "scannedRegions"
                             (List.length regions) "untaggedCount"
                             (List.length (handed_to_exporter r))
               /\ (every_unit_fails (Scan.scannersForRegion w)
                     (Scan.regionServices w) ->
                   cos_records (Scan.scanCOS w (cos_sched s)) = [] ->
                   body r = json_of_counts "scannedRegions"
                              (List.length regions) "untaggedCount" 0)).
  { intros t regions Hcos Hres. unfold Scan.main_handler. rewrite Hres.
    destruct (handler_returns_summary w (parsedMaxRegionConc (env w))
                (Scan.regionServices w) (Scan.task w) (Scan.scanCOS w) s
                t regions (Scan_task_pushes w)
                (parsedMaxRegionConc_positive _)
                (Scan_task_settles w)
                (scanCOS_answered w _ _ Hcos)
                (fun items => exportCsvToCos_answered w items Hcos))
      as (r & Hr & Hst & Hb & Hzero).
    exists r. repeat split; auto.
    intros Hfail Hnone. apply Hzero; [|exact Hnone].
    apply Scan_task_adds_nothing, Hfail. }
  assert (Hindex : forall t regions,
             cos_answers w -> units_settle w ->
             resolved (Index.listAllRegions w)
             = Settles t (Fulfilled regions) ->
             exists r,
               Index.main_handler w s = Returns r
               /\ statusCode r = 200%Z
               /\ body r = json_of_counts "scannedRegions"
                             (List.length regions) "untaggedCount"
                             (List.length (handed_to_exporter r))
               /\ (every_unit_fails (Index.scannersForRegion w)
                     Index.regionServices ->
                   cos_records (Index.scanCOS w (cos_sched s)) = [] ->
                   body r = json_of_counts "scannedRegions"
                              (List.length regions) "untaggedCount" 0)).
  { intros t regions Hcos Hunits Hres. unfold Index.main_handler.
    rewrite Hres.
    destruct (handler_returns_summary w 3 Index.regionServices
                (Index.task w) (Index.scanCOS w) s
                t regions (Index_task_pushes w) one_le_three
                (fun region svcName =>
                   Index_task_settles w region svcName Hunits)
                (scanCOS_answered w _ _ Hcos)
                (fun items => exportCsvToCos_answered w items Hcos))
      as (r & Hr & Hst & Hb & Hzero).
    exists r. repeat split; auto.
    intros Hfail Hnone. apply Hzero; [|exact Hnone].
    apply Index_task_adds_nothing, Hfail. }
  split; (split; [|split; [|split; [|split]]]).
  - intros e. apply handler_raises.
  - exact Hscan.
  - intros Hcos Hhangs.
    pose proof (Scan_listAllRegions_settles w) as Hs.
    destruct (resolved (Scan.listAllRegions w)) as [t [regions|e]|] eqn:E;
      [| |discriminate].
    + destruct (Hscan t regions Hcos eq_refl) as (r & Hr & _). congruence.
    + assert (Hr : Scan.main_handler w s = Raises e)
        by (apply handler_raises; rewrite E; eauto).
      congruence.
  - intros t regions Hres Hcred Hget. unfold Scan.main_handler.
    rewrite Hres. apply handler_hangs_on_COS; [apply Scan_task_settles|].
    unfold Scan.scanCOS, scanCOS_with. rewrite Hcred, Hget. reflexivity.
  - intros put H H'. unfold Scan.main_handler.
    change (handler_body (with_exporter w put)
              (resolved (Scan.listAllRegions w))
              (parsedMaxRegionConc (env w)) (Scan.regionServices w)
              (Scan.task w) (Scan.scanCOS w) s
            = handler_body w (resolved (Scan.listAllRegions w))
                (parsedMaxRegionConc (env w)) (Scan.regionServices w)
                (Scan.task w) (Scan.scanCOS w) s).
    apply handler_body_exporter; assumption.
  - intros e. apply handler_raises.
  - exact Hindex.
  - intros Hcos Hunits Hd Hhangs.
    pose proof (Index_listAllRegions_settles w Hd) as Hs.
    destruct (resolved (Index.listAllRegions w)) as [t [regions|e]|] eqn:E;
      [| |discriminate].
    + destruct (Hindex t regions Hcos Hunits eq_refl) as (r & Hr & _).
      congruence.
    + assert (Hr : Index.main_handler w s = Raises e)
        by (apply handler_raises; rewrite E; eauto).
      congruence.
  - intros t regions Hunits Hres Hcred Hget. unfold Index.main_handler.
    rewrite Hres. apply handler_hangs_on_COS.
    + intros region svcName. apply Index_task_settles, Hunits.
    + unfold Index.scanCOS, scanCOS_with. rewrite Hcred, Hget. reflexivity.
  - intros put H H'. unfold Index.main_handler.
    change (handler_body (with_exporter w put)
              (resolved (Index.listAllRegions w)) 3 Index.regionServices
              (Index.task w) (Index.scanCOS w) s
            = handler_body w (resolved (Index.listAllRegions w)) 3
                Index.regionServices (Index.task w) (Index.scanCOS w) s).
    apply handler_body_exporter; assumption.
Qed.

(** C10: in every state the region workers can reach the counter is the
    number of records collected so far, and the loop over the records of
    the COS scan keeps it so; and whenever the run returns, the
    [untaggedCount] printed in the body of its summary is the number of
    records of the sequence that was handed to the exporter, which holds,
    in sorted order, exactly the records the region tasks pushed and
    those the COS scan handed over, and of which the exporter, when it
    has credentials, puts the CSV text. *)
Theorem untaggedCount_counts_outputs (w : World) (s : Schedulers)
    (r : Report) :
  (Scan.main_handler w s = Returns r ->
   exists t regions,
     resolved (Scan.listAllRegions w) = Settles t (Fulfilled regions)
     /\ body r = json_of_counts "scannedRegions" (List.length regions)
                   "untaggedCount" (List.length (handed_to_exporter r))
     /\ Permutation (handed_to_exporter r)
          (region_records (Scan.task w) (Scan.regionServices w) regions
           ++ cos_records (Scan.scanCOS w (cos_sched s)))
     /\ csv_put r
        = (if has_credentials (env w)
           then Some (csv_text (handed_to_exporter r)) else None))
  /\
  (Index.main_handler w s = Returns r ->
   exists t regions,
     resolved (Index.listAllRegions w) = Settles t (Fulfilled regions)
     /\ body r = json_of_counts "scannedRegions" (List.length regions)
                   "untaggedCount" (List.length (handed_to_exporter r))
     /\ Permutation (handed_to_exporter r)
          (region_records (Index.task w) Index.regionServices regions
           ++ cos_records (Index.scanCOS w (cos_sched s)))
     /\ csv_put r
        = (if has_credentials (env w)
           then Some (csv_text (handed_to_exporter r)) else None))
  /\
  (forall regions concurrency p,
      reaches regions (tasks (Scan.regionServices w))
        (settle_task (Scan.task w))
        (start_pool regions concurrency empty_tally) p
      \/ reaches regions (tasks Index.regionServices)
           (settle_task (Index.task w))
           (start_pool regions concurrency empty_tally) p ->
      untaggedCount (acc p) = List.length (outputs (acc p)))
  /\
  (forall cosItems tally,
      untaggedCount tally = List.length (outputs tally) ->
      outputs (push_cos cosItems tally) = outputs tally ++ cosItems
      /\ untaggedCount (push_cos cosItems tally)
         = List.length (outputs (push_cos cosItems tally))).
Proof.
  split; [|split; [|split]].
  - intros Hr.
    destruct (handler_summary w _ _ _ _ _ s r (Scan_task_pushes w)
                (parsedMaxRegionConc_positive _) Hr)
      as (t & regions & Hl & _ & Hb & _ & Hput & Hperm).
    exists t, regions. auto.
  - intros Hr.
    destruct (handler_summary w _ _ _ _ _ s r (Index_task_pushes w)
                one_le_three Hr)
      as (t & regions & Hl & _ & Hb & _ & Hput & Hperm).
    exists t, regions. auto.
  - intros regions concurrency p [Hreach|Hreach].
    + apply (acc_inv_reachable _ _ _ tally_ok _ _) in Hreach;
        [exact Hreach| |reflexivity].
      intros [region svcName] effect a He Ha.
      eapply pushes_keeps_tally_ok;
        [apply (Scan_task_pushes w region svcName)|exact He|exact Ha].
    + apply (acc_inv_reachable _ _ _ tally_ok _ _) in Hreach;
        [exact Hreach| |reflexivity].
      intros [region svcName] effect a He Ha.
      eapply pushes_keeps_tally_ok;
        [apply (Index_task_pushes w region svcName)|exact He|exact Ha].
  - intros cosItems tally Hok.
    destruct (push_cos_spec cosItems tally) as [Ho Hc].
    split; [exact Ho|]. rewrite Hc, Ho, length_app, Hok. reflexivity.
Qed.

(* ================================================================== *)
(** ** Page failures and the scanner-unit boundary *)

Lemma pagedFetch_loop_failing_page fuel fetchPage pageSize ok lk req :
  forall offset all,
    let run := pagedFetch_loop fuel fetchPage pageSize ok lk offset all in
    In req (requests run) ->
    (fetchPage req = Pending -> fetched run = Some Pending)
    /\ (forall t e, fetchPage req = Settles t (Rejected e) ->
                    exists t', fetched run = Some (Settles t' (Rejected e))).
Proof.
  induction fuel as [|fuel IH]; intros offset all; cbn [pagedFetch_loop];
    [intros []|].
  set (req0 := page_request ok lk offset pageSize).
  destruct (fetchPage req0) as [t0 [page|e0]|] eqn:E0.
  - destruct (_ <? _)%Z.
    + cbn [requests fetched]. intros [<-|[]].
      split; [congruence|]. intros t e He. congruence.
    + cbn [after_page requests fetched]. intros [<-|Hin].
      * split; [congruence|]. intros t e He. congruence.
      * destruct (IH _ _ Hin) as [Hp Hr]. split.
        -- intros H. rewrite (Hp H). reflexivity.
        -- intros t e H. destruct (Hr t e H) as [t' ->].
           cbn [option_map delay]. eauto.
  - cbn [requests fetched]. intros [<-|[]].
    split; [congruence|]. intros t e He. rewrite E0 in He.
    injection He as _ <-. eauto.
  - cbn [requests fetched]. intros [<-|[]]. split; [reflexivity|].
    intros t e He. congruence.
Qed.

(** C2, as stated, fails: the [pagedFetch] in effect puts no timeout on a
    page, so that a page fetch that never answers leaves the call pending
    instead of failing it with the page timeout, as the shadowed
    declaration would; and in [index.js], where no unit is under a timeout
    either, the worker that claimed the region never proceeds and the run
    does not return. *)
Lemma pagedFetch_applies_no_page_timeout :
  let e := env_of None None true in
  let timeout := Settles (parsedRequestTimeout e)
                         (Rejected (TimeoutError "page")) in
  fetched (pagedFetch 3 never_answers) = Some Pending
  /\ fetched (pagedFetch 3 never_answers) <> Some timeout
  /\ fetched (Shadowed.pagedFetch_with e 3 never_answers 100 0
                "Offset" "Limit") = Some timeout
  /\ Index.main_handler ccn_hangs fifo = Hangs.
Proof.
  cbv zeta. split; [reflexivity|]. split; [discriminate|].
  split; [reflexivity|]. vm_compute. reflexivity.
Qed.

(** C2 (amended): the [pagedFetch] in effect applies no per-page timeout.
    A page fetch that rejects fails the whole call with that error, the
    pages gathered before it being dropped, and a page fetch that never
    settles leaves the call pending.  In the full script a unit whose
    promise is rejected or stays pending adds no record, because the unit
    is invoked under the per-service timeout and its failure is caught,
    and the region workers always run to their end; in [index.js] a
    rejected unit adds no record either, while a unit that stays pending
    is never done. *)
Theorem page_failures_reach_the_unit_boundary :
  (forall fuel fetchPage pageSize startOffset offsetKey limitKey req,
      let run := pagedFetch_with fuel fetchPage pageSize startOffset
                   offsetKey limitKey in
      In req (requests run) ->
      (fetchPage req = Pending -> fetched run = Some Pending)
      /\ (forall t e, fetchPage req = Settles t (Rejected e) ->
            exists t', fetched run = Some (Settles t' (Rejected e))))
  /\ (forall w region svcName fn,
         Scan.scannersForRegion w region svcName = Some fn ->
         (fn = Pending \/ exists t e, fn = Settles t (Rejected e)) ->
         exists effect, Scan.task w region svcName = Some effect
                        /\ forall tally, effect tally = tally)
  /\ (forall w regions sched,
         all_exited
           (pool_outcome regions
              (tasks (Scan.regionServices w))
              (settle_task (Scan.task w))
              (parsedMaxRegionConc (env w)) empty_tally sched) = true)
  /\ (forall w region svcName fn,
         Index.scannersForRegion w region svcName = Some fn ->
         ((exists t e, fn = Settles t (Rejected e)) ->
          exists effect, Index.task w region svcName = Some effect
                         /\ forall tally, effect tally = tally)
         /\ (fn = Pending -> Index.task w region svcName = None)).
Proof.
  split; [|split; [|split]].
  - intros fuel fetchPage pageSize startOffset ok lk req.
    apply pagedFetch_loop_failing_page.
  - apply Scan_task_absorbs.
  - intros w regions sched. apply pool_outcome_all_exited.
    intros [region svcName]. apply Scan_task_settles.
  - apply Index_task_absorbs.
Qed.

(* ================================================================== *)
(** ** Account-global resource kinds *)








(* ================================================================== *)
(** ** The order of the report *)

Lemma compareRecords_in_report_order
    (lc : string -> string -> comparison) (a b : ScanRecord) :
  compareRecords lc a b <> Gt -> in_report_order lc a b.
Proof.
  unfold compareRecords, in_report_order. cbv zeta.
  destruct (lc (String_ (region a)) (String_ (region b)));
    [|left; reflexivity|congruence].
  destruct (lc (String_ (service a)) (String_ (service b)));
    [|right; split; [reflexivity|left; reflexivity]|congruence].
  intros H. right. split; [reflexivity|]. right. split; [reflexivity|exact H].
Qed.

Lemma StronglySorted_weaken {A} (P Q : A -> A -> Prop) (l : list A) :
  (forall a b, P a b -> Q a b) -> StronglySorted P l -> StronglySorted Q l.
Proof.
  intros Hpq. induction 1 as [|x l Hl IH Hx]; constructor; [exact IH|].
  eapply Forall_impl; [|exact Hx]. intros b. apply Hpq.
Qed.

Lemma sortedOutputs_in_report_order (w : World) (out : list ScanRecord) :
  consistent (localeCompare w) ->
  StronglySorted (in_report_order (localeCompare w)) (sortedOutputs w out).
Proof.
  intros Hlc.
  apply (StronglySorted_weaken (precedes (localeCompare w))).
  - intros a b. apply compareRecords_in_report_order.
  - apply (sort_sorted _ (compareRecords_consistent _ Hlc)).
Qed.

Lemma reversed_consistent {A} (cmp : A -> A -> comparison) :
  consistent cmp -> consistent (fun a b => cmp b a).
Proof.
  intros [Ha Ht]. split.
  - intros a b. apply Ha.
  - intros a b c Hab Hbc. exact (Ht c b a Hbc Hab).
Qed.

Lemma dictionary_consistent : consistent dictionary.
Proof.
  unfold dictionary. apply lex_consistent.
  - apply (consistent_on toLowerCase String.compare),
      string_compare_consistent.
  - apply reversed_consistent, string_compare_consistent.
Qed.

(** C6, as stated, fails: the strings are not compared in lexicographic
    order but by the host's [localeCompare].  On a host that collates as
    a dictionary does, the records of the instances [B], [a] and [c] of
    one region and service are handed to the exporter, and written to the
    CSV text, in the order [a], [B], [c], where the lexicographic order
    of the ids puts [B] before [a]. *)
Lemma report_order_is_not_lexicographic :
  consistent (localeCompare mixed_case)
  /\ localeCompare mixed_case "a" "B" = Lt
  /\ lexicographic "a" "B" = Gt
  /\ exists r,
       Scan.main_handler mixed_case fifo = Returns r
       /\ handed_to_exporter r
          = [ record_of "r1" "CVM" "a"; record_of "r1" "CVM" "B";
              record_of "r1" "CVM" "c" ]
       /\ csv_put r
          = Some ("region,service,id" ++ nl ++ "r1,CVM,a" ++ nl
                  ++ "r1,CVM,B" ++ nl ++ "r1,CVM,c" ++ nl)%string
       /\ ~ StronglySorted (in_report_order lexicographic)
            (handed_to_exporter r).
Proof.
  split; [exact dictionary_consistent|]. split; [reflexivity|].
  split; [reflexivity|].
  eexists. split; [vm_compute; reflexivity|]. split; [reflexivity|].
  split; [reflexivity|].
  cbn [handed_to_exporter]. intros Hs.
  inversion Hs as [|x l _ Hall]; subst.
  inversion Hall as [|y l' Hab _]; subst.
  unfold in_report_order in Hab. vm_compute in Hab.
  destruct Hab as [H|[_ [H|[_ H]]]]; try discriminate. apply H. reflexivity.
Qed.

(** C6 (amended): whatever the order in which the records were
    collected, the sequence handed to the exporter is a rearrangement of
    them, none dropped and none merged, a record that occurs twice
    occurring twice, in which every record is not after any later one by
    (region, service, id), each field taken as a string, in that
    priority; so is the sequence of every run that returns, and it is the
    sequence of which the exporter puts the CSV text.  The order of the
    strings is not the lexicographic one but that of the host's
    [localeCompare], which the language requires to be a consistent
    comparator; where it puts ["r1"] before ["r2"] and ["a"] before
    ["c"], [(r2,svc,b), (r1,svc,a), (r1,svc,c)] comes out as
    [(r1,svc,a), (r1,svc,c), (r2,svc,b)]. *)
Theorem sortedOutputs_ordered (w : World) (out : list ScanRecord) :
  consistent (localeCompare w) ->
  Permutation out (sortedOutputs w out)
  /\ List.length (sortedOutputs w out) = List.length out
  /\ StronglySorted (in_report_order (localeCompare w)) (sortedOutputs w out)
  /\ (forall x, sortedOutputs w [x; x] = [x; x])
  /\ (forall s r,
         Scan.main_handler w s = Returns r
         \/ Index.main_handler w s = Returns r ->
         StronglySorted (in_report_order (localeCompare w))
           (handed_to_exporter r)
         /\ csv_put r
            = (if has_credentials (env w)
               then Some (csv_text (handed_to_exporter r)) else None))
  /\ (localeCompare w "r1" "r2" = Lt ->
      localeCompare w "a" "c" = Lt ->
      sortedOutputs w [ record_of "r2" "svc" "b"; record_of "r1" "svc" "a";
                        record_of "r1" "svc" "c" ]
      = [ record_of "r1" "svc" "a"; record_of "r1" "svc" "c";
          record_of "r2" "svc" "b" ]).
Proof.
  intros Hlc.
  pose proof (compareRecords_consistent _ Hlc) as Hcmp.
  split; [apply sort_perm|]. split.
  { symmetry. apply Permutation_length, sort_perm. }
  split; [apply sortedOutputs_in_report_order, Hlc|].
  split.
  { intros x. unfold sortedOutputs. cbn [sort insert_sorted].
    rewrite (consistent_refl _ Hcmp x). reflexivity. }
  split.
  { intros s r [Hr|Hr].
    - destruct (handler_summary w _ _ _ _ _ s r (Scan_task_pushes w)
                  (parsedMaxRegionConc_positive _) Hr)
        as (_ & _ & _ & _ & _ & (out' & Hout) & Hput & _).
      split; [|exact Hput].
      rewrite Hout. apply sortedOutputs_in_report_order, Hlc.
    - destruct (handler_summary w _ _ _ _ _ s r (Index_task_pushes w)
                  one_le_three Hr)
        as (_ & _ & _ & _ & _ & (out' & Hout) & Hput & _).
      split; [|exact Hput].
      rewrite Hout. apply sortedOutputs_in_report_order, Hlc. }
  intros Hr Ha. unfold sortedOutputs.
  assert (Hrefl : forall s, localeCompare w s s = Eq)
    by (intros s; apply (consistent_refl _ Hlc)).
  assert (Hr' : localeCompare w "r2" "r1" = Gt)
    by (rewrite (proj1 Hlc "r1" "r2"), Hr; reflexivity).
  set (lc := localeCompare w) in *.
  assert (Hac : compareRecords lc (record_of "r1" "svc" "a")
                  (record_of "r1" "svc" "c") = Lt).
  { unfold compareRecords, record_of; cbn [String_ region service id].
    rewrite !Hrefl. exact Ha. }
  assert (Hba : compareRecords lc (record_of "r2" "svc" "b")
                  (record_of "r1" "svc" "a") = Gt).
  { unfold compareRecords, record_of; cbn [String_ region service id].
    rewrite Hr'. reflexivity. }
  assert (Hbc : compareRecords lc (record_of "r2" "svc" "b")
                  (record_of "r1" "svc" "c") = Gt).
  { unfold compareRecords, record_of; cbn [String_ region service id].
    rewrite Hr'. reflexivity. }
  cbn [sort insert_sorted]. rewrite Hac. cbn [insert_sorted].
  rewrite Hba. cbn [insert_sorted]. rewrite Hbc. reflexivity.
Qed.

(* ================================================================== *)
(** ** The properties at work in concrete worlds *)

Lemma sortedOutputs_ordered_witness :
  let collected := [ record_of "r1" "CVM" "B"; record_of "r1" "CVM" "a";
                     record_of "r1" "CVM" "B" ] in
  Permutation collected (sortedOutputs mixed_case collected)
  /\ StronglySorted (in_report_order dictionary)
       (sortedOutputs mixed_case collected)
  /\ sortedOutputs mixed_case
       [ record_of "r1" "CVM" "B"; record_of "r1" "CVM" "B" ]
     = [ record_of "r1" "CVM" "B"; record_of "r1" "CVM" "B" ]
  /\ StronglySorted (in_report_order dictionary)
       (handed_to_exporter mixed_case_report)
  /\ csv_put mixed_case_report
     = Some (csv_text (handed_to_exporter mixed_case_report))
  /\ sortedOutputs mixed_case
       [ record_of "r2" "svc" "b"; record_of "r1" "svc" "a";
         record_of "r1" "svc" "c" ]
     = [ record_of "r1" "svc" "a"; record_of "r1" "svc" "c";
         record_of "r2" "svc" "b" ].
Proof.
  intros collected.
  destruct (sortedOutputs_ordered mixed_case collected dictionary_consistent)
    as (Hperm & _ & Hsorted & Htwice & Hrun & Hex).
  destruct (Hrun fifo mixed_case_report (or_introl eq_refl))
    as [Hhanded Hput].
  split; [exact Hperm|]. split; [exact Hsorted|].
  split; [exact (Htwice (record_of "r1" "CVM" "B"))|].
  split; [exact Hhanded|]. split; [exact Hput|].
  exact (Hex eq_refl eq_refl).
Defined.

(** The end-to-end scenario of the specification, in the full script. *)
Example two_regions_end_to_end :
  Scan.main_handler two_regions fifo = Returns two_regions_report
  /\ statusCode two_regions_report = 200%Z
  /\ body two_regions_report
     = ("{" ++ dq ++ "scannedRegions" ++ dq ++ ":2," ++ dq
        ++ "untaggedCount" ++ dq ++ ":2}")%string
  /\ handed_to_exporter two_regions_report
     = [ record_of "r1" "CVM" "i1"; record_of "r2" "CVM" "i2" ]
  /\ csv_put two_regions_report
     = Some ("region,service,id" ++ nl ++ "r1,CVM,i1" ++ nl
             ++ "r2,CVM,i2" ++ nl)%string.
Proof. repeat split; vm_compute; reflexivity. Qed.

Lemma no_call_is_silent_in_two_regions : cos_answers two_regions.
Proof.
  intros _. repeat split; try discriminate; intros; discriminate.
Qed.

Lemma two_regions_units_settle : units_settle two_regions.
Proof.
  intros region key fn. unfold Index.scannersForRegion.
  destruct (key =? "CCN") eqn:Eccn.
  - intros [= <-]. unfold Index.CCN.
    destruct (strict_eq region home_region); reflexivity.
  - destruct (is_unit Index.unit_names key).
    + intros [= <-]. cbn [other_unit two_regions].
      destruct (key =? "CVM"); [|reflexivity].
      destruct (strict_eq region (JStr "r1")); reflexivity.
    + unfold inherited.
      destruct (key =? "toString"); [intros [= <-]; reflexivity|].
      destruct (existsb _ _); [intros [= <-]; reflexivity|discriminate].
Qed.

Lemma every_unit_rejects_settles : units_settle every_unit_rejects.
Proof.
  intros region key fn. unfold Index.scannersForRegion.
  destruct (key =? "CCN").
  - intros [= <-]. unfold Index.CCN.
    destruct (strict_eq region home_region); reflexivity.
  - destruct (is_unit Index.unit_names key).
    + intros [= <-]. reflexivity.
    + unfold inherited.
      destruct (key =? "toString"); [intros [= <-]; reflexivity|].
      destruct (existsb _ _); [intros [= <-]; reflexivity|discriminate].
Qed.

Lemma refused_fails (t : N) (e : JsError) :
  let fn : Promise (list JsVal) := Settles t (Rejected e) in
  fails fn \/ exists t', fn = Settles t' (Fulfilled []).
Proof. left. right. eauto. Qed.

Lemma every_unit_rejects_in_index :
  every_unit_fails (Index.scannersForRegion every_unit_rejects)
    Index.regionServices.
Proof.
  intros region key fn Hin. unfold Index.scannersForRegion.
  destruct (key =? "CCN") eqn:Eccn.
  - intros [= <-]. unfold Index.CCN.
    destruct (strict_eq region home_region); cbn [negb].
    + apply refused_fails.
    + right. exists 0%N. reflexivity.
  - destruct (is_unit Index.unit_names key) eqn:Eunit.
    + intros [= <-]. apply refused_fails.
    + cbn [In Index.regionServices] in Hin.
      repeat (destruct Hin as [<-|Hin]; [discriminate|]).
      destruct Hin.
Qed.

Lemma every_unit_rejects_in_scan :
  every_unit_fails (Scan.scannersForRegion every_unit_rejects)
    (Scan.regionServices every_unit_rejects).
Proof.
  intros region key fn Hin. unfold Scan.scannersForRegion.
  destruct (key =? "CCN") eqn:Eccn.
  - intros [= <-]. unfold Scan.CCN.
    destruct (strict_eq region home_region); cbn [negb].
    + apply refused_fails.
    + right. exists 0%N. reflexivity.
  - destruct (key =? "PRIVATE_DNS") eqn:Edns.
    + intros [= <-]. unfold Scan.PRIVATE_DNS.
      destruct (strict_eq region home_region); cbn [negb].
      * apply refused_fails.
      * right. exists 0%N. reflexivity.
    + destruct (is_unit Scan.unit_names key) eqn:Eunit.
      * intros [= <-]. apply refused_fails.
      * change (Scan.regionServices every_unit_rejects)
          with Scan.allRegionServices in Hin.
        cbn [In Scan.allRegionServices] in Hin.
        repeat (destruct Hin as [<-|Hin]; [discriminate|]).
        destruct Hin.
Qed.

Lemma main_handler_always_summarises_witness :
  (exists r,
      Scan.main_handler two_regions fifo = Returns r
      /\ statusCode r = 200%Z
      /\ body r = json_of_counts "scannedRegions" 2 "untaggedCount"
                    (List.length (handed_to_exporter r)))
  /\ Scan.main_handler
       (with_exporter two_regions
          (fun _ => answers_error 500 "InternalError")) fifo
     = Scan.main_handler two_regions fifo
  /\ (exists r,
         Index.main_handler two_regions fifo = Returns r
         /\ statusCode r = 200%Z
         /\ body r = json_of_counts "scannedRegions" 2 "untaggedCount"
                       (List.length (handed_to_exporter r)))
  /\ Index.main_handler
       (with_exporter two_regions
          (fun _ => answers_error 500 "InternalError")) fifo
     = Index.main_handler two_regions fifo
  /\ (exists r,
         Scan.main_handler every_unit_rejects fifo = Returns r
         /\ body r = json_of_counts "scannedRegions" 2 "untaggedCount" 0)
  /\ (exists r,
         Index.main_handler every_unit_rejects fifo = Returns r
         /\ body r = json_of_counts "scannedRegions" 2 "untaggedCount" 0)
  /\ Scan.main_handler two_regions fifo <> Hangs
  /\ Scan.main_handler listing_unanswered fifo = Hangs
  /\ Index.main_handler listing_unanswered fifo = Hangs.
Proof.
  destruct (main_handler_always_summarises two_regions fifo)
    as [(_ & Hscan & Hends & _ & Hput) (_ & Hindex & _ & _ & Hput')].
  destruct (main_handler_always_summarises every_unit_rejects fifo)
    as [(_ & Hscan0 & _) (_ & Hindex0 & _)].
  destruct (main_handler_always_summarises listing_unanswered fifo)
    as [(_ & _ & _ & Hhangs & _) (_ & _ & _ & Hhangs' & _)].
  assert (Hanswers : forall csv : string,
             putObject two_regions csv <> Silent) by (intros; discriminate).
  assert (Hfails : forall csv : string,
             answers_error 500 "InternalError" <> Silent)
    by (intros; discriminate).
  assert (Hnocos : cos_answers every_unit_rejects)
    by (intros Hcred; discriminate Hcred).
  split; [|split; [|split; [|split; [|split; [|split; [|split; [|split]]]]]]].
  - destruct (Hscan 0%N [JStr "r1"; JStr "r2"]
                no_call_is_silent_in_two_regions eq_refl)
      as (r & Hr & Hst & Hb & _).
    exists r. auto.
  - exact (Hput _ Hanswers Hfails).
  - destruct (Hindex 40%N [JStr "r1"; JStr "r2"]
                no_call_is_silent_in_two_regions two_regions_units_settle
                eq_refl)
      as (r & Hr & Hst & Hb & _).
    exists r. auto.
  - exact (Hput' _ Hanswers Hfails).
  - destruct (Hscan0 40%N [JStr "eu-frankfurt"; JStr "ap-tokyo"]
                Hnocos eq_refl)
      as (r & Hr & _ & _ & Hzero).
    exists r. split; [exact Hr|].
    exact (Hzero every_unit_rejects_in_scan eq_refl).
  - destruct (Hindex0 40%N [JStr "eu-frankfurt"; JStr "ap-tokyo"]
                Hnocos every_unit_rejects_settles eq_refl)
      as (r & Hr & _ & _ & Hzero).
    exists r. split; [exact Hr|].
    exact (Hzero every_unit_rejects_in_index eq_refl).
  - exact (Hends no_call_is_silent_in_two_regions).
  - exact (Hhangs 0%N [JStr "r1"; JStr "r2"] eq_refl eq_refl eq_refl).
  - exact (Hhangs' 40%N [JStr "r1"; JStr "r2"] two_regions_units_settle
             eq_refl eq_refl eq_refl).
Defined.

Lemma untaggedCount_counts_outputs_witness :
  (exists t regions,
      resolved (Scan.listAllRegions two_regions)
      = Settles t (Fulfilled regions)
      /\ body two_regions_report
         = json_of_counts "scannedRegions" (List.length regions)
             "untaggedCount"
             (List.length (handed_to_exporter two_regions_report))
      /\ Permutation (handed_to_exporter two_regions_report)
           (region_records (Scan.task two_regions)
              (Scan.regionServices two_regions) regions
            ++ cos_records (Scan.scanCOS two_regions (cos_sched fifo)))
      /\ csv_put two_regions_report
         = Some (csv_text (handed_to_exporter two_regions_report)))
  /\ (exists t regions,
         resolved (Index.listAllRegions two_regions)
         = Settles t (Fulfilled regions)
         /\ body two_regions_index_report
            = json_of_counts "scannedRegions" (List.length regions)
                "untaggedCount"
                (List.length (handed_to_exporter two_regions_index_report))
         /\ Permutation (handed_to_exporter two_regions_index_report)
              (region_records (Index.task two_regions)
                 Index.regionServices regions
               ++ cos_records (Index.scanCOS two_regions (cos_sched fifo)))
         /\ csv_put two_regions_index_report
            = Some (csv_text (handed_to_exporter two_regions_index_report)))
  /\ untaggedCount (acc two_regions_pool)
     = List.length (outputs (acc two_regions_pool))
  /\ untaggedCount
       (push_cos [record_of "global" "COS" "b1"] (acc two_regions_pool))
     = List.length
         (outputs
            (push_cos [record_of "global" "COS" "b1"]
               (acc two_regions_pool))).
Proof.
  destruct (untaggedCount_counts_outputs two_regions fifo two_regions_report)
    as (Hscan & _ & Hpool & Hcos).
  destruct (untaggedCount_counts_outputs two_regions fifo
              two_regions_index_report)
    as (_ & Hindex & _ & _).
  assert (Hcount : untaggedCount (acc two_regions_pool)
                   = List.length (outputs (acc two_regions_pool))).
  { apply (Hpool [JStr "r1"; JStr "r2"] 3%nat two_regions_pool).
    left. apply run_pool_reachable. }
  split; [|split; [|split]].
  - apply Hscan. vm_compute. reflexivity.
  - apply Hindex. vm_compute. reflexivity.
  - exact Hcount.
  - exact (proj2 (Hcos [record_of "global" "COS" "b1"]
                    (acc two_regions_pool) Hcount)).
Defined.



Lemma four_buckets_answer : tagging_answers four_buckets.
Proof.
  intros name region. cbn [getBucketTagging four_buckets].
  destruct (strict_eq name (JStr "b1")); [discriminate|].
  destruct (strict_eq name (JStr "b2")); [discriminate|].
  destruct (strict_eq name (JStr "b3")); discriminate.
Qed.

Lemma bucket_tagging_failures_witness :
  bucket_records four_buckets Scan.cos_record (bucket "b1" "ap")
  = [ record_of "global" "COS" "b1" ]
  /\ bucket_records four_buckets Index.cos_record (bucket "b3" "eu")
     = [ record_of "eu" "COS" "b3" ]
  /\ bucket_records four_buckets Scan.cos_record (bucket "b2" "ap") = []
  /\ (exists rs,
         Scan.scanCOS four_buckets (cos_sched by_turns)
         = Settles (12 + 0)%N (Fulfilled rs)
         /\ Permutation rs
              [ record_of "global" "COS" "b1";
                record_of "global" "COS" "b3" ])
  /\ Scan.scanCOS null_entry (cos_sched by_turns)
     = Settles (12 + 0)%N (Rejected TypeError).
Proof.
  destruct (bucket_tagging_failures four_buckets Scan.cos_record)
    as (Hnone & Hother & Hpool & _).
  destruct (bucket_tagging_failures four_buckets Index.cos_record)
    as (Hnone' & _).
  destruct (bucket_tagging_failures null_entry Scan.cos_record)
    as (_ & _ & Hpool' & _).
  split; [|split; [|split; [|split]]].
  - destruct (Hnone (bucket "b1" "ap") 12%N _ JUndefined eq_refl eq_refl
                eq_refl (or_introl eq_refl)) as (effect & He & Hspec).
    unfold bucket_records. rewrite He, Hspec. reflexivity.
  - destruct (Hnone' (bucket "b3" "eu") 9%N _ JUndefined eq_refl eq_refl
                eq_refl (or_intror eq_refl)) as (effect & He & Hspec).
    unfold bucket_records. rewrite He, Hspec. reflexivity.
  - destruct (Hother (bucket "b2" "ap") 12%N _ JUndefined eq_refl eq_refl
                eq_refl eq_refl) as (effect & He & Hspec).
    { vm_compute. discriminate. }
    unfold bucket_records. rewrite He, Hspec. reflexivity.
  - destruct (Hpool (cos_sched by_turns) 12%N JNull _ eq_refl eq_refl
                eq_refl four_buckets_answer) as [Hok _].
    destruct Hok as (rs & Hrs & Hperm).
    { cbn [buckets_of Buckets]. repeat constructor. }
    exists rs. split; [exact Hrs|]. exact Hperm.
  - destruct (Hpool' (cos_sched by_turns) 12%N JNull _ eq_refl eq_refl
                eq_refl four_buckets_answer) as [_ Hbad].
    apply Hbad. cbn [buckets_of Buckets].
    apply Exists_cons_tl, Exists_cons_hd. reflexivity.
Defined.


Lemma page_failures_reach_the_unit_boundary_witness :
  fetched (pagedFetch_with 3 never_answers 100 0 "Offset" "Limit")
  = Some Pending
  /\ (exists effect,
         Scan.task ccn_hangs home_region "CCN" = Some effect
         /\ forall tally, effect tally = tally)
  /\ Index.task ccn_hangs home_region "CCN" = None
  /\ (exists effect,
         Index.task two_regions (JStr "r1") "CBS" = Some effect
         /\ forall tally, effect tally = tally).
Proof.
  destruct page_failures_reach_the_unit_boundary
    as (Hpage & Hscan & _ & Hindex).
  split; [|split; [|split]].
  - refine (proj1 (Hpage 3%nat never_answers 100%Z 0%Z "Offset" "Limit"
                     (page_request "Offset" "Limit" 0 100)
                     (or_introl eq_refl)) eq_refl).
  - exact (Hscan ccn_hangs home_region "CCN" Pending eq_refl
             (or_introl eq_refl)).
  - exact (proj2 (Hindex ccn_hangs home_region "CCN" Pending eq_refl)
             eq_refl).
  - refine (proj1 (Hindex two_regions (JStr "r1") "CBS" _ eq_refl) _).
    exists 0%N, (SdkError (JStr "unsupported")). reflexivity.
Defined.


(* ================================================================== *)
(** * Further properties *)

(* ================================================================== *)
(** ** TagClassifier: the nested probe *)

Lemma first_tags_collection_first (c : JsVal) (rest : list JsVal) :
  is_collection c = true -> first_tags (c :: rest) = tags_of (Some c).
Proof. destruct c; try discriminate; reflexivity. Qed.

(** The fifth probe, [obj.Tags?.TagSet], never decides the result: it is
    defined only when [obj.Tags] is an object, and then that object is
    taken first, with its keys as the tags.  So a payload whose [Tags]
    is an object holding a [TagSet] counts as tagged, whatever that tag
    set holds, an empty one included. *)
Theorem nested_probe_never_decides (obj : JsVal) :
  extractTags obj
  = (if truthy obj then first_tags (filter truthy (flat_probes obj)) else [])
  /\ (forall props, get obj "Tags" = JObj props ->
                    extractTags obj = Object_keys props)
  /\ (forall props, get obj "Tags" = JObj props ->
                    lookup "TagSet" props <> JUndefined ->
                    hasNoTags obj = false).
Proof.
  assert (Hobj : forall props, get obj "Tags" = JObj props ->
                               extractTags obj = Object_keys props).
  { intros props Ht. unfold extractTags, probes.
    assert (truthy obj = true) as -> by (destruct obj; try discriminate;
                                         reflexivity).
    cbn [negb]. rewrite Ht. cbn [filter truthy]. reflexivity. }
  split; [|split; [exact Hobj|]].
  - unfold extractTags, probes, flat_probes.
    destruct (truthy obj); [|reflexivity]. cbn [negb].
    assert (Hlast : forall a b c d,
               filter truthy [a; b; c; d; JUndefined]
               = filter truthy [a; b; c; d]).
    { intros a b c d. change [a; b; c; d; JUndefined]
        with ([a; b; c; d] ++ [JUndefined]).
      rewrite filter_app. apply app_nil_r. }
    destruct (get obj "Tags") as [| |b|n|s|xs|props] eqn:Ht;
      cbn [get_opt nullish get]; try apply (f_equal first_tags), Hlast;
      reflexivity.
  - intros props Ht Hin. unfold hasNoTags. rewrite (Hobj props Ht).
    unfold Object_keys. rewrite length_map.
    destruct props as [|kv props]; [contradiction Hin; reflexivity|].
    reflexivity.
Qed.

(* ================================================================== *)
(** ** Comma-separated settings *)

Lemma contains_append (c : ascii) (a b : string) :
  contains c (a ++ b) = contains c a || contains c b.
Proof.
  induction a as [|x a IH]; simpl; [reflexivity|].
  rewrite IH, orb_assoc. reflexivity.
Qed.

Lemma split_not_nil (sep : ascii) (s : string) : split sep s <> [].
Proof.
  destruct s as [|c rest]; simpl; [discriminate|].
  destruct (Ascii.eqb c sep); [discriminate|].
  destruct (split sep rest); discriminate.
Qed.

Lemma split_free (sep : ascii) (s : string) :
  Forall (fun piece => contains sep piece = false) (split sep s).
Proof.
  induction s as [|c rest IH]; simpl; [repeat constructor|].
  destruct (Ascii.eqb c sep) eqn:E; [constructor; [reflexivity|exact IH]|].
  destruct (split sep rest) as [|piece pieces].
  - repeat constructor. simpl. rewrite E. reflexivity.
  - inversion IH; subst. constructor; [|assumption].
    simpl. rewrite E. assumption.
Qed.

Lemma split_single (sep : ascii) (s : string) :
  contains sep s = false -> split sep s = [s].
Proof.
  induction s as [|c rest IH]; simpl; [reflexivity|].
  intros H. apply orb_false_iff in H. destruct H as [Hc Hrest].
  rewrite Hc, (IH Hrest). reflexivity.
Qed.

Lemma split_append (sep : ascii) (a b : string) :
  contains sep a = false ->
  split sep (a ++ String sep b) = a :: split sep b.
Proof.
  induction a as [|c rest IH]; simpl.
  - intros _. rewrite Ascii.eqb_refl. reflexivity.
  - intros H. apply orb_false_iff in H. destruct H as [Hc Hrest].
    rewrite Hc, (IH Hrest). reflexivity.
Qed.

Lemma trimStart_free (c : ascii) (s : string) :
  contains c s = false -> contains c (trimStart s) = false.
Proof.
  induction s as [|x rest IH]; simpl; [reflexivity|].
  intros H. destruct (is_space x); [|exact H].
  apply orb_false_iff in H. apply IH, H.
Qed.

Lemma trimEnd_free (c : ascii) (s : string) :
  contains c s = false -> contains c (trimEnd s) = false.
Proof.
  induction s as [|x rest IH]; simpl; [reflexivity|].
  intros H. apply orb_false_iff in H. destruct H as [Hx Hrest].
  specialize (IH Hrest). destruct (trimEnd rest) as [|y kept].
  - destruct (is_space x); simpl; [reflexivity|].
    rewrite Hx. reflexivity.
  - simpl in *. rewrite Hx. exact IH.
Qed.

Lemma trimStart_not_blank (s : string) :
  blank_at_start (trimStart s) = false.
Proof.
  induction s as [|x rest IH]; simpl; [reflexivity|].
  destruct (is_space x) eqn:E; [exact IH|]. simpl. exact E.
Qed.

Lemma trimEnd_not_blank (s : string) : blank_at_end (trimEnd s) = false.
Proof.
  induction s as [|x rest IH]; simpl; [reflexivity|].
  destruct (trimEnd rest) as [|y kept].
  - destruct (is_space x) eqn:E; simpl; [reflexivity|exact E].
  - exact IH.
Qed.

Lemma trimEnd_keeps_start (s : string) :
  blank_at_start s = false -> blank_at_start (trimEnd s) = false.
Proof.
  destruct s as [|x rest]; simpl; [reflexivity|].
  intros H. destruct (trimEnd rest); [rewrite H|]; simpl; auto.
Qed.

Lemma trimStart_id (s : string) :
  blank_at_start s = false -> trimStart s = s.
Proof. destruct s as [|x rest]; simpl; [reflexivity|]. intros ->. reflexivity. Qed.

Lemma trimEnd_id (s : string) : blank_at_end s = false -> trimEnd s = s.
Proof.
  induction s as [|x rest IH]; [reflexivity|].
  intros H. cbn [trimEnd]. destruct rest as [|y rest'].
  - simpl in *. rewrite H. reflexivity.
  - rewrite (IH H). reflexivity.
Qed.

Lemma trim_clean (e : string) : clean e -> trim e = e.
Proof.
  intros (_ & Hs & He & _). unfold trim.
  rewrite (trimStart_id _ Hs). apply trimEnd_id, He.
Qed.

(** Every entry read from a comma-separated setting ([SCAN_REGIONS],
    [SCAN_SERVICES]) is a non-empty string with no blank at either end
    and no comma in it, whatever the setting holds. *)
Theorem comma_list_entries_clean (s : string) :
  Forall clean (comma_list s).
Proof.
  unfold comma_list. apply Forall_forall. intros e He.
  apply filter_In in He. destruct He as [Hin Hne].
  apply in_map_iff in Hin. destruct Hin as (piece & <- & Hin).
  pose proof (split_free "," s) as Hfree.
  rewrite Forall_forall in Hfree. specialize (Hfree _ Hin).
  repeat split.
  - unfold nonempty in Hne. apply negb_true_iff, String.eqb_neq in Hne.
    exact Hne.
  - unfold trim. apply trimEnd_keeps_start, trimStart_not_blank.
  - unfold trim. apply trimEnd_not_blank.
  - unfold trim. apply trimEnd_free, trimStart_free, Hfree.
Qed.

Lemma join_cons (sep p : string) (rest : list string) :
  rest <> [] -> join sep (p :: rest) = (p ++ sep ++ join sep rest)%string.
Proof. destruct rest; [congruence|reflexivity]. Qed.

Lemma comma_list_join (entries : list string) :
  Forall clean entries -> comma_list (join "," entries) = entries.
Proof.
  unfold comma_list.
  induction 1 as [|e rest He Hrest IH]; [reflexivity|].
  assert (Hkeep : nonempty (trim e) = true).
  { rewrite (trim_clean e He). destruct He as (Hne & _).
    unfold nonempty. apply negb_true_iff, String.eqb_neq, Hne. }
  destruct rest as [|e' rest'].
  - cbn [join]. rewrite split_single by apply He.
    cbn [map filter]. rewrite Hkeep, (trim_clean e He). reflexivity.
  - rewrite join_cons by discriminate.
    change ("," ++ join "," (e' :: rest'))%string
      with (String "," (join "," (e' :: rest'))).
    rewrite split_append by apply He.
    cbn [map filter]. rewrite Hkeep, (trim_clean e He), IH. reflexivity.
Qed.

Lemma join_starts_clean (e : string) (rest : list string) :
  clean e ->
  let s := join "," (e :: rest) in
  nonempty s && nonempty (trim s) = true.
Proof.
  intros (Hne & Hs & _). cbv zeta.
  assert (Hhead : exists c tail, join "," (e :: rest) = String c tail
                                 /\ is_space c = false).
  { destruct e as [|c e']; [congruence|]. simpl in Hs.
    destruct rest; simpl; eauto. }
  destruct Hhead as (c & tail & -> & Hc).
  cbn [nonempty String.eqb negb andb]. unfold trim. cbn [trimStart].
  rewrite Hc. cbn [trimEnd].
  destruct (trimEnd tail); [rewrite Hc|]; reflexivity.
Qed.

(** A list of regions or of scanner keys written out with commas is read
    back as it was written: the full script resolves the regions of
    [SCAN_REGIONS] in their order, without a describe-regions call, and
    runs the keys of [SCAN_SERVICES] in theirs. *)
Theorem settings_read_back (w : World) (entries : list string) :
  entries <> [] -> Forall clean entries ->
  (SCAN_REGIONS (env w) = Some (join "," entries) ->
   Scan.listAllRegions w
   = {| describe_calls := 0; resolved := resolve (map JStr entries) |})
  /\ (SCAN_SERVICES (env w) = Some (join "," entries) ->
      Scan.regionServices w = entries).
Proof.
  intros Hne Hclean.
  destruct entries as [|e rest]; [congruence|].
  pose proof (join_starts_clean e rest (Forall_inv Hclean)) as Hs.
  cbv zeta in Hs. split; intros Hset.
  - unfold Scan.listAllRegions, override. rewrite Hset, Hs.
    rewrite (comma_list_join _ Hclean). reflexivity.
  - unfold Scan.regionServices. rewrite Hset, Hs.
    apply comma_list_join, Hclean.
Qed.

Lemma two_codes_clean : Forall clean ["eu-frankfurt"; "ap-singapore"].
Proof. repeat constructor; discriminate. Qed.

Lemma settings_read_back_witness :
  let w := silent_world (env_of (Some "eu-frankfurt,ap-singapore") None true)
  in
  Scan.listAllRegions w
  = {| describe_calls := 0;
       resolved := resolve [JStr "eu-frankfurt"; JStr "ap-singapore"] |}.
Proof.
  cbv zeta.
  apply (settings_read_back
           (silent_world
              (env_of (Some "eu-frankfurt,ap-singapore") None true))
           ["eu-frankfurt"; "ap-singapore"]
           ltac:(discriminate) two_codes_clean).
  reflexivity.
Defined.

(* ================================================================== *)
(** ** The text of the report *)

Lemma append_nonempty (a b : string) : a <> "" -> (a ++ b)%string <> "".
Proof. destruct a; [congruence|discriminate]. Qed.

Lemma csv_line_nonempty (i : ScanRecord) : csv_line i <> "".
Proof.
  unfold csv_line. destruct (String_ (region i)); discriminate.
Qed.

Lemma join_nonempty (sep l : string) (rest : list string) :
  l <> "" -> join sep (l :: rest) <> "".
Proof.
  intros Hl. destruct rest; [exact Hl|].
  cbn [join]. apply append_nonempty, Hl.
Qed.

Lemma append_assoc (a b c : string) :
  ((a ++ b) ++ c)%string = (a ++ (b ++ c))%string.
Proof. induction a as [|x a IH]; simpl; [reflexivity|]. rewrite IH. reflexivity. Qed.

Lemma join_terminated (l : string) (rest : list string) :
  (join nl (l :: rest) ++ nl)%string = terminated (l :: rest).
Proof.
  revert l. induction rest as [|l' rest IH]; intros l.
  - cbn [join terminated]. reflexivity.
  - rewrite join_cons by discriminate. cbn [terminated].
    rewrite !append_assoc, IH. reflexivity.
Qed.

Lemma csv_text_lines (items : list ScanRecord) :
  csv_text items
  = ("region,service,id" ++ nl ++ terminated (map csv_line items))%string.
Proof.
  unfold csv_text. rewrite append_assoc. repeat f_equal.
  destruct items as [|i rest]; [reflexivity|]. cbn [map].
  unfold nonempty.
  assert (H : join nl (csv_line i :: map csv_line rest) <> "")
    by apply join_nonempty, csv_line_nonempty.
  apply String.eqb_neq in H. rewrite H. cbn [negb].
  apply join_terminated.
Qed.

(** The report is the header line followed by one line for each record,
    in the order given, every line ended by a line feed, the last one
    included; with no record it is the header line alone. *)
Theorem csv_text_line_by_line (items : list ScanRecord) :
  csv_text items
  = ("region,service,id" ++ nl ++ terminated (map csv_line items))%string.
Proof.
  unfold csv_text. rewrite append_assoc. repeat f_equal.
  destruct items as [|i rest]; [reflexivity|]. cbn [map].
  unfold nonempty.
  assert (H : join nl (csv_line i :: map csv_line rest) <> "")
    by apply join_nonempty, csv_line_nonempty.
  apply String.eqb_neq in H. rewrite H. cbn [negb].
  apply join_terminated.
Qed.

Lemma split_terminated (ls : list string) :
  Forall (fun l => contains line_feed l = false) ls ->
  split line_feed (terminated ls) = ls ++ [""].
Proof.
  induction 1 as [|l rest Hl _ IH]; [reflexivity|].
  cbn [terminated]. change (nl ++ terminated rest)%string
    with (String line_feed (terminated rest)).
  rewrite (split_append _ _ _ Hl), IH. reflexivity.
Qed.

Lemma split_csv_line (i : ScanRecord) :
  Forall (fun f => contains "," f = false) (fields i) ->
  split "," (csv_line i) = fields i.
Proof.
  intros H. unfold fields in *. inversion H as [|? ? Hr H']; subst.
  inversion H' as [|? ? Hs H'']; subst. inversion H'' as [|? ? Hi _]; subst.
  unfold csv_line.
  change ("," ++ String_ (service i) ++ "," ++ String_ (id i))%string
    with (String "," (String_ (service i) ++ String "," (String_ (id i)))).
  rewrite (split_append _ _ _ Hr), (split_append _ _ _ Hs).
  rewrite (split_single _ _ Hi). reflexivity.
Qed.

Lemma csv_line_one_line (i : ScanRecord) :
  Forall plain (fields i) -> contains line_feed (csv_line i) = false.
Proof.
  intros H. unfold fields in *. inversion H as [|? ? [_ Hr] H']; subst.
  inversion H' as [|? ? [_ Hs] H'']; subst.
  inversion H'' as [|? ? [_ Hi] _]; subst.
  unfold csv_line. rewrite !contains_append, Hr, Hs, Hi. reflexivity.
Qed.

Lemma split_pieces (sep : ascii) (a b : string) :
  split sep (a ++ String sep b) = split sep a ++ split sep b.
Proof.
  induction a as [|c rest IH]; simpl.
  - rewrite Ascii.eqb_refl. reflexivity.
  - destruct (Ascii.eqb c sep); [rewrite IH; reflexivity|].
    rewrite IH. pose proof (split_not_nil sep rest).
    destruct (split sep rest); [congruence|reflexivity].
Qed.

(** Reading the report back.  The exporter quotes and escapes nothing: a
    record's line splits at its commas into the pieces of its region,
    then of its service, then of its id, so that a field with a comma in
    it reads back as two.  When no field of any record holds a comma or
    a line feed, splitting the text at the line feeds and every line at
    its commas gives the header, then the three fields of every record
    in order, then the empty piece after the last line feed. *)
Theorem csv_text_reads_back (items : list ScanRecord) :
  (forall i, split "," (csv_line i)
             = split "," (String_ (region i))
               ++ split "," (String_ (service i))
               ++ split "," (String_ (id i)))
  /\ (Forall (fun i => Forall plain (fields i)) items ->
      map (split ",") (split line_feed (csv_text items))
      = ["region"; "service"; "id"] :: map fields items ++ [[""]]).
Proof.
  split.
  { intros i. unfold csv_line.
    change ("," ++ String_ (service i) ++ "," ++ String_ (id i))%string
      with (String "," (String_ (service i) ++ String "," (String_ (id i)))).
    rewrite !split_pieces. reflexivity. }
  intros Hplain. rewrite csv_text_lines.
  change (nl ++ terminated (map csv_line items))%string
    with (String line_feed (terminated (map csv_line items))).
  rewrite split_append by reflexivity.
  rewrite split_terminated.
  - cbn [map]. f_equal. rewrite map_app, map_map. cbn [map]. f_equal.
    apply map_ext_in. intros i Hi. apply split_csv_line.
    rewrite Forall_forall in Hplain. specialize (Hplain i Hi).
    eapply Forall_impl; [|exact Hplain]. intros f [Hf _]. exact Hf.
  - apply Forall_forall. intros l Hl. apply in_map_iff in Hl.
    destruct Hl as (i & <- & Hi). apply csv_line_one_line.
    rewrite Forall_forall in Hplain. apply Hplain, Hi.
Qed.

Lemma csv_text_reads_back_witness :
  let items := [record_of "ap-tokyo" "CVM" "ins-1";
                record_of "global" "COS" "logs-1250000000"] in
  map (split ",") (split line_feed (csv_text items))
  = [ ["region"; "service"; "id"];
      ["ap-tokyo"; "CVM"; "ins-1"];
      ["global"; "COS"; "logs-1250000000"];
      [""] ].
Proof.
  cbv zeta.
  apply (csv_text_reads_back
           [record_of "ap-tokyo" "CVM" "ins-1";
            record_of "global" "COS" "logs-1250000000"]).
  repeat constructor.
Defined.

(* ================================================================== *)
(** ** PaginatedFetcher: the pages of a call *)

Lemma offsets_S (start pageSize : Z) (n : nat) :
  offsets start pageSize (S n)
  = start :: offsets (start + pageSize) pageSize n.
Proof.
  unfold offsets. cbn [seq map]. f_equal; [lia|].
  rewrite <- seq_shift, map_map. apply map_ext. intros k. lia.
Qed.

Lemma pagedFetch_loop_pages fetchPage pageSize ok lk :
  forall fuel offset all,
    let run := pagedFetch_loop fuel fetchPage pageSize ok lk offset all in
    requests run
    = map (fun o => page_request ok lk o pageSize)
          (offsets offset pageSize (List.length (requests run)))
    /\ (List.length (requests run) <= fuel)%nat
    /\ Forall (fun req =>
                 exists t page,
                   fetchPage req = Settles t (Fulfilled page)
                   /\ (pageSize <= Z.of_nat (List.length (page_items page)))%Z)
              (removelast (requests run))
    /\ (forall t res,
           fetched run = Some (Settles t (Fulfilled res)) ->
           res = all ++ served fetchPage (requests run)
           /\ t = elapsed fetchPage (requests run)).
Proof.
  induction fuel as [|fuel IH]; intros offset all; cbn [pagedFetch_loop].
  - cbv zeta. cbn [requests fetched List.length removelast].
    split; [reflexivity|]. split; [lia|]. split; [constructor|].
    discriminate.
  - set (req := page_request ok lk offset pageSize).
    assert (Hone : [req] = map (fun o => page_request ok lk o pageSize)
                               (offsets offset pageSize 1)).
    { rewrite offsets_S. reflexivity. }
    destruct (fetchPage req) as [t0 [page|e]|] eqn:E.
    + destruct (Z.ltb_spec (Z.of_nat (List.length (page_items page)))
                  pageSize) as [Hshort|Hfull].
      * cbv zeta. cbn [requests fetched List.length removelast].
        split; [exact Hone|]. split; [lia|]. split; [constructor|].
        intros t res [= <- <-]. unfold served, elapsed.
        cbn [flat_map map fold_right]. rewrite E, app_nil_r, N.add_0_r.
        split; reflexivity.
      * specialize (IH (offset + pageSize)%Z (all ++ page_items page)).
        cbv zeta in IH. destruct IH as (Hreq & Hlen & Hfulls & Hres).
        set (rest := pagedFetch_loop fuel fetchPage pageSize ok lk
                       (offset + pageSize)%Z (all ++ page_items page)) in *.
        cbv zeta. cbn [after_page requests fetched List.length].
        split; [|split; [lia|split]].
        -- rewrite offsets_S. cbn [map]. fold req. f_equal. exact Hreq.
        -- destruct (requests rest) as [|r rs] eqn:Er;
             [constructor|].
           change (removelast (req :: r :: rs))
             with (req :: removelast (r :: rs)).
           constructor; [eauto|exact Hfulls].
        -- intros t res H.
           destruct (fetched rest) as [[t' [res'|e']|]|];
             cbn [option_map delay] in H; try discriminate.
           injection H as <- <-.
           destruct (Hres t' res' eq_refl) as [-> ->].
           unfold served, elapsed. cbn [flat_map map fold_right].
           rewrite E, app_assoc. split; reflexivity.
    + cbv zeta. cbn [requests fetched List.length removelast].
      split; [exact Hone|]. split; [lia|]. split; [constructor|].
      intros t res [=].
    + cbv zeta. cbn [requests fetched List.length removelast].
      split; [exact Hone|]. split; [lia|]. split; [constructor|].
      intros t res [=].
Qed.

(** The pages of a call of [pagedFetch], whatever the page operation
    does.  The requests are issued for consecutive pages: the k-th one
    asks for [pageSize] items at offset [startOffset + k * pageSize], so
    that no page is skipped and none is asked for twice.  Every request
    but the last came back with at least [pageSize] items.  And when the
    call resolves, its result is the items of all those pages, in the
    order of the requests, after the time the pages took one after
    another. *)
Theorem pagedFetch_pages_in_order
    (fuel : nat) (fetchPage : JsVal -> Promise Page)
    (pageSize startOffset : Z) (offsetKey limitKey : string) :
  let run := pagedFetch_with fuel fetchPage pageSize startOffset
               offsetKey limitKey in
  requests run
  = map (fun o => page_request offsetKey limitKey o pageSize)
        (offsets startOffset pageSize (List.length (requests run)))
  /\ Forall (fun req =>
               exists t page,
                 fetchPage req = Settles t (Fulfilled page)
                 /\ (pageSize <= Z.of_nat (List.length (page_items page)))%Z)
            (removelast (requests run))
  /\ (forall t res,
         fetched run = Some (Settles t (Fulfilled res)) ->
         res = served fetchPage (requests run)
         /\ t = elapsed fetchPage (requests run)).
Proof.
  destruct (pagedFetch_loop_pages fetchPage pageSize offsetKey limitKey
              fuel startOffset []) as (Hreq & _ & Hfull & Hres).
  cbv zeta in *. unfold pagedFetch_with.
  split; [exact Hreq|]. split; [exact Hfull|]. exact Hres.
Qed.

(* ================================================================== *)
(** ** PaginatedFetcher: the declaration that is replaced *)

Lemma withTimeout_by {A} (p : Promise A) (ms : N) (tag : string) :
  settled_by (withTimeout p ms tag) ms.
Proof.
  destruct p as [t o|]; cbn [withTimeout].
  - destruct (N.ltb_spec t ms); eexists _, _; split; try reflexivity; lia.
  - eexists _, _; split; [reflexivity|lia].
Qed.

Lemma Shadowed_loop_settles env fetchPage pageSize ok lk :
  forall fuel pages offset all,
    (pages < parsedMaxPagesPerList env)%nat ->
    (parsedMaxPagesPerList env - pages <= fuel)%nat ->
    let run := Shadowed.pagedFetch_loop env fuel fetchPage pageSize ok lk
                 offset all pages in
    (exists p, fetched run = Some p
               /\ settled_by p (N.of_nat (parsedMaxPagesPerList env - pages)
                                * parsedRequestTimeout env))
    /\ (List.length (requests run)
        <= parsedMaxPagesPerList env - pages)%nat.
Proof.
  induction fuel as [|fuel IH]; intros pages offset all Hp Hf; [lia|].
  cbn [Shadowed.pagedFetch_loop].
  set (req := page_request ok lk offset pageSize).
  destruct (withTimeout_by (fetchPage req) (parsedRequestTimeout env) "page")
    as (t & o & -> & Ht).
  assert (Hone : (t <= N.of_nat (parsedMaxPagesPerList env - pages)
                       * parsedRequestTimeout env)%N) by nia.
  destruct o as [page|e].
  - destruct (_ <? _)%Z.
    + cbv zeta. cbn [fetched requests List.length].
      split; [|lia]. eexists. split; [reflexivity|]. eexists _, _. eauto.
    + destruct (Nat.leb_spec (parsedMaxPagesPerList env) (S pages))
        as [Hcap|Hmore].
      * cbv zeta. cbn [fetched requests List.length].
        split; [|lia]. eexists. split; [reflexivity|]. eexists _, _. eauto.
      * destruct (IH (S pages) (offset + pageSize)%Z (all ++ page_items page))
          as [(p & Hfetched & t' & o' & -> & Ht') Hreqs]; [lia|lia|].
        cbv zeta. cbn [after_page fetched requests List.length].
        rewrite Hfetched. cbn [option_map delay].
        split; [|lia]. eexists. split; [reflexivity|].
        eexists _, _. split; [reflexivity|]. nia.
  - cbv zeta. cbn [fetched requests List.length].
    split; [|lia]. eexists. split; [reflexivity|]. eexists _, _. eauto.
Qed.

(** The declaration of [pagedFetch] that the later one replaces when the
    script is loaded would always come to an end: whatever the page
    operation does, an operation that never answers included, the call
    settles within [MAX_PAGES_PER_LIST] times the request timeout, having
    issued at most [MAX_PAGES_PER_LIST] page requests. *)
Theorem shadowed_pagedFetch_always_settles
    (e : Env) (fetchPage : JsVal -> Promise Page)
    (pageSize startOffset : Z) (offsetKey limitKey : string) (fuel : nat) :
  (parsedMaxPagesPerList e <= fuel)%nat ->
  let run := Shadowed.pagedFetch_with e fuel fetchPage pageSize startOffset
               offsetKey limitKey in
  (exists p, fetched run = Some p
             /\ settled_by p (N.of_nat (parsedMaxPagesPerList e)
                              * parsedRequestTimeout e))
  /\ (List.length (requests run) <= parsedMaxPagesPerList e)%nat.
Proof.
  intros Hfuel.
  assert (Hmax : (1 <= parsedMaxPagesPerList e)%nat)
    by (unfold parsedMaxPagesPerList; lia).
  destruct (Shadowed_loop_settles e fetchPage pageSize offsetKey limitKey
              fuel 0 startOffset []) as [Hs Hr]; [lia|lia|].
  cbv zeta in *. rewrite Nat.sub_0_r in *. unfold Shadowed.pagedFetch_with.
  split; assumption.
Qed.

Lemma shadowed_pagedFetch_always_settles_witness :
  let run := Shadowed.pagedFetch_with (env_of_cap 2) 2 never_answers 100 0
               "Offset" "Limit" in
  (exists p, fetched run = Some p
             /\ settled_by p (N.of_nat (parsedMaxPagesPerList (env_of_cap 2))
                              * parsedRequestTimeout (env_of_cap 2)))
  /\ (List.length (requests run) <= parsedMaxPagesPerList (env_of_cap 2))%nat.
Proof.
  apply (shadowed_pagedFetch_always_settles (env_of_cap 2) never_answers
           100 0 "Offset" "Limit" 2).
  vm_compute. lia.
Defined.

(* ================================================================== *)
(** ** GlobalResourceScanner: tagging answers *)

Lemma normalizeCosTagSet_tag_list (data : JsVal) :
  normalizeCosTagSet data = JArr (tag_list data).
Proof.
  unfold normalizeCosTagSet, tag_list, or_else. cbn [find].
  destruct (truthy (get_opt data "TagSet")) eqn:Ea.
  { destruct (get_opt data "TagSet"); reflexivity. }
  destruct (truthy (get_opt (get_opt data "Tags") "Tag")) eqn:Eb.
  { destruct (get_opt (get_opt data "Tags") "Tag"); reflexivity. }
  destruct (truthy (get_opt data "Tags")) eqn:Ec.
  { destruct (get_opt data "Tags"); reflexivity. }
  reflexivity.
Qed.

Lemma hasNoTags_of_tag_set (xs : list JsVal) :
  hasNoTags (JObj [("TagSet", JArr xs)]) = (List.length xs =? 0)%nat.
Proof. reflexivity. Qed.

(** What an answered tagging call without an error makes of a bucket.
    The tag list is the first truthy one of [TagSet], [Tags.Tag] and
    [Tags] of the answer (of an empty tag set when the answer carries no
    data), taken as empty unless it is an array; the bucket's record is
    pushed exactly when that list is empty.  So a bucket is reported not
    only when it has no tag, but also when its tags arrive in a shape
    other than an array, and a bucket with an empty [TagSet] is reported
    whatever [Tags] holds. *)
Theorem bucket_reported_by_tag_list
    (w : World) (stamp : JsVal -> ScanRecord) (b : JsVal)
    (t : N) (err data : JsVal) :
  nullish b = false ->
  getBucketTagging w (get b "Name") (get b "Location") = Calls t err data ->
  truthy err = false ->
  normalizeCosTagSet (or_else data no_tagging)
  = JArr (tag_list (or_else data no_tagging))
  /\ bucket_job w stamp b <> None
  /\ bucket_records w stamp b
     = match tag_list (or_else data no_tagging) with
       | [] => [stamp b]
       | _ :: _ => []
       end.
Proof.
  intros Hb Hreply Herr. split; [apply normalizeCosTagSet_tag_list|].
  unfold bucket_records, bucket_job, bucketTagging.
  rewrite Hb, Hreply, Herr, normalizeCosTagSet_tag_list,
    hasNoTags_of_tag_set.
  destruct (tag_list (or_else data no_tagging)); cbn [List.length Nat.eqb];
    split; try discriminate; reflexivity.
Qed.

Lemma bucket_reported_by_tag_list_witness :
  let b := bucket "b4" "eu" in
  bucket_records four_buckets Scan.cos_record b = []
  /\ tag_list (JObj [("TagSet", JArr [JObj [("Key", JStr "team")]])])
     = [JObj [("Key", JStr "team")]].
Proof.
  cbv zeta.
  destruct (bucket_reported_by_tag_list four_buckets Scan.cos_record
              (bucket "b4" "eu") 12%N JNull
              (JObj [("TagSet", JArr [JObj [("Key", JStr "team")]])])
              eq_refl eq_refl eq_refl) as (_ & _ & Hrec).
  split; [exact Hrec|reflexivity].
Defined.

(* ================================================================== *)
(** ** Claim-cursor worker pools: the jobs in flight *)


Section PoolLoad.

Context {Item Job Acc : Type}.
Variable work : list Item.
Variable spawn : Item -> list Job.
Variable settle : Job -> option (Acc -> Acc).

Local Abbreviation reachable := (reaches work spawn settle).



End PoolLoad.

Section PoolAccount.

Context {Item Job Acc : Type}.
Variable work : list Item.
Variable spawn : Item -> list Job.
Variable settle : Job -> option (Acc -> Acc).

Local Abbreviation reachable := (reaches work spawn settle).

Lemma pending_spawned_reachable (concurrency : nat) (acc0 : Acc)
    (p : @Pool Item Job Acc) :
  reachable (start_pool work concurrency acc0) p ->
  pending_spawned work spawn p.
Proof.
  induction 1 as [|q c r _ IH Hstep].
  - unfold pending_spawned, start_pool; cbn [workers].
    apply Forall_forall. intros x Hx. apply repeat_spec in Hx. subst.
    intros job [].
  - eapply pending_spawned_step; [eapply step_inv; eauto|exact IH].
Qed.

Lemma claimed_accounted_step (p q : @Pool Item Job Acc) :
  step_kind work spawn settle p q ->
  claimed_accounted work spawn settle p ->
  claimed_accounted work spawn settle q.
Proof.
  unfold claimed_accounted. intros Hstep Hp.
  destruct Hstep
    as [w x Hw Hx ->|w Hw Hx ->|w Hw ->|w j jobs job e Hw Hj He ->];
    cbn [workers cursor]; intros item job' Hitem Hjob.
  - rewrite (firstn_nth_error _ _ _ Hx) in Hitem.
    apply in_app_or in Hitem. destruct Hitem as [Hitem|[<-|[]]].
    + eapply accounted_replace; [exact Hw|intros []|eauto].
    + right. exists w, (Awaiting (spawn x)). split; [|exact Hjob].
      apply nth_error_set_nth. apply nth_error_Some. congruence.
  - eapply accounted_replace; [exact Hw|intros []|eauto].
  - eapply accounted_replace; [exact Hw|intros []|eauto].
  - eapply accounted_replace; [exact Hw| |eauto].
    cbn [pending]. intros Hin.
    destruct (in_dropped_or_kept _ _ _ _ Hj Hin) as [->|Hkept];
      [right; congruence|left; exact Hkept].
Qed.

Lemma claimed_accounted_reachable (concurrency : nat) (acc0 : Acc)
    (p : @Pool Item Job Acc) :
  reachable (start_pool work concurrency acc0) p ->
  claimed_accounted work spawn settle p.
Proof.
  induction 1 as [|q c r _ IH Hstep].
  - unfold claimed_accounted, start_pool; cbn [cursor firstn].
    intros item job [].
  - eapply claimed_accounted_step; [eapply step_inv; eauto|exact IH].
Qed.

(** A pool of which every worker has left has seen every job of every
    item settle. *)
Lemma all_exited_all_settled (concurrency : nat) (acc0 : Acc)
    (p : @Pool Item Job Acc) :
  (1 <= concurrency)%nat ->
  reachable (start_pool work concurrency acc0) p ->
  all_exited p = true ->
  forall item job, In item work -> In job (spawn item) -> settle job <> None.
Proof.
  intros Hc Hreach Hall item job Hitem Hjob.
  pose proof (cursor_inv_reachable _ _ _ _ _ Hreach
                (cursor_inv_start _ _ _)) as Hinv.
  destruct (all_exited_claims _ _ Hinv Hall) as [Hcur _].
  { rewrite <- length_zero_iff_nil.
    rewrite (workers_count_reachable _ _ _ _ _ Hreach).
    unfold start_pool; cbn [workers]. rewrite repeat_length.
    destruct work; [right; reflexivity|left; simpl; lia]. }
  destruct (claimed_accounted_reachable _ _ _ Hreach item job)
    as [Hs|(i & x & Hi & Hin)]; auto.
  - rewrite Hcur, firstn_all. exact Hitem.
  - exfalso. unfold all_exited in Hall. rewrite forallb_forall in Hall.
    specialize (Hall _ (nth_error_In _ _ Hi)).
    destruct x; try discriminate; destruct Hin.
Qed.

(** When every job of every item settles, a run ends with every worker
    gone. *)
Lemma all_settled_all_exited (concurrency : nat) (acc0 : Acc)
    (sched : @Pool Item Job Acc -> nat * nat) :
  (forall item job, In item work -> In job (spawn item) ->
                    settle job <> None) ->
  all_exited (pool_outcome work spawn settle concurrency acc0 sched) = true.
Proof.
  intros Hsettle. unfold pool_outcome.
  set (p0 := start_pool work concurrency acc0).
  pose proof (run_pool_ends work spawn settle _ sched p0 (Nat.le_refl _))
    as Hend.
  pose proof (pending_spawned_reachable concurrency acc0 _
                (run_pool_reachable work spawn settle
                   (steps_left work spawn p0) sched p0)) as Hsp.
  apply find_ready_none in Hend. unfold all_exited.
  apply forallb_forall. intros x Hx.
  rewrite Forall_forall in Hend. specialize (Hend x Hx).
  unfold pending_spawned in Hsp. rewrite Forall_forall in Hsp.
  specialize (Hsp x Hx).
  destruct x as [|jobs|]; simpl in *; try tauto.
  destruct Hend as [Hne Hall]. destruct jobs as [|job jobs]; [tauto|].
  inversion Hall; subst.
  destruct (Hsp job (or_introl eq_refl)) as (item & Hitem & Hjob).
  exfalso. eapply Hsettle; eauto.
Qed.

(** Whether a pool runs to its end does not depend on the interleaving. *)
Lemma all_exited_whatever_the_schedule (concurrency : nat) (acc0 : Acc)
    (sched1 sched2 : @Pool Item Job Acc -> nat * nat) :
  all_exited (pool_outcome work spawn settle concurrency acc0 sched1) = true ->
  all_exited (pool_outcome work spawn settle concurrency acc0 sched2) = true.
Proof.
  intros H1.
  destruct concurrency as [|c].
  - unfold all_exited.
    assert (Hnone : workers (pool_outcome work spawn settle 0 acc0 sched2)
                    = []).
    { apply length_zero_iff_nil. unfold pool_outcome.
      rewrite (workers_count_reachable _ _ _ _ _
                 (run_pool_reachable _ _ _ _ _ _)).
      reflexivity. }
    rewrite Hnone. reflexivity.
  - apply all_settled_all_exited.
    apply (all_exited_all_settled (S c) acc0 _ ltac:(lia)
             (run_pool_reachable _ _ _ _ _ _) H1).
Qed.

End PoolAccount.


(* ================================================================== *)
(** ** The report does not depend on the interleaving *)

Section Collation.

Variable lc : string -> string -> comparison.
Hypothesis lc_consistent : consistent lc.
Hypothesis lc_exact : exact lc.

Local Abbreviation cmp := (compareRecords lc).
Local Abbreviation not_after := (fun a b : ScanRecord => cmp a b <> Gt).

Lemma compareRecords_by_fields (a a' b b' : ScanRecord) :
  fields a = fields a' -> fields b = fields b' -> cmp a b = cmp a' b'.
Proof.
  unfold fields, compareRecords. intros [= -> -> ->] [= -> -> ->].
  reflexivity.
Qed.

Lemma compareRecords_tie (a b : ScanRecord) :
  cmp a b = Eq -> fields a = fields b.
Proof.
  unfold compareRecords, fields.
  destruct (lc (String_ (region a)) (String_ (region b))) eqn:Hr;
    try discriminate.
  destruct (lc (String_ (service a)) (String_ (service b))) eqn:Hs;
    try discriminate.
  intros Hi. apply lc_exact in Hr, Hs, Hi. congruence.
Qed.

Lemma not_after_both_ways (a b : ScanRecord) :
  not_after a b -> not_after b a -> fields a = fields b.
Proof.
  intros Hab Hba. cbv beta in Hab, Hba. apply compareRecords_tie.
  destruct (compareRecords_consistent lc lc_consistent) as [Hanti _].
  rewrite (Hanti a b) in Hba.
  destruct (cmp a b); simpl in *; congruence.
Qed.

(** The head of a sorted list is not after any record that has the
    fields of one of its records. *)
Lemma head_not_after (a x : ScanRecord) (l : list ScanRecord) :
  StronglySorted not_after (a :: l) ->
  In (fields x) (map fields (a :: l)) -> not_after a x.
Proof.
  intros Hs Hin. apply in_map_iff in Hin. destruct Hin as (y & Hy & Hin).
  rewrite (compareRecords_by_fields a a x y eq_refl (eq_sym Hy)).
  destruct Hin as [<-|Hin].
  - destruct (compareRecords_consistent lc lc_consistent) as [Hanti _].
    specialize (Hanti a a). destruct (cmp a a); simpl in *; congruence.
  - apply StronglySorted_inv in Hs. destruct Hs as [_ Hall].
    rewrite Forall_forall in Hall. apply Hall, Hin.
Qed.

Lemma sorted_fields_unique (l1 l2 : list ScanRecord) :
  StronglySorted not_after l1 -> StronglySorted not_after l2 ->
  Permutation (map fields l1) (map fields l2) ->
  map fields l1 = map fields l2.
Proof.
  revert l2. induction l1 as [|a t1 IH]; intros l2 H1 H2 Hperm.
  - apply Permutation_nil in Hperm. rewrite Hperm. reflexivity.
  - destruct l2 as [|b t2].
    { apply Permutation_sym, Permutation_nil in Hperm. discriminate. }
    assert (Hab : fields a = fields b).
    { apply not_after_both_ways.
      - apply (head_not_after a b t1 H1).
        eapply Permutation_in; [apply Permutation_sym, Hperm|left; auto].
      - apply (head_not_after b a t2 H2).
        eapply Permutation_in; [apply Hperm|left; auto]. }
    cbn [map] in *. rewrite Hab in *. f_equal.
    apply IH.
    + apply StronglySorted_inv in H1. apply H1.
    + apply StronglySorted_inv in H2. apply H2.
    + eapply Permutation_cons_inv, Hperm.
Qed.

Lemma sort_fields (l1 l2 : list ScanRecord) :
  Permutation l1 l2 ->
  map fields (sort cmp l1) = map fields (sort cmp l2).
Proof.
  intros Hperm.
  pose proof (compareRecords_consistent lc lc_consistent) as Hc.
  apply sorted_fields_unique; try apply (sort_sorted cmp Hc).
  apply Permutation_map.
  rewrite <- (sort_perm cmp l1), <- (sort_perm cmp l2). exact Hperm.
Qed.

End Collation.

Lemma csv_text_by_fields (l1 l2 : list ScanRecord) :
  map fields l1 = map fields l2 -> csv_text l1 = csv_text l2.
Proof.
  intros H. unfold csv_text.
  assert (Hlines : map csv_line l1 = map csv_line l2).
  { revert l2 H. induction l1 as [|a l1 IH]; intros [|b l2] H;
      try discriminate; [reflexivity|].
    cbn [map] in *. unfold fields at 1 3 in H.
    injection H as Hr Hs Hi Hrest.
    rewrite (IH _ Hrest). f_equal. unfold csv_line.
    rewrite Hr, Hs, Hi. reflexivity. }
  rewrite Hlines. reflexivity.
Qed.

(** No worker of [scanCOS] raises on a listing of bucket descriptors. *)
Lemma described_never_raises (w : World) (stamp : JsVal -> ScanRecord)
    (buckets : list JsVal) (sched : Scheduler JsVal JsVal CosState) :
  Forall (fun b => nullish b = false) buckets ->
  raised (acc (pool_outcome buckets (fun b => [b]) (bucket_job w stamp)
                 5 no_results sched)) = false.
Proof.
  intros Hok.
  apply (spawned_inv_reachable buckets (fun b => [b]) (bucket_job w stamp)
           (fun st => raised st = false) 5 no_results);
    [|apply run_pool_reachable|reflexivity].
  intros item job effect a Hitem [<-|[]] He Ha.
  rewrite Forall_forall in Hok.
  rewrite (bucket_job_goes_on w stamp item effect a (Hok _ Hitem) He).
  exact Ha.
Qed.

Lemma scanCOS_same_finds (w : World) (stamp : JsVal -> ScanRecord)
    (sched1 sched2 : Scheduler JsVal JsVal CosState) :
  buckets_described w ->
  same_finds (scanCOS_with stamp w sched1) (scanCOS_with stamp w sched2).
Proof.
  intros Hdesc. unfold scanCOS_with.
  destruct (has_credentials (env w)); cbn [negb]; [|simpl; reflexivity].
  destruct (getService w) as [t err d|] eqn:Hget; cbn [promisify];
    [|exact I].
  destruct (truthy err); cbn [await]; [exact I|].
  destruct d as [d|]; [|exact I]. cbv zeta.
  specialize (Hdesc t err d Hget).
  rewrite !(described_never_raises w stamp _ _ Hdesc).
  set (p1 := pool_outcome _ _ _ _ _ sched1).
  set (p2 := pool_outcome _ _ _ _ _ sched2).
  pose proof (all_exited_whatever_the_schedule (buckets_of d)
                (fun b => [b]) (bucket_job w stamp) 5 no_results
                sched1 sched2) as H12.
  pose proof (all_exited_whatever_the_schedule (buckets_of d)
                (fun b => [b]) (bucket_job w stamp) 5 no_results
                sched2 sched1) as H21.
  fold p1 p2 in H12, H21.
  destruct (all_exited p1) eqn:E1, (all_exited p2) eqn:E2;
    try (specialize (H12 eq_refl)); try (specialize (H21 eq_refl));
    try discriminate; [|exact I].
  cbn [resolve delay same_finds].
  pose proof (pool_outcome_gathers (buckets_of d) (fun b => [b])
                (bucket_job w stamp) results
                (bucket_records w stamp)
                (bucket_job_appends w stamp) 5 no_results) as Hg.
  cbv zeta in Hg.
  pose proof (Hg sched1 ltac:(lia) E1) as G1.
  pose proof (Hg sched2 ltac:(lia) E2) as G2.
  etransitivity; [exact G1|symmetry; exact G2].
Qed.

Lemma exportCsvToCos_by_text (w : World) (l1 l2 : list ScanRecord) :
  csv_text l1 = csv_text l2 ->
  put_body (exportCsvToCos w l1) = put_body (exportCsvToCos w l2)
  /\ export_promise (exportCsvToCos w l1)
     = export_promise (exportCsvToCos w l2).
Proof.
  intros H. unfold exportCsvToCos.
  destruct (negb _); cbn [put_body export_promise]; [auto|].
  rewrite H. auto.
Qed.

Lemma handler_body_same_report w listed_regions conc services task scanCOS
    (s1 s2 : Schedulers) :
  consistent (localeCompare w) -> exact (localeCompare w) ->
  (forall region svcName, pushes_and_counts (task region svcName)) ->
  (1 <= conc)%nat ->
  same_finds (scanCOS (cos_sched s1)) (scanCOS (cos_sched s2)) ->
  same_report
    (handler_body w listed_regions conc services task scanCOS s1)
    (handler_body w listed_regions conc services task scanCOS s2).
Proof.
  intros Hcons Hexact Hpush Hconc Hcos. unfold handler_body.
  destruct listed_regions as [t [regions|e]|]; [|reflexivity|exact I].
  set (p1 := pool_outcome _ _ _ _ _ (region_sched s1)).
  set (p2 := pool_outcome _ _ _ _ _ (region_sched s2)).
  pose proof (all_exited_whatever_the_schedule regions (tasks services)
                (settle_task task) conc empty_tally
                (region_sched s1) (region_sched s2)) as H12.
  pose proof (all_exited_whatever_the_schedule regions (tasks services)
                (settle_task task) conc empty_tally
                (region_sched s2) (region_sched s1)) as H21.
  fold p1 p2 in H12, H21.
  destruct (all_exited p1) eqn:E1, (all_exited p2) eqn:E2;
    try (specialize (H12 eq_refl)); try (specialize (H21 eq_refl));
    try discriminate; cbn [negb]; [|exact I].
  pose proof (region_pool_gathers conc services task s1 Hpush Hconc regions
                E1) as G1.
  pose proof (region_pool_gathers conc services task s2 Hpush Hconc regions
                E2) as G2.
  pose proof (region_pool_tally_ok conc services task s1 Hpush regions)
    as T1.
  pose proof (region_pool_tally_ok conc services task s2 Hpush regions)
    as T2.
  fold p1 in G1, T1. fold p2 in G2, T2.
  assert (Hsame : forall t1 t2 : Tally,
             tally_ok t1 -> tally_ok t2 ->
             Permutation (outputs t1) (outputs t2) ->
             same_report
               (let sorted := sortedOutputs w (outputs t1) in
                let export := exportCsvToCos w sorted in
                match export_promise export with
                | Settles _ _ =>
                    Returns {| statusCode := 200;
                               body := summary (List.length regions)
                                         (untaggedCount t1);
                               handed_to_exporter := exported_items export;
                               csv_put := put_body export |}
                | Pending => Hangs
                end)
               (let sorted := sortedOutputs w (outputs t2) in
                let export := exportCsvToCos w sorted in
                match export_promise export with
                | Settles _ _ =>
                    Returns {| statusCode := 200;
                               body := summary (List.length regions)
                                         (untaggedCount t2);
                               handed_to_exporter := exported_items export;
                               csv_put := put_body export |}
                | Pending => Hangs
                end)).
  { intros t1 t2 Hok1 Hok2 Hperm. cbv zeta.
    pose proof (sort_fields (localeCompare w) Hcons Hexact _ _ Hperm)
      as Hfields.
    pose proof (csv_text_by_fields _ _ Hfields) as Htext.
    unfold sortedOutputs in *.
    destruct (exportCsvToCos_by_text w _ _ Htext) as [Hbody Hprom].
    rewrite Hprom, Hbody, !exportCsvToCos_items.
    match goal with |- context [export_promise ?e] =>
      destruct (export_promise e) end; [|exact I].
    cbn [same_report statusCode body handed_to_exporter csv_put].
    repeat split; auto.
    unfold tally_ok in *. rewrite Hok1, Hok2.
    rewrite (Permutation_length Hperm). reflexivity. }
  unfold same_finds in Hcos.
  destruct (scanCOS (cos_sched s1)) as [c1 [xs|e1]|],
           (scanCOS (cos_sched s2)) as [c2 [ys|e2]|];
    try contradiction; try exact I.
  - apply Hsame.
    + destruct (push_cos_spec xs (acc p1)) as [Ho Hc].
      unfold tally_ok in *. rewrite Ho, Hc, length_app, T1. reflexivity.
    + destruct (push_cos_spec ys (acc p2)) as [Ho Hc].
      unfold tally_ok in *. rewrite Ho, Hc, length_app, T2. reflexivity.
    + destruct (push_cos_spec xs (acc p1)) as [-> _].
      destruct (push_cos_spec ys (acc p2)) as [-> _].
      rewrite G1, G2. apply Permutation_app_head, Hcos.
  - apply Hsame; auto. rewrite G1, G2. reflexivity.
Qed.

Lemma dictionary_exact : exact dictionary.
Proof.
  intros a b. unfold dictionary, lex.
  destruct (String.compare (toLowerCase a) (toLowerCase b));
    try discriminate.
  intros H. symmetry. apply String.compare_eq_iff, H.
Qed.

(** Under a collation that is consistent and tells different strings
    apart, and with a bucket listing that holds bucket descriptors, a run
    does not depend on the interleaving of the workers: whether it
    returns, raises or never returns is the same under any two schedules,
    and so are the response and the text of the report, line by line,
    although the records are collected in another order. *)
Theorem report_independent_of_interleaving (w : World)
    (s1 s2 : Schedulers) :
  consistent (localeCompare w) -> exact (localeCompare w) ->
  buckets_described w ->
  same_report (Scan.main_handler w s1) (Scan.main_handler w s2)
  /\ same_report (Index.main_handler w s1) (Index.main_handler w s2).
Proof.
  intros Hcons Hexact Hdesc. split.
  - apply handler_body_same_report; auto.
    + apply Scan_task_pushes.
    + apply parsedMaxRegionConc_positive.
    + apply scanCOS_same_finds, Hdesc.
  - apply handler_body_same_report; auto.
    + apply Index_task_pushes.
    + apply scanCOS_same_finds, Hdesc.
Qed.

Lemma mixed_case_buckets_described : buckets_described mixed_case.
Proof. intros t err d [= _ _ <-]. constructor. Qed.

Lemma report_independent_of_interleaving_witness :
  same_report (Scan.main_handler mixed_case fifo)
              (Scan.main_handler mixed_case second_first)
  /\ same_report (Index.main_handler mixed_case fifo)
                 (Index.main_handler mixed_case second_first).
Proof.
  apply (report_independent_of_interleaving mixed_case fifo second_first).
  - apply dictionary_consistent.
  - apply dictionary_exact.
  - apply mixed_case_buckets_described.
Defined.

(* ================================================================== *)
(** ** Running without COS credentials *)

Lemma scanCOS_without_credentials (w : World) stamp sched :
  has_credentials (env w) = false -> scanCOS_with stamp w sched = resolve [].
Proof. intros H. unfold scanCOS_with. rewrite H. reflexivity. Qed.

Lemma exportCsvToCos_without_credentials (w : World) items :
  has_credentials (env w) = false ->
  exportCsvToCos w items
  = {| exported_items := items; put_body := None;
       export_promise := reject MissingCredentials |}.
Proof. intros H. unfold exportCsvToCos. rewrite H. reflexivity. Qed.

Lemma handler_body_without_credentials (w w' : World) listed_regions conc
    services task scanCOS scanCOS' s :
  localeCompare w' = localeCompare w ->
  has_credentials (env w) = false -> has_credentials (env w') = false ->
  scanCOS' (cos_sched s) = scanCOS (cos_sched s) ->
  handler_body w' listed_regions conc services task scanCOS' s
  = handler_body w listed_regions conc services task scanCOS s.
Proof.
  intros Hlc Hcred Hcred' Hscan. unfold handler_body, sortedOutputs.
  rewrite Hlc, Hscan.
  destruct listed_regions as [t [regions|e]|]; try reflexivity.
  destruct (negb _); [reflexivity|].
  destruct (scanCOS _) as [t' [cosItems|e]|]; cbv zeta; try reflexivity;
    rewrite (exportCsvToCos_without_credentials w _ Hcred),
            (exportCsvToCos_without_credentials w' _ Hcred');
    reflexivity.
Qed.

(** Without explicit credentials no COS call is made.  The bucket scan
    resolves with nothing and the export fails with the missing
    credentials before it reaches the SDK, so that the run is the same
    whatever the COS backend would have answered, had it been asked; the
    failed export is ignored, and the full script returns the summary of
    the records of the region tasks alone as soon as the region list is
    resolved: no report is written anywhere. *)
Theorem no_COS_call_without_credentials (w : World) (s : Schedulers) :
  has_credentials (env w) = false ->
  (forall stamp sched, scanCOS_with stamp w sched = resolve [])
  /\ (forall items,
         put_body (exportCsvToCos w items) = None
         /\ export_promise (exportCsvToCos w items)
            = reject MissingCredentials)
  /\ (forall answer tagging put,
         Scan.main_handler (with_cos w answer tagging put) s
         = Scan.main_handler w s
         /\ Index.main_handler (with_cos w answer tagging put) s
            = Index.main_handler w s)
  /\ (forall t regions,
         resolved (Scan.listAllRegions w) = Settles t (Fulfilled regions) ->
         exists r,
           Scan.main_handler w s = Returns r
           /\ csv_put r = None
           /\ Permutation (handed_to_exporter r)
                (region_records (Scan.task w) (Scan.regionServices w)
                   regions)).
Proof.
  intros Hcred.
  split; [intros; apply scanCOS_without_credentials, Hcred|].
  split.
  { intros items. rewrite (exportCsvToCos_without_credentials w _ Hcred).
    split; reflexivity. }
  split.
  - intros answer tagging put.
    assert (Hcred' : has_credentials (env (with_cos w answer tagging put))
                     = false) by exact Hcred.
    split.
    + unfold Scan.main_handler.
      change (handler_body (with_cos w answer tagging put)
                (resolved (Scan.listAllRegions w))
                (parsedMaxRegionConc (env w)) (Scan.regionServices w)
                (Scan.task w) (Scan.scanCOS (with_cos w answer tagging put))
                s
              = handler_body w (resolved (Scan.listAllRegions w))
                  (parsedMaxRegionConc (env w)) (Scan.regionServices w)
                  (Scan.task w) (Scan.scanCOS w) s).
      apply handler_body_without_credentials;
        [reflexivity|exact Hcred|exact Hcred'|].
      unfold Scan.scanCOS.
      rewrite (scanCOS_without_credentials w _ _ Hcred).
      apply (scanCOS_without_credentials _ _ _ Hcred').
    + unfold Index.main_handler.
      change (handler_body (with_cos w answer tagging put)
                (resolved (Index.listAllRegions w)) 3 Index.regionServices
                (Index.task w)
                (Index.scanCOS (with_cos w answer tagging put)) s
              = handler_body w (resolved (Index.listAllRegions w)) 3
                  Index.regionServices (Index.task w) (Index.scanCOS w) s).
      apply handler_body_without_credentials;
        [reflexivity|exact Hcred|exact Hcred'|].
      unfold Index.scanCOS.
      rewrite (scanCOS_without_credentials w _ _ Hcred).
      apply (scanCOS_without_credentials _ _ _ Hcred').
  - intros t regions Hres.
    destruct (handler_returns_when_settled w _
                (parsedMaxRegionConc (env w)) (Scan.regionServices w)
                (Scan.task w) (Scan.scanCOS w) s t regions Hres)
      as [r Hr].
    + intros region svcName. apply Scan_task_settles.
    + unfold Scan.scanCOS.
      rewrite (scanCOS_without_credentials w _ _ Hcred). reflexivity.
    + intros items.
      rewrite (exportCsvToCos_without_credentials w _ Hcred). reflexivity.
    + exists r. split; [exact Hr|].
      destruct (handler_summary w _ _ _ _ _ s r (Scan_task_pushes w)
                  (parsedMaxRegionConc_positive _) Hr)
        as (t' & regions' & Hl & _ & _ & _ & Hput & Hperm).
      rewrite Hcred in Hput. split; [exact Hput|].
      unfold Scan.main_handler in Hr. rewrite Hres in Hl.
      injection Hl as _ <-.
      unfold Scan.scanCOS in Hperm.
      rewrite (scanCOS_without_credentials w _ _ Hcred) in Hperm.
      cbn [resolve cos_records] in Hperm. rewrite app_nil_r in Hperm.
      exact Hperm.
Qed.

Lemma no_COS_call_without_credentials_witness :
  Scan.main_handler
    (with_cos ccn_everywhere (lists 12 [bucket "b1" "ap"])
       (fun _ _ => answers_error 404 "NotFound")
       (fun _ => answers_ok JNull)) fifo
  = Scan.main_handler ccn_everywhere fifo.
Proof.
  destruct (no_COS_call_without_credentials ccn_everywhere fifo eq_refl)
    as (_ & _ & Hsame & _).
  exact (proj1 (Hsame (lists 12 [bucket "b1" "ap"])
                  (fun _ _ => answers_error 404 "NotFound")
                  (fun _ => answers_ok JNull))).
Defined.

(* ================================================================== *)
(** ** Scanner units *)

Lemma delay_0 {A} (p : Promise A) : delay 0 p = p.
Proof. destruct p; reflexivity. Qed.

Lemma any_of_first (v : JsVal) (rest : list JsVal) :
  truthy v = true -> any_of (v :: rest) = v.
Proof. intros H. cbn [any_of]. destruct rest; [reflexivity|]. rewrite H. reflexivity. Qed.

Lemma read_nest (path : list string) (v : JsVal) :
  path <> [] -> read (nest path v) path = v.
Proof.
  destruct path as [|k rest]; [congruence|]. intros _.
  cbn [read nest get lookup]. rewrite String.eqb_refl.
  revert k. induction rest as [|k' rest IH]; intros k; [reflexivity|].
  cbn [nest fold_left get_opt nullish get lookup].
  rewrite String.eqb_refl. apply (IH k').
Qed.

(** A run of the pagination loop depends on the page operation only
    through what it answers to the requests of the loop. *)
Lemma pagedFetch_loop_ext (f g : JsVal -> Promise Page) pageSize ok lk :
  (forall offset, f (page_request ok lk offset pageSize)
                  = g (page_request ok lk offset pageSize)) ->
  forall fuel offset all,
    pagedFetch_loop fuel f pageSize ok lk offset all
    = pagedFetch_loop fuel g pageSize ok lk offset all.
Proof.
  intros Hfg. induction fuel as [|fuel IH]; intros offset all;
    [reflexivity|].
  cbn [pagedFetch_loop]. rewrite Hfg.
  destruct (g _) as [t [page|e]|]; try reflexivity.
  rewrite IH. reflexivity.
Qed.

Lemma paging_request (offset pageSize : Z) :
  paging (page_request "Offset" "Limit" offset pageSize)
  = page_request "Offset" "Limit" offset pageSize.
Proof. reflexivity. Qed.

Lemma untagged_of_objects (mk : JsVal -> JsVal) (items : list JsVal) :
  Forall (fun x => nullish x = false) items ->
  untagged mk items = resolve (map mk (filter hasNoTags items)).
Proof.
  intros H. unfold untagged, map_reading.
  assert (Hnone : existsb nullish (filter hasNoTags items) = false).
  { induction H as [|x l Hx _ IH]; [reflexivity|]. cbn [filter].
    destruct (hasNoTags x); [|exact IH]. cbn [existsb].
    rewrite Hx, IH. reflexivity. }
  rewrite Hnone. reflexivity.
Qed.

Section UnitFacts.

Variable sdk : Sdk.
Variable creds : Credentials.
Variable w : World.
Variable region : JsVal.

Lemma fetchPage_serving (client : Client) (name : string) (tolerant : bool)
    (path : list string) (others : list (list string))
    (backing : list JsVal) (req : JsVal) :
  method sdk client name = Some (serving path backing) ->
  path <> [] ->
  Units.fetchPage sdk client name tolerant (path :: others) req
  = backed_by backing (paging req).
Proof.
  intros Hm Hpath. unfold Units.fetchPage.
  assert (Hn : forall v, nullish (nest path v) = false)
    by (destruct path; [congruence|reflexivity]).
  assert (Ht : forall v, or_else (nest path v) (JObj []) = nest path v)
    by (destruct path; [congruence|reflexivity]).
  destruct tolerant; unfold Units.call_if_any, Units.call; rewrite Hm;
    unfold serving, backed_by, resolve;
    cbn [await delay page_items items N.add];
    rewrite ?Ht, Hn; unfold list_at; cbn [map app];
    rewrite read_nest by exact Hpath;
    rewrite any_of_first by reflexivity; reflexivity.
Qed.

Lemma paged_serving (client : Client) (name : string) (tolerant : bool)
    (path : list string) (others : list (list string))
    (backing : list JsVal) :
  method sdk client name = Some (serving path backing) ->
  path <> [] ->
  (List.length backing / 100 < page_budget w)%nat ->
  Units.paged sdk w client name tolerant (path :: others) = resolve backing.
Proof.
  intros Hm Hpath Hbudget. unfold Units.paged, listing, pagedFetch,
    pagedFetch_with.
  rewrite (pagedFetch_loop_ext _ (backed_by backing)).
  - destruct (pagedFetch_loop_backed backing 100 ltac:(lia)
                (page_budget w) 0 ltac:(lia)) as [Hf _].
    + rewrite Nat.sub_0_r. exact Hbudget.
    + cbv zeta in Hf.
      change (Z.of_nat 100) with 100%Z in Hf.
      change (Z.of_nat 0) with 0%Z in Hf.
      change (firstn 0 backing) with (@nil JsVal) in Hf.
      rewrite Hf. reflexivity.
  - intros offset.
    rewrite (fetchPage_serving client name tolerant path others backing _
               Hm Hpath).
    rewrite paging_request. reflexivity.
Qed.

End UnitFacts.

Lemma listing_unit_serving
    (sdk : Sdk) (creds : Credentials) (w : World) (region : JsVal)
    (p : Plan) (clients clients' : Clients) (client : Client)
    (path : list string) (others : list (list string))
    (backing : list JsVal) :
  getClient sdk creds region clients
    (plan_svc p) (plan_version p) (plan_endpoint p)
  = Some (client, clients') ->
  method sdk client (operation p) = Some (serving path backing) ->
  found_at p = path :: others -> path <> [] ->
  Forall (fun x => nullish x = false) backing ->
  (List.length backing / 100 < page_budget w)%nat ->
  Units.listing_unit sdk creds w region p clients
  = (resolve (map (labelled (label p) (id_fields p))
                  (filter hasNoTags backing)),
     clients').
Proof.
  intros Hclient Hm Hfound Hpath Hobjs Hbudget.
  unfold Units.listing_unit, Units.with_client. rewrite Hclient, Hfound.
  rewrite (paged_serving sdk w client _ _ path others backing Hm Hpath
             Hbudget).
  cbn [resolve await]. rewrite delay_0.
  rewrite (untagged_of_objects _ _ Hobjs). reflexivity.
Qed.

(** A unit of the common shape, end to end, in front of a listing that
    holds a fixed sequence of resources and answers in the shape of the
    first alternative of the unit: the unit pages through the whole
    sequence, however long, and resolves with one record for each
    resource that has no tags, in the order of the listing, under the
    label of the unit and with the first truthy one of its id fields. *)
Theorem listing_unit_reports_untagged
    (sdk : Sdk) (creds : Credentials) (w : World) (region : JsVal)
    (p : Plan) (clients clients' : Clients) (client : Client)
    (path : list string) (others : list (list string))
    (backing : list JsVal) :
  getClient sdk creds region clients
    (plan_svc p) (plan_version p) (plan_endpoint p)
  = Some (client, clients') ->
  method sdk client (operation p) = Some (serving path backing) ->
  found_at p = path :: others -> path <> [] ->
  Forall (fun x => nullish x = false) backing ->
  (List.length backing / 100 < page_budget w)%nat ->
  Units.listing_unit sdk creds w region p clients
  = (resolve (map (labelled (label p) (id_fields p))
                  (filter hasNoTags backing)),
     clients').
Proof.
  intros Hclient Hm Hfound Hpath Hobjs Hbudget.
  unfold Units.listing_unit, Units.with_client. rewrite Hclient, Hfound.
  rewrite (paged_serving sdk w client _ _ path others backing Hm Hpath
             Hbudget).
  cbn [resolve await]. rewrite delay_0.
  rewrite (untagged_of_objects _ _ Hobjs). reflexivity.
Qed.

Lemma listing_unit_reports_untagged_witness :
  fst (Units.listing_unit sample_sdk no_credentials two_regions
         (JStr "ap-tokyo") cbs_plan [])
  = resolve [ JObj [("service", JStr "CBS"); ("id", JStr "disk-1")];
              JObj [("service", JStr "CBS"); ("id", JStr "disk-3")] ].
Proof.
  rewrite (listing_unit_reports_untagged sample_sdk no_credentials
             two_regions (JStr "ap-tokyo") cbs_plan [] _ _
             ["DiskSet"] [] three_disks eq_refl eq_refl eq_refl).
  - reflexivity.
  - discriminate.
  - repeat constructor.
  - vm_compute. lia.
Defined.

Section UnitFailures.

Variable sdk : Sdk.
Variable creds : Credentials.
Variable w : World.
Variable region : JsVal.

Lemma listing_first_page (f : JsVal -> Promise Page) :
  (1 <= page_budget w)%nat ->
  (forall t e,
      f (page_request "Offset" "Limit" 0 100) = Settles t (Rejected e) ->
      listing w f = Settles t (Rejected e))
  /\ (forall t xs,
         f (page_request "Offset" "Limit" 0 100)
         = Settles t (Fulfilled {| items := Some xs |}) ->
         (List.length xs < 100)%nat ->
         listing w f = Settles t (Fulfilled xs)).
Proof.
  intros Hb. unfold listing, pagedFetch, pagedFetch_with.
  destruct (page_budget w) as [|fuel]; [lia|]. cbn [pagedFetch_loop].
  split.
  - intros t e ->. reflexivity.
  - intros t xs -> Hlen. cbn [page_items items app].
    destruct (Z.ltb_spec (Z.of_nat (List.length xs)) 100); [reflexivity|lia].
Qed.

Lemma read_nothing (path : list string) :
  path <> [] -> read (JObj []) path = JUndefined.
Proof.
  destruct path as [|k rest]; [congruence|]. intros _. cbn [read get lookup].
  induction rest as [|k' rest IH]; [reflexivity|]. exact IH.
Qed.

Lemma list_at_nothing (found : list (list string)) :
  Forall (fun path => path <> []) found -> list_at (JObj []) found = JArr [].
Proof.
  unfold list_at. induction 1 as [|path found Hp _ IH]; [reflexivity|].
  cbn [map app]. rewrite (read_nothing path Hp).
  cbn [any_of]. destruct (map (read (JObj [])) found ++ [JArr []]) eqn:E.
  - destruct (map (read (JObj [])) found); discriminate.
  - exact IH.
Qed.

Lemma paged_refused (client : Client) (name : string) (tolerant : bool)
    (found : list (list string)) (t : N) (e : JsError) :
  method sdk client name = Some (answering (Settles t (Rejected e))) ->
  (1 <= page_budget w)%nat ->
  Units.paged sdk w client name tolerant found = Settles t (Rejected e).
Proof.
  intros Hm Hb. unfold Units.paged.
  apply (proj1 (listing_first_page _ Hb)).
  unfold Units.fetchPage.
  destruct tolerant; unfold Units.call, Units.call_if_any; rewrite Hm;
    reflexivity.
Qed.

End UnitFailures.

(** A unit of the common shape when a part of the SDK it needs is not
    there.  Without the constructor of its client the unit is rejected at
    once and leaves the cache of clients as it was; under the guard of
    the EMR unit that reads as no finding.  Without the listing method
    on the client a unit that calls it only if it is there finds
    nothing, and any other unit is rejected. *)
Theorem units_without_their_SDK_parts
    (sdk : Sdk) (creds : Credentials) (w : World) (region : JsVal)
    (p : Plan) (clients : Clients) :
  (cached (client_key (plan_svc p) (plan_version p)) clients = None ->
   catalogue sdk (plan_svc p) (plan_version p) = false ->
   Units.listing_unit sdk creds w region p clients
   = (reject TypeError, clients)
   /\ Units.guarded (Units.listing_unit sdk creds w region p) clients
      = (resolve [], clients))
  /\ (forall client clients',
         getClient sdk creds region clients
           (plan_svc p) (plan_version p) (plan_endpoint p)
         = Some (client, clients') ->
         method sdk client (operation p) = None ->
         Forall (fun path => path <> []) (found_at p) ->
         (1 <= page_budget w)%nat ->
         Units.listing_unit sdk creds w region p clients
         = (if lenient p then resolve [] else reject TypeError, clients')).
Proof.
  split.
  - intros Hmiss Hcat.
    assert (Hu : Units.listing_unit sdk creds w region p clients
                 = (reject TypeError, clients)).
    { unfold Units.listing_unit, Units.with_client, getClient.
      rewrite Hmiss, Hcat. reflexivity. }
    split; [exact Hu|]. unfold Units.guarded. rewrite Hu. reflexivity.
  - intros client clients' Hclient Hm Hfound Hb.
    unfold Units.listing_unit, Units.with_client. rewrite Hclient.
    f_equal. unfold Units.paged.
    destruct (listing_first_page w
                (Units.fetchPage sdk client (operation p) (lenient p)
                   (found_at p)) Hb) as [Hrej Hful].
    destruct (lenient p).
    + rewrite (Hful 0%N []); [reflexivity| |simpl; lia].
      unfold Units.fetchPage, Units.call_if_any. rewrite Hm.
      cbn [resolve await delay or_else truthy nullish].
      rewrite (list_at_nothing _ Hfound). reflexivity.
    + rewrite (Hrej 0%N TypeError); [reflexivity|].
      unfold Units.fetchPage, Units.call. rewrite Hm. reflexivity.
Qed.

Lemma units_without_their_SDK_parts_witness :
  Units.EMR sample_sdk no_credentials two_regions (JStr "ap-tokyo") []
  = (resolve [], [])
  /\ fst (Units.listing_unit sample_sdk no_credentials two_regions
            (JStr "ap-tokyo") tione_plan [])
     = resolve [].
Proof.
  destruct (units_without_their_SDK_parts sample_sdk no_credentials
              two_regions (JStr "ap-tokyo") emr_plan []) as [Hemr _].
  destruct (units_without_their_SDK_parts sample_sdk no_credentials
              two_regions (JStr "ap-tokyo") tione_plan []) as [_ Htione].
  split.
  - apply (Hemr eq_refl eq_refl).
  - rewrite (Htione _ _ eq_refl eq_refl); [reflexivity| |vm_compute; lia].
    repeat constructor; discriminate.
Defined.

(** The TKE unit lists the standard clusters and then the serverless
    ones, and reports the untagged ones of both, the standard ones
    first, those under the label [TKE] and these under [TKE_SERVERLESS].
    It reports all or nothing: when the second listing is refused the
    unit is rejected, and the standard clusters it had listed are not
    reported. *)
Theorem TKE_reports_all_or_nothing
    (sdk : Sdk) (creds : Credentials) (w : World) (region : JsVal)
    (clients clients' : Clients) (client : Client)
    (standard : list JsVal) :
  getClient sdk creds region clients "tke" "v20180525"
    "tke.tencentcloudapi.com" = Some (client, clients') ->
  method sdk client "DescribeClusters"
  = Some (serving ["Clusters"] standard) ->
  Forall (fun x => nullish x = false) standard ->
  (List.length standard / 100 < page_budget w)%nat ->
  (forall serverless,
      method sdk client "DescribeEKSClusters"
      = Some (serving ["Clusters"] serverless) ->
      Forall (fun x => nullish x = false) serverless ->
      (List.length serverless / 100 < page_budget w)%nat ->
      fst (Units.TKE sdk creds w region clients)
      = resolve
          (map (labelled "TKE" ["ClusterId"]) (filter hasNoTags standard)
           ++ map (labelled "TKE_SERVERLESS"
                     ["ClusterId"; "EksClusterId"; "ClusterName"])
                  (filter hasNoTags serverless)))
  /\ (forall t e,
         method sdk client "DescribeEKSClusters"
         = Some (answering (Settles t (Rejected e))) ->
         fst (Units.TKE sdk creds w region clients)
         = Settles t (Rejected e)).
Proof.
  intros Hclient Hstd Hobjs Hbudget. split.
  - intros serverless Hsl Hobjs' Hbudget'.
    unfold Units.TKE, Units.with_client. rewrite Hclient. cbn [fst].
    rewrite (paged_serving sdk w client _ _ ["Clusters"] _ standard Hstd
               ltac:(discriminate) Hbudget).
    cbn [resolve await]. rewrite delay_0.
    rewrite (paged_serving sdk w client _ _ ["Clusters"] _ serverless Hsl
               ltac:(discriminate) Hbudget').
    cbn [resolve await]. rewrite delay_0.
    rewrite (untagged_of_objects _ _ Hobjs), (untagged_of_objects _ _ Hobjs').
    reflexivity.
  - intros t e Hsl.
    unfold Units.TKE, Units.with_client. rewrite Hclient. cbn [fst].
    rewrite (paged_serving sdk w client _ _ ["Clusters"] _ standard Hstd
               ltac:(discriminate) Hbudget).
    cbn [resolve await]. rewrite delay_0.
    rewrite (paged_refused sdk w client _ _ _ t e Hsl ltac:(lia)).
    reflexivity.
Qed.

Lemma TKE_reports_all_or_nothing_witness :
  fst (Units.TKE sample_sdk no_credentials two_regions (JStr "ap-tokyo") [])
  = Settles 7 (Rejected (SdkError (JStr "AuthFailure"))).
Proof.
  destruct (TKE_reports_all_or_nothing sample_sdk no_credentials two_regions
              (JStr "ap-tokyo") [] _ _ one_cluster eq_refl eq_refl)
    as [_ Hrefused].
  - repeat constructor.
  - vm_compute. lia.
  - apply Hrefused. reflexivity.
Defined.

Lemma plans_well_formed : forallb well_formed_row plans = true.
Proof. vm_compute. reflexivity. Qed.

(** Every unit of the table, in front of a listing that holds a fixed
    sequence of resources and answers under the first field the unit
    looks at: the unit resolves with one record for each resource
    without tags, in the order of the listing; the records carry the
    key of the unit as their service, except those of [CYNOSDB], which
    carry [TDSQL_C]. *)
Theorem table_units_report_untagged
    (sdk : Sdk) (creds : Credentials) (w : World) (region : JsVal)
    (key : string) (p : Plan) (clients clients' : Clients) (client : Client)
    (backing : list JsVal) :
  In (key, p) plans ->
  getClient sdk creds region clients
    (plan_svc p) (plan_version p) (plan_endpoint p)
  = Some (client, clients') ->
  method sdk client (operation p)
  = Some (serving (hd [] (found_at p)) backing) ->
  Forall (fun x => nullish x = false) backing ->
  (List.length backing / 100 < page_budget w)%nat ->
  Units.listing_unit sdk creds w region p clients
  = (resolve
       (map (fun x =>
               JObj [ ("service",
                       JStr (if key =? "CYNOSDB" then "TDSQL_C" else key));
                      ("id", id_at x (id_fields p)) ])
            (filter hasNoTags backing)),
     clients').
Proof.
  intros Hin Hclient Hm Hobjs Hbudget.
  pose proof plans_well_formed as Hwf.
  rewrite forallb_forall in Hwf. specialize (Hwf _ Hin).
  unfold well_formed_row in Hwf. cbn [fst snd] in Hwf.
  apply andb_true_iff in Hwf. destruct Hwf as [Hfound Hlabel].
  apply String.eqb_eq in Hlabel.
  destruct (found_at p) as [|path others] eqn:Hf; [discriminate|].
  cbn [forallb] in Hfound. apply andb_true_iff in Hfound.
  destruct Hfound as [Hpath _].
  assert (Hne : path <> []).
  { intros ->. discriminate. }
  cbn [hd] in Hm.
  rewrite (listing_unit_serving sdk creds w region p clients
             clients' client path others backing Hclient Hm Hf Hne Hobjs
             Hbudget).
  unfold labelled. rewrite Hlabel. reflexivity.
Qed.

Lemma table_units_report_untagged_witness :
  fst (Units.listing_unit sample_sdk no_credentials two_regions
         (JStr "ap-tokyo") cbs_plan [])
  = resolve [ JObj [("service", JStr "CBS"); ("id", JStr "disk-1")];
              JObj [("service", JStr "CBS"); ("id", JStr "disk-3")] ].
Proof.
  rewrite (table_units_report_untagged sample_sdk no_credentials
             two_regions (JStr "ap-tokyo") "CBS" cbs_plan [] _ _
             three_disks (or_intror (or_introl eq_refl)) eq_refl eq_refl).
  - reflexivity.
  - repeat constructor.
  - vm_compute. lia.
Defined.
